(** * Cheesse: the Stockfish process adapter of the backend

    A shallow embedding of [Backend/stockfish-engine.js] (engine locator and
    UCI session driver), of the two engine routes of [Backend/server.js] and
    of the helpers of [Frontend/src/App.jsx] that build the requests and read
    the results, followed by the properties of the adapter and its callers.

    Modelling conventions.
    - A JavaScript string is the list of its UTF-16 code units ([jstr]).
    - A JavaScript number that the adapter reads or prints is an integer
      ([Z]) or NaN, and the quotient [value / 100] is an exact rational.
      This is what the code computes on doubles as long as the integers are
      safe ones (at most [MAX_SAFE_INTEGER], 2^53 - 1) and the quotient is
      taken of at most [MAX_SCORE] (100 * 2^46) centipawns.  The statements
      about a number read from the engine, or taken from a request and
      printed or added, carry these bounds as hypotheses.
    - Numeric request fields are taken at integer values, and a timer delay
      is one Node honours up to [TIMEOUT_MAX] (2^31 - 1).
    - An element of [moves] that is a string prints as itself.  The model
      prints every object as [[object Object]]; the statements about what is
      written on [readyok] take the moves to be strings.
    - A data event carries the text its chunk decodes to ([chunk.toString()]).
    - The closure variables of [analyzePosition] form the record [session];
      every callback is a function from the session to the new session and
      the list of effects it performs, in program order.
    - The event loop is the list of events delivered to the session. *)

From Stdlib Require Import String Ascii.
From Stdlib Require Import List ZArith NArith QArith Qround Qabs Bool Lia.
Import ListNotations.
Local Open Scope Z_scope.

(* ================================================================== *)
(** * Part I: definitions                                              *)
(* ================================================================== *)

(** ** JavaScript strings, numbers and regular expressions *)
Module Js.

Definition jstr := list N.

(** A string literal as code units. *)
Definition str (s : string) : jstr :=
  map N_of_ascii (list_ascii_of_string s).

(** The line terminators of the protocol. *)
Definition LF : jstr := [10%N].
Definition CRLF : jstr := [13%N; 10%N].

Fixpoint jstr_eqb (a b : jstr) : bool :=
  match a, b with
  | [], [] => true
  | x :: a', y :: b' => N.eqb x y && jstr_eqb a' b'
  | _, _ => false
  end.

(** ECMAScript LineTerminator: LF, CR, LS, PS. *)
Definition is_line_term (c : N) : bool :=
  (N.eqb c 10 || N.eqb c 13 || N.eqb c 8232 || N.eqb c 8233)%N.

(** ECMAScript WhiteSpace or LineTerminator: the class [\s], which is also
    what [String.prototype.trim] strips. *)
Definition is_space (c : N) : bool :=
  (N.eqb c 9 || N.eqb c 11 || N.eqb c 12 || N.eqb c 32 || N.eqb c 160
   || N.eqb c 5760 || (N.leb 8192 c && N.leb c 8202) || N.eqb c 8239
   || N.eqb c 8287 || N.eqb c 12288 || N.eqb c 65279
   || is_line_term c)%N.

Definition is_digit (c : N) : bool := (N.leb 48 c && N.leb c 57)%N.

(** The class [\w]: ASCII letters, digits and underscore. *)
Definition is_word (c : N) : bool :=
  ((N.leb 97 c && N.leb c 122) || (N.leb 65 c && N.leb c 90)
   || is_digit c || N.eqb c 95)%N.

Definition not_space (c : N) : bool := negb (is_space c).

(** The class [.] without the [s] flag. *)
Definition dot (c : N) : bool := negb (is_line_term c).

Fixpoint drop_while (p : N -> bool) (s : jstr) : jstr :=
  match s with
  | c :: s' => if p c then drop_while p s' else s
  | [] => []
  end.

Definition trimEnd (s : jstr) : jstr := rev (drop_while is_space (rev s)).
Definition trimStart (s : jstr) : jstr := drop_while is_space s.

(** [String.prototype.trim]. *)
Definition trim (s : jstr) : jstr := trimStart (trimEnd s).

(** [strip_prefix p s] is [Some rest] when [s = p ++ rest]. *)
Fixpoint strip_prefix (p s : jstr) : option jstr :=
  match p with
  | [] => Some s
  | x :: p' =>
      match s with
      | y :: s' => if N.eqb x y then strip_prefix p' s' else None
      | [] => None
      end
  end.

(** [String.prototype.startsWith]. *)
Definition startsWith (s p : jstr) : bool :=
  match strip_prefix p s with Some _ => true | None => false end.

(** [Array.prototype.join] on strings. *)
Fixpoint join (sep : jstr) (l : list jstr) : jstr :=
  match l with
  | [] => []
  | [x] => x
  | x :: l' => x ++ sep ++ join sep l'
  end.

(** *** Numbers *)

Inductive number :=
| Int (z : Z)
| NaN.

Definition digit_char (d : N) : N := (48 + d)%N.

(** Decimal digits of a natural number, most significant first; [fuel]
    bounds the number of digits. *)
Fixpoint dec_fuel (fuel : nat) (n : N) : jstr :=
  match fuel with
  | O => []
  | S f =>
      (if N.eqb (n / 10) 0 then [] else dec_fuel f (n / 10))
        ++ [digit_char (n mod 10)]
  end.

Definition dec (n : N) : jstr := dec_fuel (S (N.to_nat (N.log2 n))) n.

(** [Number.MAX_SAFE_INTEGER] and [Number.isSafeInteger] on an integer.  Up
    to this bound every integer is a double, is read by [parseInt] and added
    without rounding, and prints as its decimal digits. *)
Definition MAX_SAFE_INTEGER : Z := 9007199254740991.

Definition isSafeInteger (z : Z) : bool := Z.abs z <=? MAX_SAFE_INTEGER.

(** [Number::toString] of an integer (radix 10), as used by template
    literals: the decimal digits, which is what a safe integer prints as. *)
Definition int_toString (z : Z) : jstr :=
  if z <? 0 then str "-" ++ dec (Z.abs_N z) else dec (Z.abs_N z).

Definition toString (v : number) : jstr :=
  match v with
  | Int z => int_toString z
  | NaN => str "NaN"
  end.

(** Value of a run of decimal digits, left to right. *)
Fixpoint digits_value (acc : Z) (s : jstr) : Z :=
  match s with
  | c :: s' =>
      if is_digit c then digits_value (10 * acc + (Z.of_N c - 48)) s'
      else acc
  | [] => acc
  end.

Definition starts_with_digit (s : jstr) : bool :=
  match s with c :: _ => is_digit c | [] => false end.

(** [Number.parseInt(s, 10)]: leading white space is skipped, an optional
    sign is read, then the longest run of digits; NaN when there is none.
    The result is the integer written, which is the code's double when that
    integer is a safe one. *)
Definition parseInt (s : jstr) : number :=
  let t := trimStart s in
  let '(neg, u) :=
    match t with
    | c :: t' =>
        if N.eqb c 45 then (true, t')
        else if N.eqb c 43 then (false, t')
        else (false, t)
    | [] => (false, t)
    end in
  if starts_with_digit u
  then Int (if neg then - digits_value 0 u else digits_value 0 u)
  else NaN.

(** The result of a division that need not be an integer, as an exact
    rational.  For [value / 100] the double of the code lies close enough to
    it to have the same hundredths as long as [|value| <= 100 * 2^46]. *)
Inductive quotient :=
| Quot (q : Q)
| QNaN.

Definition div (v : number) (d : Z) : quotient :=
  match v with
  | Int z => Quot (inject_Z z / inject_Z d)%Q
  | NaN => QNaN
  end.

(** [x >= 0] on numbers; every comparison with NaN is false. *)
Definition geq0 (v : number) : bool :=
  match v with
  | Int z => 0 <=? z
  | NaN => false
  end.

(** [Number.prototype.toFixed(f)], following the steps of ECMA-262: the
    sign is split off, [n] is the integer nearest to [x * 10^f] (the larger
    one on a tie), its digits are left-padded with zeros to [f + 1] places
    and the point is inserted before the last [f] of them. *)
Definition toFixed (f : nat) (x : quotient) : jstr :=
  match x with
  | QNaN => str "NaN"
  | Quot q =>
      let s := if Qlt_le_dec q 0 then str "-" else [] in
      let a := Qabs q in
      let n := Qfloor (a * inject_Z (10 ^ Z.of_nat f) + (1 # 2))%Q in
      let m := if n =? 0 then str "0" else dec (Z.to_N n) in
      match f with
      | O => s ++ m
      | _ =>
          let k := length m in
          let m' := if (k <=? f)%nat then repeat 48%N (f + 1 - k) ++ m else m in
          let k' := length m' in
          s ++ firstn (k' - f) m' ++ str "." ++ skipn (k' - f) m'
      end
  end.

(** *** Regular expressions

    The fragment of ECMAScript patterns the adapter uses, with the
    backtracking semantics of the language: alternatives are tried left to
    right, quantifiers are greedy, and a search tries every start index in
    turn.  Quantified atoms are always character classes here. *)

Inductive regex :=
| Lit (s : jstr)                 (* literal characters *)
| Cls (p : N -> bool)            (* one character of a class *)
| Plus (p : N -> bool)           (* class+, greedy *)
| Opt (r : regex)                (* r?, greedy *)
| Alt (r1 r2 : regex)            (* r1|r2 *)
| Cat (r1 r2 : regex)            (* r1 r2 *)
| Grp (i : nat) (r : regex)      (* i-th capturing group *)
| WordB                          (* \b *)
| Bol                            (* ^ *)
| Eol.                           (* $ *)

Definition caps := list (nat * jstr).

(** A continuation receives the reversed text before the position, the text
    from the position on, and the captures so far. *)
Definition cont := jstr -> jstr -> caps -> option caps.

Definition word_before (bef : jstr) : bool :=
  match bef with c :: _ => is_word c | [] => false end.

Definition word_after (rest : jstr) : bool :=
  match rest with c :: _ => is_word c | [] => false end.

Fixpoint star (p : N -> bool) (k : cont) (bef rest : jstr) (c : caps)
  {struct rest} : option caps :=
  match rest with
  | x :: rest' =>
      if p x then
        match star p k (x :: bef) rest' c with
        | Some r => Some r
        | None => k bef rest c
        end
      else k bef rest c
  | [] => k bef rest c
  end.

Fixpoint rmatch (r : regex) (k : cont) (bef rest : jstr) (c : caps)
  {struct r} : option caps :=
  match r with
  | Lit s =>
      match strip_prefix s rest with
      | Some rest' => k (rev s ++ bef) rest' c
      | None => None
      end
  | Cls p =>
      match rest with
      | x :: rest' => if p x then k (x :: bef) rest' c else None
      | [] => None
      end
  | Plus p =>
      match rest with
      | x :: rest' => if p x then star p k (x :: bef) rest' c else None
      | [] => None
      end
  | Opt r1 =>
      match rmatch r1 k bef rest c with
      | Some res => Some res
      | None => k bef rest c
      end
  | Alt r1 r2 =>
      match rmatch r1 k bef rest c with
      | Some res => Some res
      | None => rmatch r2 k bef rest c
      end
  | Cat r1 r2 => rmatch r1 (rmatch r2 k) bef rest c
  | Grp i r1 =>
      rmatch r1
        (fun bef' rest' c' =>
           k bef' rest'
             ((i, firstn (length rest - length rest') rest) :: c'))
        bef rest c
  | WordB =>
      if xorb (word_before bef) (word_after rest) then k bef rest c else None
  | Bol => match bef with [] => k bef rest c | _ :: _ => None end
  | Eol => match rest with [] => k bef rest c | _ :: _ => None end
  end.

Definition accept : cont := fun _ _ c => Some c.

Fixpoint search_from (r : regex) (bef rest : jstr) : option caps :=
  match rmatch r accept bef rest [] with
  | Some c => Some c
  | None =>
      match rest with
      | x :: rest' => search_from r (x :: bef) rest'
      | [] => None
      end
  end.

(** [String.prototype.match] with a pattern that has no [g] flag: the
    captures of the leftmost match, or [None] for [null]. *)
Definition rsearch (r : regex) (s : jstr) : option caps := search_from r [] s.

(** [m[i]] of a match result; [None] stands for [undefined]. *)
Fixpoint group (i : nat) (c : caps) : option jstr :=
  match c with
  | (j, s) :: c' => if Nat.eqb i j then Some s else group i c'
  | [] => None
  end.

Declare Scope regex_scope.
Delimit Scope regex_scope with re.
Infix "@@" := Cat (at level 60, right associativity) : regex_scope.

(** [cons_head c l] puts [c] in front of the first string of [l]. *)
Definition cons_head (c : N) (l : list jstr) : list jstr :=
  match l with
  | x :: l' => (c :: x) :: l'
  | [] => [[c]]
  end.

(** [s.split(/\r?\n/)]: the pieces between the leftmost successive
    separators; the result is never empty. *)
Fixpoint split_lines (s : jstr) : list jstr :=
  match s with
  | [] => [[]]
  | c :: s' =>
      if N.eqb c 10 then [] :: split_lines s'
      else
        match s' with
        | d :: s'' =>
            if N.eqb c 13 && N.eqb d 10 then [] :: split_lines s''
            else cons_head c (split_lines s')
        | [] => cons_head c (split_lines s')
        end
  end.

End Js.

(** ** Backend/stockfish-engine.js *)
Module Engine.
Import Js.
Local Open Scope regex_scope.

(** *** What the adapter sees of its host *)

(** The environment variable, the default location (which depends on
    [__dirname]), the file-existence test of the file system, and Node's
    [path.basename] for the platform. *)
Record host := {
  env_STOCKFISH_PATH : option jstr;
  DEFAULT_ENGINE_PATH : jstr;
  existsSync : jstr -> bool;
  basename : jstr -> jstr
}.

Definition STOCKFISH_WINDOWS_URL : jstr :=
  str "https://github.com/official-stockfish/Stockfish/releases/download/sf_17.1/stockfish-windows-x86-64.zip".

(** A JSON value as delivered by the body parser. *)
#[warnings="-register-all"]
Inductive json :=
| JNull
| JBool (b : bool)
| JNum (z : Z)
| JStr (s : jstr)
| JArr (l : list json)
| JObj.

(** ToString of a value; an array prints its elements comma-separated, with
    [null] elements empty.  Strings, which are what a move list holds, print
    as themselves; an object is printed as a plain one, without a [toString]
    or [valueOf] property of its own. *)
Fixpoint json_toString (v : json) : jstr :=
  match v with
  | JNull => str "null"
  | JBool b => if b then str "true" else str "false"
  | JNum z => int_toString z
  | JStr s => s
  | JArr l =>
      join (str ",")
        (map (fun e => match e with JNull => [] | _ => json_toString e end) l)
  | JObj => str "[object Object]"
  end.

(** [arr.join(sep)] on an array of values. *)
Definition array_join (sep : jstr) (l : list json) : jstr :=
  join sep (map (fun e => match e with JNull => [] | _ => json_toString e end) l).

Record score := {
  type : jstr;
  value : number;
  display : jstr
}.

Module Result.
(** The object passed to [resolve]; [None] stands for [null]. *)
Record t := {
  bestmove : option jstr;
  ponder : option jstr;
  evaluation : option score;
  depth : option number;
  nodes : option number;
  pv : option jstr
}.
End Result.

(** The parameter of [analyzePosition] after its defaults are applied;
    [depth = None] is [undefined]. *)
Record request := {
  fen : jstr;
  moves : list json;
  depth : option Z;
  movetime : Z
}.

(** Everything the adapter does to the outside, in program order. *)
Inductive effect :=
| FsExists (p : jstr)
| Spawn (p : jstr)
| SetTimeout (ms : Z)
| ClearTimeout
| RemoveListeners
| StdinWrite (s : jstr)
| Kill
| Resolve (p : Result.t)
| Reject (msg : jstr).

(** *** Engine locator *)

Definition resolveEnginePath (h : host) : jstr :=
  match env_STOCKFISH_PATH h with
  | Some (c :: p) => c :: p
  | _ => DEFAULT_ENGINE_PATH h
  end.

Record status := {
  available : bool;
  enginePath : jstr;
  downloadUrl : jstr
}.

Definition getEngineStatus (h : host) : status * list effect :=
  let enginePath := resolveEnginePath h in
  ({| available := existsSync h enginePath;
      enginePath := enginePath;
      downloadUrl := STOCKFISH_WINDOWS_URL |},
   [FsExists enginePath]).

(** *** Score parsing *)

(** [m[i]] used as a string. *)
Definition captured (i : nat) (m : caps) : jstr :=
  match group i m with
  | Some s => s
  | None => str "undefined"
  end.

(** [/\bscore\s+(cp|mate)\s+(-?\d+)/] *)
Definition score_re : regex :=
  WordB @@ Lit (str "score") @@ Plus is_space
    @@ Grp 1 (Alt (Lit (str "cp")) (Lit (str "mate")))
    @@ Plus is_space @@ Grp 2 (Opt (Lit (str "-")) @@ Plus is_digit).

Definition parseScore (line : jstr) : option score :=
  match rsearch score_re line with
  | None => None
  | Some scoreMatch =>
      let type := captured 1 scoreMatch in
      let value := parseInt (captured 2 scoreMatch) in
      let display :=
        if jstr_eqb type (str "cp") then
          let pawns := toFixed 2 (div value 100) in
          (if geq0 value then str "+" else []) ++ pawns
        else str "M" ++ toString value in
      Some {| type := type; value := value; display := display |}
  end.

(** *** The session: the closure variables of [analyzePosition]

    [timeoutPending] holds while the timer has neither fired nor been
    cleared; [listening] holds while the data listeners of stdout and
    stderr are attached. *)
Record session := {
  resolved : bool;
  buffer : jstr;
  latestScore : option score;
  latestDepth : option number;
  latestNodes : option number;
  latestPv : option jstr;
  timeoutPending : bool;
  listening : bool
}.

Definition set_resolved (b : bool) (s : session) : session :=
  {| resolved := b; buffer := buffer s; latestScore := latestScore s;
     latestDepth := latestDepth s; latestNodes := latestNodes s;
     latestPv := latestPv s; timeoutPending := timeoutPending s;
     listening := listening s |}.

Definition set_buffer (b : jstr) (s : session) : session :=
  {| resolved := resolved s; buffer := b; latestScore := latestScore s;
     latestDepth := latestDepth s; latestNodes := latestNodes s;
     latestPv := latestPv s; timeoutPending := timeoutPending s;
     listening := listening s |}.

Definition set_latestScore (v : option score) (s : session) : session :=
  {| resolved := resolved s; buffer := buffer s; latestScore := v;
     latestDepth := latestDepth s; latestNodes := latestNodes s;
     latestPv := latestPv s; timeoutPending := timeoutPending s;
     listening := listening s |}.

Definition set_latestDepth (v : option number) (s : session) : session :=
  {| resolved := resolved s; buffer := buffer s; latestScore := latestScore s;
     latestDepth := v; latestNodes := latestNodes s;
     latestPv := latestPv s; timeoutPending := timeoutPending s;
     listening := listening s |}.

Definition set_latestNodes (v : option number) (s : session) : session :=
  {| resolved := resolved s; buffer := buffer s; latestScore := latestScore s;
     latestDepth := latestDepth s; latestNodes := v;
     latestPv := latestPv s; timeoutPending := timeoutPending s;
     listening := listening s |}.

Definition set_latestPv (v : option jstr) (s : session) : session :=
  {| resolved := resolved s; buffer := buffer s; latestScore := latestScore s;
     latestDepth := latestDepth s; latestNodes := latestNodes s;
     latestPv := v; timeoutPending := timeoutPending s;
     listening := listening s |}.

Definition set_timeoutPending (b : bool) (s : session) : session :=
  {| resolved := resolved s; buffer := buffer s; latestScore := latestScore s;
     latestDepth := latestDepth s; latestNodes := latestNodes s;
     latestPv := latestPv s; timeoutPending := b;
     listening := listening s |}.

Definition set_listening (b : bool) (s : session) : session :=
  {| resolved := resolved s; buffer := buffer s; latestScore := latestScore s;
     latestDepth := latestDepth s; latestNodes := latestNodes s;
     latestPv := latestPv s; timeoutPending := timeoutPending s;
     listening := b |}.

(** *** Callbacks as actions on the session *)

Definition act := session -> session * list effect.

Definition skip : act := fun s => (s, []).
Definition emit (e : effect) : act := fun s => (s, [e]).
Definition modify (f : session -> session) : act := fun s => (f s, []).

Definition seq (a b : act) : act :=
  fun s =>
    let '(s1, e1) := a s in
    let '(s2, e2) := b s1 in
    (s2, e1 ++ e2).

Declare Scope act_scope.
Delimit Scope act_scope with act.
Notation "a ;; b" := (seq a b) (at level 61, right associativity) : act_scope.
Local Open Scope act_scope.

(** [arr.forEach(f)]. *)
Fixpoint forEach {A : Type} (l : list A) (f : A -> act) : act :=
  match l with
  | [] => skip
  | x :: l' => f x ;; forEach l' f
  end.

(** [Math.max(250, movetime + 1500)]; the sum is exact on safe integers. *)
Definition timeoutMs (req : request) : Z := Z.max 250 (movetime req + 1500).

(** The callback given to [setTimeout]. *)
Definition onTimeout : act :=
  fun s =>
    if negb (resolved s) then
      (modify (set_resolved true) ;; emit Kill
         ;; emit (Reject (str "Stockfish timed out."))) s
    else skip s.

Definition cleanup : act :=
  modify (set_timeoutPending false) ;; emit ClearTimeout
    ;; modify (set_listening false) ;; emit RemoveListeners.

Definition finish (payload : Result.t) : act :=
  fun s =>
    if resolved s then skip s
    else
      (modify (set_resolved true) ;; cleanup ;; emit Kill
         ;; emit (Resolve payload)) s.

(** [/\bdepth\s+(\d+)/] *)
Definition depth_re : regex :=
  WordB @@ Lit (str "depth") @@ Plus is_space @@ Grp 1 (Plus is_digit).

(** [/\bnodes\s+(\d+)/] *)
Definition nodes_re : regex :=
  WordB @@ Lit (str "nodes") @@ Plus is_space @@ Grp 1 (Plus is_digit).

(** [/\bpv\s+(.+)$/] *)
Definition pv_re : regex :=
  WordB @@ Lit (str "pv") @@ Plus is_space @@ Grp 1 (Plus dot) @@ Eol.

(** [/^bestmove\s+(\S+)(?:\s+ponder\s+(\S+))?/] *)
Definition bestmove_re : regex :=
  Bol @@ Lit (str "bestmove") @@ Plus is_space @@ Grp 1 (Plus not_space)
    @@ Opt (Plus is_space @@ Lit (str "ponder") @@ Plus is_space
              @@ Grp 2 (Plus not_space)).

(** The clause appended to the position command. *)
Definition moveList (req : request) : jstr :=
  match moves req with
  | [] => []
  | _ :: _ => str " moves " ++ array_join (str " ") (moves req)
  end.

Definition positionCommand (req : request) : jstr :=
  if jstr_eqb (fen req) (str "startpos")
  then str "position startpos" ++ moveList req ++ LF
  else str "position fen " ++ fen req ++ moveList req ++ LF.

(** [if (depth)]: [undefined] and [0] are falsy. *)
Definition goCommand (req : request) : jstr :=
  match depth req with
  | Some d =>
      if d =? 0 then str "go movetime " ++ int_toString (movetime req) ++ LF
      else str "go depth " ++ int_toString d ++ LF
  | None => str "go movetime " ++ int_toString (movetime req) ++ LF
  end.

(** The four independent scans of an [info] line. *)
Definition scanInfo (line : jstr) : act :=
  (fun s =>
     match parseScore line with
     | Some score => modify (set_latestScore (Some score)) s
     | None => skip s
     end)
  ;; (fun s =>
        match rsearch depth_re line with
        | Some depthMatch =>
            modify (set_latestDepth (Some (parseInt (captured 1 depthMatch)))) s
        | None => skip s
        end)
  ;; (fun s =>
        match rsearch nodes_re line with
        | Some nodesMatch =>
            modify (set_latestNodes (Some (parseInt (captured 1 nodesMatch)))) s
        | None => skip s
        end)
  ;; (fun s =>
        match rsearch pv_re line with
        | Some pvMatch => modify (set_latestPv (Some (captured 1 pvMatch))) s
        | None => skip s
        end).

(** The object built on a [bestmove] line from the match and the fields
    accumulated so far. *)
Definition bestmovePayload (line : jstr) (s : session) : Result.t :=
  let match_ := rsearch bestmove_re line in
  {| Result.bestmove :=
       match match_ with Some m => group 1 m | None => None end;
     Result.ponder :=
       match match_ with
       | Some m =>
           match group 2 m with
           | Some (c :: p) => Some (c :: p)
           | _ => None
           end
       | None => None
       end;
     Result.evaluation := latestScore s;
     Result.depth := latestDepth s;
     Result.nodes := latestNodes s;
     Result.pv := latestPv s |}.

Definition handleLine (req : request) (line : jstr) : act :=
  fun s =>
    match line with
    | [] => skip s
    | _ :: _ =>
        if jstr_eqb line (str "uciok") then
          emit (StdinWrite (str "isready" ++ LF)) s
        else if jstr_eqb line (str "readyok") then
          (emit (StdinWrite (positionCommand req))
             ;; emit (StdinWrite (goCommand req))) s
        else if startsWith line (str "info") then scanInfo line s
        else if startsWith line (str "bestmove") then
          finish (bestmovePayload line s) s
        else skip s
    end.

(** The [data] listener of stdout. *)
Definition onStdoutData (req : request) (chunk : jstr) : act :=
  fun s =>
    let lines := split_lines (buffer s ++ chunk) in
    (modify (set_buffer (last lines []))
       ;; forEach (removelast lines) (fun line => handleLine req (trim line))) s.

(** The [data] listener of stderr. *)
Definition onStderrData (chunk : jstr) : act :=
  fun s =>
    let message := trim chunk in
    match message with
    | _ :: _ =>
        if negb (resolved s) then
          (modify (set_resolved true) ;; cleanup ;; emit Kill
             ;; emit (Reject message)) s
        else skip s
    | [] => skip s
    end.

(** The [error] listener of the child process; the error is represented by
    its message. *)
Definition onError (error : jstr) : act :=
  fun s =>
    if negb (resolved s) then
      (modify (set_resolved true) ;; cleanup ;; emit (Reject error)) s
    else skip s.

(** *** The event loop *)

(** The events of a session.  A data event carries the text that
    [chunk.toString()] returns for its chunk. *)
Inductive event :=
| StdoutData (chunk : jstr)
| StderrData (chunk : jstr)
| ProcessError (error : jstr)
| TimeoutFired.

(** A data event reaches its listener only while the listener is attached;
    the timer fires at most once, and not after [clearTimeout]. *)
Definition deliver (req : request) (ev : event) : act :=
  fun s =>
    match ev with
    | StdoutData chunk => if listening s then onStdoutData req chunk s else skip s
    | StderrData chunk => if listening s then onStderrData chunk s else skip s
    | ProcessError error => onError error s
    | TimeoutFired =>
        if timeoutPending s
        then (modify (set_timeoutPending false) ;; onTimeout) s
        else skip s
    end.

Definition run (req : request) (evs : list event) : act :=
  forEach evs (deliver req).

Definition initial : session :=
  {| resolved := false; buffer := []; latestScore := None;
     latestDepth := None; latestNodes := None; latestPv := None;
     timeoutPending := true; listening := true |}.

Definition notFoundMessage : jstr :=
  str "Stockfish engine not found. Download it or set STOCKFISH_PATH.".

(** The executor of the promise: [None] when no process was started. *)
Definition analyzePosition (h : host) (req : request)
  : option session * list effect :=
  let '(st, fx) := getEngineStatus h in
  if negb (available st) then (None, fx ++ [Reject notFoundMessage])
  else
    (Some initial,
     fx ++ [Spawn (enginePath st); SetTimeout (timeoutMs req);
            StdinWrite (str "uci" ++ LF)]).

(** The whole life of one call: the executor, then the events. *)
Definition analysis (h : host) (req : request) (evs : list event)
  : list effect :=
  match analyzePosition h req with
  | (Some s, fx) => fx ++ snd (run req evs s)
  | (None, fx) => fx
  end.

(** The settlements ([resolve] or [reject] calls) among the effects. *)
Definition is_outcome (e : effect) : bool :=
  match e with
  | Resolve _ | Reject _ => true
  | _ => false
  end.

Definition outcomes (fx : list effect) : list effect := filter is_outcome fx.

Definition is_spawn (e : effect) : bool :=
  match e with Spawn _ => true | _ => false end.

Definition is_kill (e : effect) : bool :=
  match e with Kill => true | _ => false end.

End Engine.

(** ** Backend/server.js: the two engine routes *)
Module Server.
Import Js Engine.

(** [req.body]: each field is a JSON value or absent. *)
Record body := {
  body_fen : option json;
  body_moves : option json;
  body_depth : option json;
  body_movetime : option json
}.

Definition emptyBody : body :=
  {| body_fen := None; body_moves := None; body_depth := None;
     body_movetime := None |}.

(** The argument the analyze route builds for [analyzePosition] from
    [req.body || {}]. *)
Definition normalize (b : option body) : request :=
  let b := match b with Some b => b | None => emptyBody end in
  {| fen :=
       match body_fen b with
       | Some (JStr fen) =>
           match trim fen with
           | [] => str "startpos"
           | c :: t => c :: t
           end
       | _ => str "startpos"
       end;
     moves := match body_moves b with Some (JArr l) => l | _ => [] end;
     depth := match body_depth b with Some (JNum d) => Some d | _ => None end;
     movetime :=
       match body_movetime b with Some (JNum t) => t | _ => 600 end |}.

Inductive reply :=
| ResultReply (result : Result.t)
| ErrorReply (error : jstr)
| StatusReply (available : bool) (enginePath : option jstr) (downloadUrl : jstr).

Record response := {
  code : Z;
  content : reply
}.

(** The settlement an [await] observes: the first [resolve] or [reject]. *)
Definition settlement (fx : list effect) : option effect := head (outcomes fx).

(** [app.post('/api/engine/analyze')]: the response, if the promise ever
    settles, and the effects of the call. *)
Definition analyzeRoute (h : host) (b : option body) (evs : list event)
  : option response * list effect :=
  let fx := analysis h (normalize b) evs in
  (match settlement fx with
   | Some (Resolve result) => Some {| code := 200; content := ResultReply result |}
   | Some (Reject message) => Some {| code := 503; content := ErrorReply message |}
   | _ => None
   end, fx).

(** [app.get('/api/engine/status')]. *)
Definition statusRoute (h : host) : response * list effect :=
  let '(status, fx) := getEngineStatus h in
  ({| code := 200;
      content :=
        StatusReply (available status)
          (if available status then Some (basename h (enginePath status))
           else None)
          (downloadUrl status) |}, fx).

End Server.

(** ** Frontend/src/App.jsx: the helpers between the board and the engine *)
Module Frontend.
Import Js Engine Server.

(** [engineLevels]: key, label and movetime. *)
Definition engineLevels : list (jstr * (jstr * Z)) :=
  [ (str "mild", (str "Mild", 400));
    (str "medium", (str "Medium", 900));
    (str "aged", (str "Aged", 1400)) ].

(** Property lookup in an object literal. A key the literal does not
    define finds nothing or an inherited property, which has no
    [movetime]; both end in the default of [levelMovetime]. *)
Fixpoint lookup {A : Type} (key : jstr) (table : list (jstr * A)) : option A :=
  match table with
  | [] => None
  | (k, v) :: table' => if jstr_eqb key k then Some v else lookup key table'
  end.

(** [engineLevels[engineLevel]?.movetime || 900] *)
Definition levelMovetime (engineLevel : jstr) : Z :=
  match lookup engineLevel engineLevels with
  | Some (_, movetime) => if movetime =? 0 then 900 else movetime
  | None => 900
  end.

(** The body that [requestMove] and [handleAnalyze] post to the analyze
    route. *)
Definition analyzeBody (fen engineLevel : jstr) : body :=
  {| body_fen := Some (JStr fen);
     body_moves := None;
     body_depth := None;
     body_movetime := Some (JNum (levelMovetime engineLevel)) |}.

(** [s.slice(a, b)] for [0 <= a <= b]. *)
Definition slice (a b : nat) (s : jstr) : jstr := firstn (b - a) (skipn a s).

Record uciMove := {
  from : jstr;
  to : jstr;
  promotion : option jstr
}.

(** [parseUciMove]; the argument is [payload.bestmove], a string or null. *)
Definition parseUciMove (uci : option jstr) : option uciMove :=
  match uci with
  | None => None
  | Some [] => None
  | Some (c :: u) =>
      if jstr_eqb (c :: u) (str "(none)") || (length (c :: u) <? 4)%nat
      then None
      else
        Some {| from := slice 0 2 (c :: u);
                to := slice 2 4 (c :: u);
                promotion :=
                  if (4 <? length (c :: u))%nat
                  then Some [nth 4 (c :: u) 0%N]
                  else None |}
  end.

(** The [i += 2] loop of [buildMoveLines], from index [i] on the rest of
    the history. *)
Fixpoint buildMoveLinesFrom (i : Z) (history : list jstr) : list jstr :=
  match history with
  | [] => []
  | whiteMove :: rest =>
      let turn := i / 2 + 1 in
      match rest with
      | [] => [trim (int_toString turn ++ str ". " ++ whiteMove)]
      | blackMove :: rest' =>
          let line :=
            match blackMove with
            | _ :: _ =>
                int_toString turn ++ str ". " ++ whiteMove ++ str " " ++ blackMove
            | [] => int_toString turn ++ str ". " ++ whiteMove
            end in
          trim line :: buildMoveLinesFrom (i + 2) rest'
      end
  end.

Definition buildMoveLines (history : list jstr) : list jstr :=
  buildMoveLinesFrom 0 history.

(** [n] code units of [padString] repeated. *)
Fixpoint filler (n : nat) (padString cur : jstr) : jstr :=
  match n with
  | O => []
  | S n' =>
      match cur with
      | c :: cur' => c :: filler n' padString cur'
      | [] =>
          match padString with
          | c :: pad' => c :: filler n' padString pad'
          | [] => []
          end
      end
  end.

(** [s.padStart(targetLength, padString)]. *)
Definition padStart (targetLength : nat) (padString s : jstr) : jstr :=
  if (length s <? targetLength)%nat
  then filler (targetLength - length s) padString padString ++ s
  else s.

(** [formatTime] on a whole number of seconds. *)
Definition formatTime (seconds : Z) : jstr :=
  let safeSeconds := Z.max seconds 0 in
  let minutes := safeSeconds / 60 in
  let remainder := Z.rem safeSeconds 60 in
  int_toString minutes ++ str ":" ++ padStart 2 (str "0") (int_toString remainder).

(** [x > 0] and [Math.abs(x)] on numbers. *)
Definition gt0 (v : number) : bool :=
  match v with
  | Int z => 0 <? z
  | NaN => false
  end.

Definition Math_abs (v : number) : number :=
  match v with
  | Int z => Int (Z.abs z)
  | NaN => NaN
  end.

(** [formatEvaluation]; [None] is a missing evaluation. *)
Definition formatEvaluation (evaluation : option score) : jstr :=
  match evaluation with
  | None => str "Awaiting analysis"
  | Some e =>
      if jstr_eqb (type e) (str "mate") then
        str "Mate " ++ (if gt0 (value e) then str "in" else str "for")
          ++ str " " ++ toString (Math_abs (value e))
      else str "Eval " ++ display e
  end.

(** The two state updaters of the clock interval. *)
Definition tickWhite (currentPlayer : jstr) (prev : Z) : Z :=
  if jstr_eqb currentPlayer (str "white") then Z.max (prev - 1) 0 else prev.

Definition tickBlack (currentPlayer : jstr) (prev : Z) : Z :=
  if jstr_eqb currentPlayer (str "black") then Z.max (prev - 1) 0 else prev.

End Frontend.

(** ** Vocabulary of the statements *)
Module Spec.
Import Js Engine.

(** The lines a stdout stream hands to [handleLine]: every complete line,
    trimmed. *)
Definition dispatched (stream : jstr) : list jstr :=
  map trim (removelast (split_lines stream)).


Definition depthField (line : jstr) : option number :=
  option_map (fun m => parseInt (captured 1 m)) (rsearch depth_re line).

Definition nodesField (line : jstr) : option number :=
  option_map (fun m => parseInt (captured 1 m)) (rsearch nodes_re line).

Definition pvField (line : jstr) : option jstr :=
  option_map (captured 1) (rsearch pv_re line).

(** [v / 100] written with two decimals: the integer part of [|v| / 100],
    a point, and the two digits of [|v| mod 100], after a minus sign when
    [v] is negative. *)
Definition two_decimals (v : Z) : jstr :=
  let a := Z.abs_N v in
  (if v <? 0 then str "-" else [])
    ++ dec (a / 100) ++ str "."
    ++ [digit_char ((a / 10) mod 10); digit_char (a mod 10)].

Definition all_space (s : jstr) : Prop :=
  s <> [] /\ Forall (fun c => is_space c = true) s.

(** The text of an integer as the score pattern reads it: an optional
    minus sign and at least one digit. *)
Definition integer_text (num : jstr) : Prop :=
  exists sign d ds,
    num = sign ++ d :: ds
    /\ (sign = [] \/ sign = str "-")
    /\ Forall (fun c => is_digit c = true) (d :: ds).

(** The integer that an [integer_text] writes. *)
Definition number_written (num : jstr) : Z :=
  match num with
  | c :: digits =>
      if N.eqb c 45 then - digits_value 0 digits else digits_value 0 num
  | [] => 0
  end.

(** After [pre] the line has a score field of kind [ty] with number text
    [num]: the word [score] at a word boundary, white space, [cp] or
    [mate], white space, and the number, all of its digits. *)
Definition score_field_at (pre line ty num : jstr) : Prop :=
  exists ws1 ws2 post,
    line = pre ++ str "score" ++ ws1 ++ ty ++ ws2 ++ num ++ post
    /\ word_before (rev pre) = false
    /\ all_space ws1 /\ all_space ws2
    /\ (ty = str "cp" \/ ty = str "mate")
    /\ integer_text num
    /\ starts_with_digit post = false.

Definition score_field (line ty num : jstr) : Prop :=
  exists pre, score_field_at pre line ty num.

(** The score field that no other score field of the line starts before. *)
Definition first_score_field (line ty num : jstr) : Prop :=
  exists pre,
    score_field_at pre line ty num
    /\ forall pre' ty' num',
         score_field_at pre' line ty' num' -> (length pre <= length pre')%nat.

(** After [pre] the line has a count field with keyword [kw]: the keyword
    at a word boundary, white space, and a number, all of its digits. *)
Definition count_field_at (kw pre line digits : jstr) : Prop :=
  exists ws post,
    line = pre ++ kw ++ ws ++ digits ++ post
    /\ word_before (rev pre) = false
    /\ all_space ws
    /\ digits <> []
    /\ Forall (fun c => is_digit c = true) digits
    /\ starts_with_digit post = false.

(** The count field with keyword [kw] that no other one starts before. *)
Definition first_count_field (kw line digits : jstr) : Prop :=
  exists pre,
    count_field_at kw pre line digits
    /\ forall pre' digits',
         count_field_at kw pre' line digits' -> (length pre <= length pre')%nat.

(** The largest centipawn value, 100 * 2^46, up to which [value / 100]
    computed on doubles has the hundredths of the exact quotient; it is a
    safe integer. *)
Definition MAX_SCORE : Z := 7036874417766400.

(** The largest delay of a Node timer, 2^31 - 1 milliseconds. *)
Definition TIMEOUT_MAX : Z := 2147483647.

(** The numbers of a request are safe integers. *)
Definition safe_numbers (req : request) : bool :=
  isSafeInteger (movetime req)
  && match depth req with
     | Some d => isSafeInteger d
     | None => true
     end.



(** The stdout listener applied to each chunk in turn. *)
Definition feed (req : request) (chunks : list jstr) : act :=
  forEach chunks (onStdoutData req).

(** An action settles at most once: from a resolved session it settles
    nothing and leaves the flag set; from an unresolved one it either
    settles nothing and leaves the flag clear, or settles exactly once and
    sets the flag. *)
Definition settles_once (a : act) : Prop :=
  forall s,
    (resolved s = true ->
       outcomes (snd (a s)) = [] /\ resolved (fst (a s)) = true)
    /\ (resolved s = false ->
          (outcomes (snd (a s)) = [] /\ resolved (fst (a s)) = false)
          \/ (length (outcomes (snd (a s))) = 1%nat
              /\ resolved (fst (a s)) = true)).

(** While a session is unresolved its listeners are attached and its timer
    is pending. *)
Definition attached (s : session) : Prop :=
  resolved s = false -> listening s = true /\ timeoutPending s = true.

Definition keeps_attached (a : act) : Prop :=
  forall s, attached s -> attached (fst (a s)).




Definition not_bestmove (line : jstr) : Prop :=
  startsWith line (str "bestmove") = false.

(** An action that neither reads nor writes the line buffer. *)
Definition ignores_buffer (a : act) : Prop :=
  forall b s, a (set_buffer b s) = (set_buffer b (fst (a s)), snd (a s)).

(** The [engine.kill()] calls and the stdin writes among the effects. *)
Definition kills (fx : list effect) : list effect := filter is_kill fx.

Definition is_write (e : effect) : bool :=
  match e with StdinWrite _ => true | _ => false end.

Definition writes (fx : list effect) : list effect := filter is_write fx.

(** What the adapter writes back on a line. *)
Definition replies (req : request) (line : jstr) : list effect :=
  if jstr_eqb line (str "uciok") then [StdinWrite (str "isready" ++ LF)]
  else if jstr_eqb line (str "readyok") then
    [StdinWrite (positionCommand req); StdinWrite (goCommand req)]
  else [].

(** The lines that mean something to the adapter. *)
Definition is_protocol_line (line : jstr) : bool :=
  jstr_eqb line (str "uciok") || jstr_eqb line (str "readyok")
  || startsWith line (str "info") || startsWith line (str "bestmove").

Definition lf_free (s : jstr) : Prop := Forall (fun c => c <> 10%N) s.

(** An action kills only when it settles, and always before it resolves. *)
Definition kills_when_settling (a : act) : Prop :=
  forall s,
    (length (kills (snd (a s))) <= length (outcomes (snd (a s))))%nat
    /\ (forall p, In (Resolve p) (snd (a s)) -> In Kill (snd (a s))).

(** Once the listeners are detached the session is resolved and its timer
    is gone. *)
Definition sealed (s : session) : Prop :=
  listening s = false -> resolved s = true /\ timeoutPending s = false.

Definition keeps_sealed (a : act) : Prop :=
  forall s, sealed s -> sealed (fst (a s)).


Definition timeoutMessage : jstr := str "Stockfish timed out.".

(** An action never attaches a listener again, and when it settles an
    unresolved session and leaves the listeners attached, the settlement is
    the timeout rejection. *)
Definition attached_only_after_timeout (a : act) : Prop :=
  forall s,
    (listening (fst (a s)) = true -> listening s = true)
    /\ (resolved s = false -> resolved (fst (a s)) = true ->
        listening (fst (a s)) = true ->
        outcomes (snd (a s)) = [Reject timeoutMessage]).

(** A non-empty text without white space. *)
Definition token (t : jstr) : Prop :=
  t <> [] /\ Forall (fun c => is_space c = false) t.

(** What follows a token: nothing, or white space. *)
Definition token_ends (rest : jstr) : bool :=
  match rest with
  | c :: _ => is_space c
  | [] => true
  end.

End Spec.

(** ** Concrete hosts, requests and streams used to exercise the statements *)
Module Samples.
Import Js Engine Server.

Definition absentHost : host :=
  {| env_STOCKFISH_PATH := None;
     DEFAULT_ENGINE_PATH := str "C:\app\Backend\bin\stockfish.exe";
     existsSync := fun _ => false;
     basename := fun p => p |}.

Definition installedHost : host :=
  {| env_STOCKFISH_PATH := Some (str "/opt/stockfish/stockfish");
     DEFAULT_ENGINE_PATH := str "/srv/Backend/bin/stockfish.exe";
     existsSync := fun p => jstr_eqb p (str "/opt/stockfish/stockfish");
     basename := fun _ => str "stockfish" |}.

Definition sampleRequest : request :=
  {| fen := str "startpos";
     moves := [JStr (str "e2e4"); JStr (str "e7e5")];
     depth := Some 12;
     movetime := 600 |}.

Definition depthZeroRequest : request :=
  {| fen := str "startpos"; moves := []; depth := Some 0; movetime := 600 |}.

Definition fenRequest : request :=
  {| fen := str "8/8/8/8/8/8/8/K6k w - - 0 1";
     moves := [];
     depth := None;
     movetime := 50 |}.



(** A stream whose last line never completes. *)
Definition stalledChunks : list jstr :=
  [ str "uciok" ++ LF ++ str "readyok" ++ LF;
    str "info depth 1 score cp 10" ++ LF ++ str "bestmo" ].

(** A session in which the handshake and one info line have been seen. *)
Definition searchingEvents : list event :=
  [ StdoutData (str "uciok" ++ LF ++ str "readyok" ++ LF);
    StdoutData (str "info depth 7 score mate 3 nodes 99 pv h5f7" ++ LF) ].

(** The session after a complete search. *)
Definition finishedEvents : list event :=
  searchingEvents ++ [StdoutData (str "bestmove h5f7" ++ LF)].

End Samples.

(* ================================================================== *)
(** * Part II: properties                                              *)
(* ================================================================== *)

Import Js Engine Server Frontend Spec Samples.
Local Open Scope act_scope.

(** ** Strings *)
Section Strings.

Lemma jstr_eqb_eq (a b : jstr) : jstr_eqb a b = true <-> a = b.
Proof.
  revert b; induction a as [|x a IH]; intros [|y b]; simpl;
    try (split; [discriminate|discriminate]); [tauto|].
  rewrite andb_true_iff, N.eqb_eq, IH.
  split; [intros [-> ->]; reflexivity | intros [= -> ->]; auto].
Qed.

Lemma jstr_eqb_refl (a : jstr) : jstr_eqb a a = true.
Proof. apply jstr_eqb_eq; reflexivity. Qed.

Lemma jstr_eqb_neq (a b : jstr) : a <> b -> jstr_eqb a b = false.
Proof.
  intros H; destruct (jstr_eqb a b) eqn:E; [|reflexivity].
  apply jstr_eqb_eq in E; contradiction.
Qed.

Lemma strip_prefix_Some (p s r : jstr) : strip_prefix p s = Some r -> s = p ++ r.
Proof.
  revert s; induction p as [|x p IH]; intros s; simpl.
  - intros [= ->]; reflexivity.
  - destruct s as [|y s]; [discriminate|].
    destruct (N.eqb_spec x y) as [->|]; [|discriminate].
    intros H; rewrite (IH _ H); reflexivity.
Qed.

Lemma strip_prefix_app (p s : jstr) : strip_prefix p (p ++ s) = Some s.
Proof.
  induction p as [|x p IH]; simpl; [reflexivity|].
  rewrite N.eqb_refl; exact IH.
Qed.

Lemma startsWith_app (s p : jstr) : startsWith s p = true -> exists r, s = p ++ r.
Proof.
  unfold startsWith; destruct (strip_prefix p s) as [r|] eqn:E; [|discriminate].
  intros _; exists r; apply strip_prefix_Some; exact E.
Qed.

End Strings.

(** ** The engine locator and the routes *)

(** C9: the status operation reports whether the resolved engine path exists
    on disk together with the download URL, its only effect is the
    existence test (no process is spawned), and the status route answers
    with the basename of the path when the engine is available and with
    null otherwise. *)
Theorem C9_status_reports_existence : forall h : host,
  getEngineStatus h
    = ({| available := existsSync h (resolveEnginePath h);
          enginePath := resolveEnginePath h;
          downloadUrl := STOCKFISH_WINDOWS_URL |},
       [FsExists (resolveEnginePath h)])
  /\ filter is_spawn (snd (getEngineStatus h)) = []
  /\ statusRoute h
     = ({| code := 200;
           content :=
             StatusReply (existsSync h (resolveEnginePath h))
               (if existsSync h (resolveEnginePath h)
                then Some (basename h (resolveEnginePath h)) else None)
               STOCKFISH_WINDOWS_URL |},
        [FsExists (resolveEnginePath h)]).
Proof.
  intros h; repeat split.
Qed.

(** C7: when the engine binary does not exist at the resolved path, the
    driver rejects with the engine-not-found error without spawning a
    process, whatever happens afterwards, and the analyze route answers 503
    with that error message. *)
Theorem C7_engine_not_found :
  forall (h : host) (req : request) (b : option body) (evs : list event),
    existsSync h (resolveEnginePath h) = false ->
    analyzePosition h req
      = (None, [FsExists (resolveEnginePath h); Reject notFoundMessage])
    /\ filter is_spawn (analysis h req evs) = []
    /\ fst (analyzeRoute h b evs)
       = Some {| code := 503; content := ErrorReply notFoundMessage |}
    /\ filter is_spawn (snd (analyzeRoute h b evs)) = [].
Proof.
  intros h req b evs H.
  assert (E : forall r, analyzePosition h r
                = (None, [FsExists (resolveEnginePath h); Reject notFoundMessage])).
  { intros r; unfold analyzePosition, getEngineStatus; simpl.
    rewrite H; reflexivity. }
  assert (A : forall r, analysis h r evs
                = [FsExists (resolveEnginePath h); Reject notFoundMessage]).
  { intros r; unfold analysis; rewrite E; reflexivity. }
  split; [apply E|].
  split; [rewrite A; reflexivity|].
  unfold analyzeRoute; simpl; rewrite A; split; reflexivity.
Qed.

Lemma C7_engine_not_found_witness :
  analyzePosition absentHost sampleRequest
    = (None, [FsExists (resolveEnginePath absentHost); Reject notFoundMessage])
  /\ filter is_spawn (analysis absentHost sampleRequest [TimeoutFired]) = []
  /\ fst (analyzeRoute absentHost None [TimeoutFired])
     = Some {| code := 503; content := ErrorReply notFoundMessage |}
  /\ filter is_spawn (snd (analyzeRoute absentHost None [TimeoutFired])) = [].
Proof.
  apply (C7_engine_not_found absentHost sampleRequest None [TimeoutFired]).
  reflexivity.
Defined.

(** ** Commands written on [readyok] *)

Lemma handleLine_readyok (req : request) (s : session) :
  handleLine req (str "readyok") s
    = (s, [StdinWrite (positionCommand req); StdinWrite (goCommand req)]).
Proof. reflexivity. Qed.

Lemma array_join_strings (sep : jstr) (tokens : list jstr) :
  array_join sep (map JStr tokens) = join sep tokens.
Proof.
  unfold array_join; rewrite map_map; simpl.
  rewrite map_id; reflexivity.
Qed.

(** C4, as stated, fails: a request that supplies depth 0 gets a movetime
    search, not [go depth 0]. *)
Lemma C4_counterexample_depth_zero :
  depth depthZeroRequest = Some 0
  /\ snd (handleLine depthZeroRequest (str "readyok") initial)
     = [StdinWrite (str "position startpos" ++ LF);
        StdinWrite (str "go movetime 600" ++ LF)]
  /\ ~ In (StdinWrite (str "go depth 0" ++ LF))
          (snd (handleLine depthZeroRequest (str "readyok") initial)).
Proof.
  split; [reflexivity|]. split; [reflexivity|].
  simpl; intros [H|[H|[]]]; discriminate H.
Qed.

(** C4 (amended): for a request whose moves are strings and whose depth
    and movetime are safe integers, the search command written after
    readyok, right after the position command, is [go depth <depth>]
    whenever a non-zero depth was supplied, whatever the movetime, and
    [go movetime <movetime>] whenever no depth or depth 0 was supplied, the
    number printed in decimal digits. *)
Theorem C4_go_command :
  forall (req : request) (s : session) (tokens : list jstr),
    moves req = map JStr tokens ->
    safe_numbers req = true ->
    snd (handleLine req (str "readyok") s)
      = [StdinWrite (positionCommand req); StdinWrite (goCommand req)]
    /\ (forall d, depth req = Some d -> d <> 0 ->
          isSafeInteger d = true
          /\ goCommand req = str "go depth " ++ int_toString d ++ LF)
    /\ (depth req = None \/ depth req = Some 0 ->
          isSafeInteger (movetime req) = true
          /\ goCommand req
             = str "go movetime " ++ int_toString (movetime req) ++ LF).
Proof.
  intros req s tokens _ Hsafe.
  unfold safe_numbers in Hsafe; apply andb_true_iff in Hsafe.
  destruct Hsafe as [Hm Hd].
  split; [reflexivity|]; split.
  - intros d E Hnz; rewrite E in Hd; split; [exact Hd|].
    unfold goCommand; rewrite E.
    destruct (Z.eqb_spec d 0); [contradiction|reflexivity].
  - intros [H|H]; (split; [exact Hm|]); unfold goCommand; rewrite H; reflexivity.
Qed.

Lemma C4_go_command_witness :
  snd (handleLine sampleRequest (str "readyok") initial)
    = [StdinWrite (str "position startpos moves e2e4 e7e5" ++ LF);
       StdinWrite (str "go depth 12" ++ LF)]
  /\ goCommand depthZeroRequest = str "go movetime 600" ++ LF.
Proof.
  split.
  - rewrite (proj1 (C4_go_command sampleRequest initial
                      [str "e2e4"; str "e7e5"] eq_refl eq_refl)).
    rewrite (proj2 (proj1 (proj2 (C4_go_command sampleRequest initial
                                    [str "e2e4"; str "e7e5"] eq_refl eq_refl))
                      12 eq_refl ltac:(discriminate))).
    reflexivity.
  - apply (proj2 (proj2 (C4_go_command depthZeroRequest initial [] eq_refl eq_refl))).
    right; reflexivity.
Defined.

(** C6: the position command written after readyok begins
    [position startpos] for the initial layout and [position fen <fen>] for
    an explicit board-state string; with no move tokens nothing follows,
    otherwise [ moves ] and the tokens joined by single spaces, in order. *)
Theorem C6_position_command :
  forall (req : request) (s : session) (tokens : list jstr),
    moves req = map JStr tokens ->
    let head :=
      if jstr_eqb (fen req) (str "startpos") then str "position startpos"
      else str "position fen " ++ fen req in
    nth_error (snd (handleLine req (str "readyok") s)) 0
      = Some (StdinWrite (positionCommand req))
    /\ (fen req = str "startpos" -> head = str "position startpos")
    /\ (fen req <> str "startpos" -> head = str "position fen " ++ fen req)
    /\ (tokens = [] -> positionCommand req = head ++ LF)
    /\ (tokens <> [] ->
          positionCommand req
            = head ++ str " moves " ++ join (str " ") tokens ++ LF).
Proof.
  intros req s tokens Hm head.
  split; [reflexivity|].
  split; [intros E; unfold head; rewrite E; reflexivity|].
  split; [intros Hne; unfold head; rewrite (jstr_eqb_neq _ _ Hne); reflexivity|].
  assert (ML : moveList req
               = match tokens with
                 | [] => []
                 | _ :: _ => str " moves " ++ join (str " ") tokens
                 end).
  { unfold moveList; rewrite Hm.
    destruct tokens as [|t ts]; [reflexivity|].
    change (map JStr (t :: ts)) with (JStr t :: map JStr ts).
    cbv beta iota.
    change (JStr t :: map JStr ts) with (map JStr (t :: ts)).
    rewrite array_join_strings; reflexivity. }
  split.
  - intros ->; unfold positionCommand, head; rewrite ML.
    destruct (jstr_eqb (fen req) (str "startpos")); reflexivity.
  - intros Hne; unfold positionCommand, head; rewrite ML.
    destruct tokens as [|t ts]; [contradiction|].
    destruct (jstr_eqb (fen req) (str "startpos"));
      rewrite <- ?app_assoc; reflexivity.
Qed.

Lemma C6_position_command_witness :
  positionCommand sampleRequest = str "position startpos moves e2e4 e7e5" ++ LF
  /\ positionCommand fenRequest
     = str "position fen 8/8/8/8/8/8/8/K6k w - - 0 1" ++ LF.
Proof.
  split.
  - rewrite (proj2 (proj2 (proj2 (proj2
        (C6_position_command sampleRequest initial
           [str "e2e4"; str "e7e5"] eq_refl))))); [reflexivity|discriminate].
  - rewrite (proj1 (proj2 (proj2 (proj2
        (C6_position_command fenRequest initial [] eq_refl)))));
      reflexivity.
Defined.

(** ** Line framing: [split(/\r?\n/)] over a stream cut into chunks *)
Section Framing.


Lemma split_lines_lf (s : jstr) : split_lines (10%N :: s) = [] :: split_lines s.
Proof. reflexivity. Qed.

Lemma split_lines_crlf (s : jstr) :
  split_lines (13%N :: 10%N :: s) = [] :: split_lines s.
Proof. reflexivity. Qed.

Lemma split_lines_other (c : N) (s : jstr) :
  c <> 10%N ->
  (c = 13%N -> forall s', s <> 10%N :: s') ->
  split_lines (c :: s) = cons_head c (split_lines s).
Proof.
  intros Hc Hcr; simpl.
  destruct (N.eqb_spec c 10); [contradiction|].
  destruct s as [|d s']; [reflexivity|].
  destruct (N.eqb_spec c 13) as [E|]; [|reflexivity].
  destruct (N.eqb_spec d 10) as [->|]; [|reflexivity].
  exfalso; apply (Hcr E s'); reflexivity.
Qed.

Lemma split_lines_nonempty (s : jstr) : split_lines s <> [].
Proof.
  assert (H : forall l c, cons_head c l <> []) by (intros [|x l] c; discriminate).
  destruct s as [|c s]; simpl; [discriminate|].
  destruct (N.eqb c 10); [discriminate|].
  destruct s as [|d s]; [apply H|].
  destruct (N.eqb c 13 && N.eqb d 10); [discriminate|apply H].
Qed.

Lemma split_lines_single_head (d : N) (s p : jstr) :
  split_lines (d :: s) = [p] -> exists p', p = d :: p'.
Proof.
  assert (H : forall l, l <> [] -> cons_head d l = [p] -> exists p', p = d :: p').
  { intros [|x [|y l]] Hl; [contradiction| |discriminate].
    simpl; intros [= <-]; eexists; reflexivity. }
  pose proof (split_lines_nonempty s) as Hs.
  simpl. destruct (N.eqb d 10).
  - intros [= E]; contradiction.
  - destruct s as [|e s']; [apply H; exact Hs|].
    destruct (N.eqb d 13 && N.eqb e 10).
    + intros [= _ E]; exfalso; exact (split_lines_nonempty _ E).
    + apply H; exact Hs.
Qed.

Lemma removelast_cons_ne {A} (x : A) (l : list A) :
  l <> [] -> removelast (x :: l) = x :: removelast l.
Proof. destruct l; [contradiction|reflexivity]. Qed.

Lemma last_cons_ne {A} (x d : A) (l : list A) :
  l <> [] -> last (x :: l) d = last l d.
Proof. destruct l; [contradiction|reflexivity]. Qed.

Lemma last_app_ne {A} (l1 l2 : list A) (d : A) :
  l2 <> [] -> last (l1 ++ l2) d = last l2 d.
Proof.
  intros H; induction l1 as [|x l1 IH]; [reflexivity|].
  simpl app; rewrite last_cons_ne; [exact IH|].
  destruct l1; simpl; [exact H|discriminate].
Qed.

(** Splitting a stream after a prefix: the complete lines of the prefix,
    then the split of its unfinished last line followed by the rest. *)
Lemma split_lines_app (a b : jstr) :
  split_lines (a ++ b)
    = removelast (split_lines a) ++ split_lines (last (split_lines a) [] ++ b).
Proof.
  enough (H : (forall b, split_lines (a ++ b)
                 = removelast (split_lines a)
                     ++ split_lines (last (split_lines a) [] ++ b))
              /\ (forall c b, split_lines ((c :: a) ++ b)
                 = removelast (split_lines (c :: a))
                     ++ split_lines (last (split_lines (c :: a)) [] ++ b)))
    by (apply H).
  clear b; induction a as [|d a [IH0 IH1]].
  - split; [reflexivity|].
    intros c b; simpl app at 1.
    destruct (N.eqb_spec c 10) as [->|Hc]; [reflexivity|].
    rewrite (split_lines_other c []); [reflexivity|exact Hc|discriminate].
  - split; [apply IH1|].
    intros c b.
    destruct (N.eqb_spec c 10) as [->|Hc].
    { change ((10%N :: d :: a) ++ b) with (10%N :: ((d :: a) ++ b)).
      rewrite !split_lines_lf, IH1.
      rewrite removelast_cons_ne, last_cons_ne by apply split_lines_nonempty.
      reflexivity. }
    destruct (N.eqb_spec c 13) as [->|Hr].
    + destruct (N.eqb_spec d 10) as [->|Hd].
      { change ((13%N :: 10%N :: a) ++ b) with (13%N :: 10%N :: (a ++ b)).
        rewrite !split_lines_crlf, IH0.
        rewrite removelast_cons_ne, last_cons_ne by apply split_lines_nonempty.
        reflexivity. }
      change ((13%N :: d :: a) ++ b) with (13%N :: ((d :: a) ++ b)).
      rewrite (split_lines_other 13 ((d :: a) ++ b));
        [|discriminate|intros _ s' [= E _]; contradiction].
      rewrite (split_lines_other 13 (d :: a));
        [|discriminate|intros _ s' [= E _]; contradiction].
      rewrite IH1.
      destruct (split_lines (d :: a)) as [|p [|q X]] eqn:EX.
      * exfalso; exact (split_lines_nonempty _ EX).
      * destruct (split_lines_single_head _ _ _ EX) as [p' ->].
        cbn [cons_head removelast last app].
        rewrite (split_lines_other 13 (d :: p' ++ b));
          [reflexivity|discriminate|intros _ s' [= E _]; contradiction].
      * reflexivity.
    + change ((c :: d :: a) ++ b) with (c :: ((d :: a) ++ b)).
      rewrite (split_lines_other c ((d :: a) ++ b)) by (auto; contradiction).
      rewrite (split_lines_other c (d :: a)) by (auto; contradiction).
      rewrite IH1.
      destruct (split_lines (d :: a)) as [|p [|q X]] eqn:EX.
      * exfalso; exact (split_lines_nonempty _ EX).
      * cbn [cons_head removelast last app].
        rewrite (split_lines_other c (p ++ b)) by (auto; contradiction).
        reflexivity.
      * reflexivity.
Qed.

Lemma dispatched_app (a b : jstr) :
  dispatched (a ++ b)
    = dispatched a ++ dispatched (last (split_lines a) [] ++ b).
Proof.
  unfold dispatched; rewrite split_lines_app.
  rewrite removelast_app by apply split_lines_nonempty.
  apply map_app.
Qed.

Lemma last_split_lines_app (a b : jstr) :
  last (split_lines (a ++ b)) []
    = last (split_lines (last (split_lines a) [] ++ b)) [].
Proof.
  rewrite split_lines_app; apply last_app_ne, split_lines_nonempty.
Qed.

End Framing.

(** ** Actions *)

(** Case analysis along the tests of [handleLine]: the empty line, uciok,
    readyok, an info line, a bestmove line, anything else. *)
Ltac line_cases line :=
  unfold handleLine;
  destruct line as [|?c ?l];
  [|destruct (jstr_eqb (_ :: _) (str "uciok"));
    [|destruct (jstr_eqb (_ :: _) (str "readyok"));
      [|destruct (startsWith (_ :: _) (str "info"));
        [|destruct (startsWith (_ :: _) (str "bestmove"))]]]].

Section Actions.

Lemma seq_eq (a b : act) (s : session) :
  (a ;; b) s = (fst (b (fst (a s))), snd (a s) ++ snd (b (fst (a s)))).
Proof. unfold seq; destruct (a s) as [s1 e1]; simpl; destruct (b s1); reflexivity. Qed.

Lemma forEach_app {A} (l1 l2 : list A) (f : A -> act) (s : session) :
  forEach (l1 ++ l2) f s = (forEach l1 f ;; forEach l2 f) s.
Proof.
  revert s; induction l1 as [|x l1 IH]; intros s.
  - rewrite seq_eq; simpl; destruct (forEach l2 f s); reflexivity.
  - simpl; rewrite !seq_eq, IH, !seq_eq; simpl; rewrite app_assoc; reflexivity.
Qed.

Lemma forEach_one {A} (x : A) (f : A -> act) (s : session) :
  forEach [x] f s = f x s.
Proof.
  simpl; rewrite seq_eq; simpl; rewrite app_nil_r; destruct (f x s); reflexivity.
Qed.

Lemma outcomes_app (e1 e2 : list effect) :
  outcomes (e1 ++ e2) = outcomes e1 ++ outcomes e2.
Proof. apply filter_app. Qed.

Lemma settles_once_skip : settles_once skip.
Proof. intros s; simpl; auto. Qed.

Lemma settles_once_seq (a b : act) :
  settles_once a -> settles_once b -> settles_once (a ;; b).
Proof.
  intros Ha Hb s; rewrite seq_eq; simpl; rewrite outcomes_app.
  destruct (Ha s) as [Ha1 Ha0], (Hb (fst (a s))) as [Hb1 Hb0].
  split; intros Hs.
  - destruct (Ha1 Hs) as [-> Hr]; destruct (Hb1 Hr) as [-> Hr']; auto.
  - destruct (Ha0 Hs) as [[-> Hr]|[Hl Hr]].
    + destruct (Hb0 Hr) as [[-> Hr']|[Hl' Hr']]; auto.
    + destruct (Hb1 Hr) as [-> Hr']; rewrite app_nil_r; auto.
Qed.

Lemma settles_once_forEach {A} (l : list A) (f : A -> act) :
  (forall x, settles_once (f x)) -> settles_once (forEach l f).
Proof.
  intros Hf; induction l as [|x l IH]; simpl.
  - apply settles_once_skip.
  - apply settles_once_seq; auto.
Qed.

Lemma settles_once_quiet (a : act) :
  (forall s, outcomes (snd (a s)) = [] /\ resolved (fst (a s)) = resolved s) ->
  settles_once a.
Proof.
  intros H s; destruct (H s) as [-> ->]; split; auto.
Qed.

Lemma settles_once_finish (p : Result.t) : settles_once (finish p).
Proof. intros [[] ? ? ? ? ? ? ?]; split; intros [=]; cbv; auto. Qed.

Lemma settles_once_onTimeout : settles_once onTimeout.
Proof. intros [[] ? ? ? ? ? ? ?]; split; intros [=]; cbv; auto. Qed.

Lemma settles_once_onError (e : jstr) : settles_once (onError e).
Proof. intros [[] ? ? ? ? ? ? ?]; split; intros [=]; cbv; auto. Qed.

Lemma settles_once_onStderrData (chunk : jstr) : settles_once (onStderrData chunk).
Proof.
  intros [[] ? ? ? ? ? ? ?]; unfold onStderrData;
    destruct (trim chunk); split; intros [=]; cbv; auto.
Qed.

Lemma scanInfo_quiet (line : jstr) (s : session) :
  snd (scanInfo line s) = []
  /\ resolved (fst (scanInfo line s)) = resolved s
  /\ listening (fst (scanInfo line s)) = listening s
  /\ timeoutPending (fst (scanInfo line s)) = timeoutPending s
  /\ buffer (fst (scanInfo line s)) = buffer s.
Proof.
  unfold scanInfo; rewrite !seq_eq.
  destruct (parseScore line), (rsearch depth_re line),
    (rsearch nodes_re line), (rsearch pv_re line); repeat split.
Qed.

Lemma settles_once_handleLine (req : request) (line : jstr) :
  settles_once (handleLine req line).
Proof.
  line_cases line.
  - apply settles_once_skip.
  - apply settles_once_quiet; intros s; split; reflexivity.
  - apply settles_once_quiet; intros s; split; reflexivity.
  - apply settles_once_quiet; intros s.
    destruct (scanInfo_quiet (c :: l) s) as (-> & -> & _); split; reflexivity.
  - intros s; apply (settles_once_finish (bestmovePayload (c :: l) s) s).
  - apply settles_once_skip.
Qed.

Lemma settles_once_onStdoutData (req : request) (chunk : jstr) :
  settles_once (onStdoutData req chunk).
Proof.
  intros s; unfold onStdoutData.
  refine (settles_once_seq (modify (set_buffer _)) _ _ _ s).
  - apply settles_once_quiet; intros s'; split; reflexivity.
  - apply settles_once_forEach; intros l; apply settles_once_handleLine.
Qed.

Lemma settles_once_deliver (req : request) (ev : event) :
  settles_once (deliver req ev).
Proof.
  intros s; destruct ev as [chunk|chunk|e|]; unfold deliver.
  - destruct (listening s);
      [apply settles_once_onStdoutData|apply settles_once_skip].
  - destruct (listening s);
      [apply settles_once_onStderrData|apply settles_once_skip].
  - apply settles_once_onError.
  - destruct (timeoutPending s); [|apply settles_once_skip].
    refine (settles_once_seq (modify (set_timeoutPending false)) _ _ _ s).
    + apply settles_once_quiet; intros s'; split; reflexivity.
    + apply settles_once_onTimeout.
Qed.

Lemma settles_once_run (req : request) (evs : list event) :
  settles_once (run req evs).
Proof. apply settles_once_forEach; intros ev; apply settles_once_deliver. Qed.

Lemma settles_once_feed (req : request) (chunks : list jstr) :
  settles_once (feed req chunks).
Proof. apply settles_once_forEach; intros c; apply settles_once_onStdoutData. Qed.

Lemma settles_once_le (a : act) (s : session) :
  settles_once a -> (length (outcomes (snd (a s))) <= 1)%nat.
Proof.
  intros H; destruct (H s) as [H1 H0].
  destruct (resolved s).
  - destruct (H1 eq_refl) as [-> _]; simpl; lia.
  - destruct (H0 eq_refl) as [[-> _]|[-> _]]; simpl; lia.
Qed.

End Actions.

(** ** One settlement per session *)

Lemma run_app (req : request) (evs more : list event) (s : session) :
  run req (evs ++ more) s = (run req evs ;; run req more) s.
Proof. apply forEach_app. Qed.

(** C1: a call produces at most one settlement (resolve or reject); the
    resolved flag is set exactly when a settlement has been produced; and
    once there is a settlement, no later event adds another one. *)
Theorem C1_single_outcome :
  forall (h : host) (req : request) (evs : list event),
    (length (outcomes (analysis h req evs)) <= 1)%nat
    /\ (resolved (fst (run req evs initial)) = true
        <-> outcomes (snd (run req evs initial)) <> [])
    /\ (forall more : list event,
          outcomes (analysis h req evs) <> [] ->
          outcomes (analysis h req (evs ++ more))
            = outcomes (analysis h req evs)).
Proof.
  intros h req evs.
  assert (A : forall l, analysis h req l
                = if existsSync h (resolveEnginePath h)
                  then [FsExists (resolveEnginePath h);
                        Spawn (resolveEnginePath h);
                        SetTimeout (timeoutMs req);
                        StdinWrite (str "uci" ++ LF)]
                         ++ snd (run req l initial)
                  else [FsExists (resolveEnginePath h); Reject notFoundMessage]).
  { intros l; unfold analysis, analyzePosition, getEngineStatus; simpl.
    destruct (existsSync h (resolveEnginePath h)); reflexivity. }
  pose proof (settles_once_run req evs initial) as [_ H0].
  specialize (H0 eq_refl).
  split; [|split].
  - rewrite A; destruct (existsSync h (resolveEnginePath h)); [|simpl; lia].
    rewrite outcomes_app; simpl.
    apply settles_once_le, settles_once_run.
  - destruct H0 as [[-> ->]|[Hl ->]].
    + split; [discriminate|intros H; contradiction].
    + split; [intros _ E; rewrite E in Hl; discriminate|reflexivity].
  - intros more; rewrite !A.
    destruct (existsSync h (resolveEnginePath h)); [|reflexivity].
    rewrite !outcomes_app; simpl.
    rewrite run_app, seq_eq; simpl; rewrite outcomes_app.
    destruct H0 as [[-> _]|[_ Hr]]; [intros H; contradiction|].
    intros _.
    destruct (settles_once_run req more (fst (run req evs initial))) as [H1 _].
    destruct (H1 Hr) as [-> _]; apply app_nil_r.
Qed.

Lemma C1_single_outcome_witness :
  outcomes
    (analysis installedHost sampleRequest
       ([StdoutData (str "bestmove e2e4" ++ LF)]
          ++ [TimeoutFired; StderrData (str "late"); ProcessError (str "EPIPE")]))
  = outcomes
      (analysis installedHost sampleRequest
         [StdoutData (str "bestmove e2e4" ++ LF)]).
Proof.
  apply (proj2 (proj2 (C1_single_outcome installedHost sampleRequest
                         [StdoutData (str "bestmove e2e4" ++ LF)]))).
  vm_compute; discriminate.
Defined.

(** ** Sessions fed through stdout *)
Section Feeding.

Variable req : request.

Lemma attached_resolved (s : session) : resolved s = true -> attached s.
Proof. intros H E; rewrite H in E; discriminate. Qed.

Lemma keeps_attached_seq (a b : act) :
  keeps_attached a -> keeps_attached b -> keeps_attached (a ;; b).
Proof. intros Ha Hb s H; rewrite seq_eq; simpl; auto. Qed.

Lemma keeps_attached_forEach {A} (l : list A) (f : A -> act) :
  (forall x, keeps_attached (f x)) -> keeps_attached (forEach l f).
Proof.
  intros Hf; induction l as [|x l IH]; simpl; [intros s H; exact H|].
  apply keeps_attached_seq; auto.
Qed.

Lemma keeps_attached_flags (a : act) :
  (forall s, resolved (fst (a s)) = resolved s
             /\ listening (fst (a s)) = listening s
             /\ timeoutPending (fst (a s)) = timeoutPending s) ->
  keeps_attached a.
Proof.
  intros H s Hs; destruct (H s) as (Hr & Hl & Ht).
  unfold attached; rewrite Hr, Hl, Ht; exact Hs.
Qed.

Lemma keeps_attached_handleLine (line : jstr) :
  keeps_attached (handleLine req line).
Proof.
  line_cases line.
  - intros s H; exact H.
  - apply keeps_attached_flags; intros s; repeat split.
  - apply keeps_attached_flags; intros s; repeat split.
  - apply keeps_attached_flags; intros s.
    destruct (scanInfo_quiet (c :: l) s) as (_ & -> & -> & -> & _).
    repeat split.
  - intros s H; destruct (resolved s) eqn:E.
    + unfold finish; rewrite E; exact H.
    + apply attached_resolved; unfold finish; rewrite E; reflexivity.
  - intros s H; exact H.
Qed.

Lemma keeps_attached_onStdoutData (chunk : jstr) :
  keeps_attached (onStdoutData req chunk).
Proof.
  intros s; unfold onStdoutData.
  refine (keeps_attached_seq (modify (set_buffer _)) _ _ _ s).
  - apply keeps_attached_flags; intros s'; repeat split.
  - apply keeps_attached_forEach; intros l; apply keeps_attached_handleLine.
Qed.

Lemma keeps_attached_deliver (ev : event) : keeps_attached (deliver req ev).
Proof.
  intros s H; destruct ev as [chunk|chunk|e|]; unfold deliver.
  - destruct (listening s); [apply keeps_attached_onStdoutData|]; exact H.
  - destruct (listening s); [|exact H].
    unfold onStderrData; destruct (trim chunk); [exact H|].
    destruct (resolved s) eqn:E; [exact H|].
    apply attached_resolved; reflexivity.
  - unfold onError; destruct (resolved s) eqn:E; [exact H|].
    apply attached_resolved; reflexivity.
  - destruct (timeoutPending s); [|exact H].
    rewrite seq_eq; simpl; unfold onTimeout; simpl.
    destruct (resolved s) eqn:E; apply attached_resolved; simpl; auto.
Qed.

Lemma keeps_attached_run (evs : list event) : keeps_attached (run req evs).
Proof. apply keeps_attached_forEach; intros ev; apply keeps_attached_deliver. Qed.

Lemma attached_initial : attached initial.
Proof. intros _; split; reflexivity. Qed.

(** The buffer is not touched by line handling. *)
Lemma ignores_buffer_seq (a b : act) :
  ignores_buffer a -> ignores_buffer b -> ignores_buffer (a ;; b).
Proof.
  intros Ha Hb x s; rewrite !seq_eq, Ha; simpl; rewrite Hb; reflexivity.
Qed.

Lemma ignores_buffer_forEach {A} (l : list A) (f : A -> act) :
  (forall x, ignores_buffer (f x)) -> ignores_buffer (forEach l f).
Proof.
  intros Hf; induction l as [|x l IH]; simpl; [intros b s; reflexivity|].
  apply ignores_buffer_seq; auto.
Qed.

Lemma ignores_buffer_handleLine (line : jstr) :
  ignores_buffer (handleLine req line).
Proof.
  line_cases line; try (intros b s; reflexivity).
  - intros b s; unfold scanInfo; rewrite !seq_eq.
    destruct (parseScore (c :: l)), (rsearch depth_re (c :: l)),
      (rsearch nodes_re (c :: l)), (rsearch pv_re (c :: l)); reflexivity.
  - intros b [[] ? ? ? ? ? ? ?]; reflexivity.
Qed.

Lemma forEach_map {A B} (g : A -> B) (l : list A) (f : B -> act) (s : session) :
  forEach (map g l) f s = forEach l (fun x => f (g x)) s.
Proof.
  revert s; induction l as [|x l IH]; intros s; [reflexivity|].
  simpl; rewrite !seq_eq, IH; reflexivity.
Qed.

Lemma onStdoutData_lines (chunk : jstr) (s : session) :
  onStdoutData req chunk s
    = (set_buffer (last (split_lines (buffer s ++ chunk)) [])
         (fst (forEach (dispatched (buffer s ++ chunk)) (handleLine req) s)),
       snd (forEach (dispatched (buffer s ++ chunk)) (handleLine req) s)).
Proof.
  unfold onStdoutData, dispatched; rewrite seq_eq; simpl.
  rewrite <- forEach_map.
  rewrite (ignores_buffer_forEach _ _ ignores_buffer_handleLine).
  reflexivity.
Qed.

Lemma split_lines_last (x : jstr) :
  split_lines (last (split_lines x) []) = [last (split_lines x) []].
Proof.
  pose proof (split_lines_app x []) as H.
  rewrite !app_nil_r in H.
  rewrite (app_removelast_last [] (split_lines_nonempty x)) in H at 1.
  apply app_inv_head in H; symmetry; exact H.
Qed.

(** Feeding a stream chunk by chunk handles the complete lines of the whole
    stream, in order, and keeps its unfinished last line in the buffer. *)
Lemma feed_lines (chunks : list jstr) (s : session) :
  split_lines (buffer s) = [buffer s] ->
  feed req chunks s
    = (set_buffer (last (split_lines (buffer s ++ concat chunks)) [])
         (fst (forEach (dispatched (buffer s ++ concat chunks)) (handleLine req) s)),
       snd (forEach (dispatched (buffer s ++ concat chunks)) (handleLine req) s)).
Proof.
  revert s; induction chunks as [|c cs IH]; intros s Hb.
  - simpl; rewrite app_nil_r; unfold dispatched; rewrite Hb; simpl.
    destruct s; reflexivity.
  - unfold feed; simpl forEach; fold (feed req cs).
    rewrite seq_eq, onStdoutData_lines; simpl fst; simpl snd.
    simpl concat; rewrite (app_assoc (buffer s) c (concat cs)).
    rewrite (dispatched_app (buffer s ++ c) (concat cs)).
    rewrite (last_split_lines_app (buffer s ++ c) (concat cs)).
    set (l1 := dispatched (buffer s ++ c)).
    set (b1 := last (split_lines (buffer s ++ c)) []).
    rewrite forEach_app, seq_eq.
    set (t := fst (forEach l1 (handleLine req) s)).
    rewrite (IH (set_buffer b1 t)) by apply split_lines_last.
    change (buffer (set_buffer b1 t)) with b1.
    rewrite (ignores_buffer_forEach _ _ ignores_buffer_handleLine).
    reflexivity.
Qed.

(** Stdout events settle what the fed stream settles: a detached listener
    only misses chunks that arrive after the settlement. *)
Lemma run_stdout_outcomes (chunks : list jstr) (s : session) :
  attached s ->
  outcomes (snd (run req (map StdoutData chunks) s))
    = outcomes (snd (feed req chunks s)).
Proof.
  revert s; induction chunks as [|c cs IH]; intros s Hs; [reflexivity|].
  unfold run, feed; simpl map; simpl forEach.
  fold (run req (map StdoutData cs)); fold (feed req cs).
  rewrite !seq_eq; simpl snd; rewrite !outcomes_app.
  change (deliver req (StdoutData c) s)
    with (if listening s then onStdoutData req c s else skip s).
  destruct (listening s) eqn:El.
  - rewrite IH by (apply keeps_attached_onStdoutData; exact Hs).
    reflexivity.
  - assert (Hr : resolved s = true).
    { destruct (resolved s) eqn:E; [reflexivity|].
      destruct (Hs E) as [Hl _]; rewrite Hl in El; discriminate. }
    simpl.
    destruct (settles_once_run req (map StdoutData cs) s) as [H1 _].
    destruct (H1 Hr) as [-> _].
    destruct (settles_once_onStdoutData req c s) as [H2 _].
    destruct (H2 Hr) as [-> Hr'].
    destruct (settles_once_feed req cs (fst (onStdoutData req c s))) as [H3 _].
    destruct (H3 Hr') as [-> _]; reflexivity.
Qed.

End Feeding.

(** ** What each kind of line does *)
Section Lines.

Variable req : request.


Lemma handleLine_bestmove (line : jstr) (s : session) :
  startsWith line (str "bestmove") = true ->
  handleLine req line s = finish (bestmovePayload line s) s.
Proof.
  intros H; destruct (startsWith_app _ _ H) as [r ->]; reflexivity.
Qed.

Lemma handleLine_not_bestmove (line : jstr) (s : session) :
  not_bestmove line ->
  outcomes (snd (handleLine req line s)) = []
  /\ resolved (fst (handleLine req line s)) = resolved s.
Proof.
  unfold not_bestmove, handleLine; intros H.
  destruct line as [|c l]; [split; reflexivity|].
  destruct (jstr_eqb (c :: l) (str "uciok")); [split; reflexivity|].
  destruct (jstr_eqb (c :: l) (str "readyok")); [split; reflexivity|].
  destruct (startsWith (c :: l) (str "info")).
  { destruct (scanInfo_quiet (c :: l) s) as (-> & -> & _); split; reflexivity. }
  rewrite H; split; reflexivity.
Qed.

Lemma forEach_not_bestmove (lines : list jstr) (s : session) :
  Forall not_bestmove lines ->
  outcomes (snd (forEach lines (handleLine req) s)) = [].
Proof.
  intros H; revert s; induction H as [|l ls Hl _ IH]; intros s; [reflexivity|].
  simpl; rewrite seq_eq; simpl; rewrite outcomes_app, IH.
  destruct (handleLine_not_bestmove l s Hl) as [-> _]; reflexivity.
Qed.





End Lines.

Lemma analysis_available (h : host) (req : request) (evs : list event) :
  existsSync h (resolveEnginePath h) = true ->
  analysis h req evs
    = [FsExists (resolveEnginePath h); Spawn (resolveEnginePath h);
       SetTimeout (timeoutMs req); StdinWrite (str "uci" ++ LF)]
        ++ snd (run req evs initial).
Proof.
  intros H; unfold analysis, analyzePosition, getEngineStatus; simpl.
  rewrite H; reflexivity.
Qed.

Lemma stdout_outcomes (req : request) (chunks : list jstr) :
  outcomes (snd (run req (map StdoutData chunks) initial))
    = outcomes (snd (forEach (dispatched (concat chunks)) (handleLine req) initial)).
Proof.
  rewrite run_stdout_outcomes by apply attached_initial.
  rewrite feed_lines by reflexivity; reflexivity.
Qed.

(** ** The successful run *)



(** ** Failure paths *)

(** C3: for a movetime with movetime + 1500 at most [TIMEOUT_MAX], the
    timer is armed for max(250, movetime + 1500) milliseconds, whatever the
    depth, a delay between 250 and [TIMEOUT_MAX]; when it fires on a session
    that is still unresolved, the process is killed and the call rejects
    with the timeout error; and a session that has only received stdout data
    without a bestmove line is still unresolved. *)
Theorem C3_timeout :
  forall (h : host) (req : request) (evs : list event),
    existsSync h (resolveEnginePath h) = true ->
    movetime req + 1500 <= TIMEOUT_MAX ->
    (forall d : option Z,
       timeoutMs {| fen := fen req; moves := moves req; depth := d;
                    movetime := movetime req |}
         = Z.max 250 (movetime req + 1500))
    /\ 250 <= Z.max 250 (movetime req + 1500) <= TIMEOUT_MAX
    /\ In (SetTimeout (Z.max 250 (movetime req + 1500))) (analysis h req evs)
    /\ (resolved (fst (run req evs initial)) = false ->
          analysis h req (evs ++ [TimeoutFired])
            = analysis h req evs ++ [Kill; Reject (str "Stockfish timed out.")])
    /\ (forall chunks : list jstr,
          evs = map StdoutData chunks ->
          Forall not_bestmove (dispatched (concat chunks)) ->
          resolved (fst (run req evs initial)) = false).
Proof.
  intros h req evs Hex Hmax.
  split; [intros d; reflexivity|].
  split; [unfold TIMEOUT_MAX in *; lia|].
  split; [rewrite (analysis_available h req _ Hex); simpl; auto|].
  split.
  - intros Hr.
    rewrite !(analysis_available h req _ Hex), run_app, seq_eq; simpl snd.
    rewrite <- app_assoc; f_equal; f_equal.
    set (s := fst (run req evs initial)) in *.
    assert (Ht : timeoutPending s = true).
    { apply (keeps_attached_run req evs initial attached_initial); exact Hr. }
    unfold run; rewrite forEach_one; unfold deliver; rewrite Ht, seq_eq.
    unfold onTimeout; simpl; rewrite Hr; reflexivity.
  - intros chunks -> Hno.
    assert (Hout : outcomes (snd (run req (map StdoutData chunks) initial)) = []).
    { rewrite stdout_outcomes; apply forEach_not_bestmove; exact Hno. }
    destruct (settles_once_run req (map StdoutData chunks) initial) as [_ H0].
    destruct (H0 eq_refl) as [[_ Hr]|[Hl _]]; [exact Hr|].
    rewrite Hout in Hl; discriminate.
Qed.

Lemma C3_timeout_witness :
  analysis installedHost fenRequest (map StdoutData stalledChunks ++ [TimeoutFired])
    = analysis installedHost fenRequest (map StdoutData stalledChunks)
        ++ [Kill; Reject (str "Stockfish timed out.")]
  /\ In (SetTimeout 1550)
        (analysis installedHost fenRequest (map StdoutData stalledChunks)).
Proof.
  pose proof (C3_timeout installedHost fenRequest (map StdoutData stalledChunks)
                eq_refl ltac:(vm_compute; discriminate))
    as (_ & _ & Harmed & Hfire & Hquiet).
  split; [|exact Harmed].
  apply Hfire, (Hquiet stalledChunks eq_refl).
  vm_compute; repeat constructor.
Defined.

(** C8, as stated, fails: a write of white space only to the error stream
    of an unresolved session is ignored. *)
Lemma C8_counterexample_blank_stderr :
  resolved initial = false
  /\ LF <> []
  /\ deliver sampleRequest (StderrData LF) initial = (initial, []).
Proof. split; [reflexivity|]; split; [discriminate|reflexivity]. Qed.

(** C8 (amended): while the session is unresolved, a write to the error
    stream that is not white space only rejects the call with the trimmed
    text as the error and kills the process, and the session is resolved
    afterwards; a write of white space only does nothing. *)
Theorem C8_stderr_fails_session :
  forall (req : request) (evs : list event) (chunk : jstr),
    resolved (fst (run req evs initial)) = false ->
    (trim chunk <> [] ->
       snd (deliver req (StderrData chunk) (fst (run req evs initial)))
         = [ClearTimeout; RemoveListeners; Kill; Reject (trim chunk)]
       /\ resolved (fst (deliver req (StderrData chunk) (fst (run req evs initial))))
          = true)
    /\ (trim chunk = [] ->
          deliver req (StderrData chunk) (fst (run req evs initial))
            = (fst (run req evs initial), [])).
Proof.
  intros req evs chunk Hr.
  pose proof (keeps_attached_run req evs initial attached_initial Hr) as [Hl _].
  unfold deliver; rewrite Hl; unfold onStderrData.
  split.
  - intros Hne; destruct (trim chunk) as [|c m]; [contradiction|].
    rewrite Hr; split; reflexivity.
  - intros ->; reflexivity.
Qed.

Lemma C8_stderr_fails_session_witness :
  snd (deliver sampleRequest (StderrData (str "  Illegal instruction" ++ CRLF))
         (fst (run sampleRequest searchingEvents initial)))
    = [ClearTimeout; RemoveListeners; Kill; Reject (str "Illegal instruction")].
Proof.
  refine (proj1 (proj1 (C8_stderr_fails_session sampleRequest searchingEvents
                          (str "  Illegal instruction" ++ CRLF) _) _)).
  - reflexivity.
  - vm_compute; discriminate.
Defined.

(** C10: on a line that begins with bestmove but carries no move token the
    unresolved session still resolves, with bestmove null and ponder null
    next to the accumulated evaluation, depth, nodes and pv, and the process
    is killed. *)
Theorem C10_bestmove_without_move :
  forall (req : request) (line : jstr) (s : session),
    resolved s = false ->
    startsWith line (str "bestmove") = true ->
    rsearch bestmove_re line = None ->
    snd (handleLine req line s)
      = [ClearTimeout; RemoveListeners; Kill;
         Resolve
           {| Result.bestmove := None;
              Result.ponder := None;
              Result.evaluation := latestScore s;
              Result.depth := latestDepth s;
              Result.nodes := latestNodes s;
              Result.pv := latestPv s |}]
    /\ resolved (fst (handleLine req line s)) = true.
Proof.
  intros req line s Hr Hs Hm.
  rewrite (handleLine_bestmove req line s Hs).
  unfold bestmovePayload, finish; rewrite Hm, Hr.
  split; reflexivity.
Qed.

Lemma C10_bestmove_without_move_witness :
  snd (handleLine sampleRequest (str "bestmove")
         (fst (run sampleRequest searchingEvents initial)))
    = [ClearTimeout; RemoveListeners; Kill;
       Resolve
         {| Result.bestmove := None;
            Result.ponder := None;
            Result.evaluation :=
              Some {| type := str "mate"; value := Int 3; display := str "M3" |};
            Result.depth := Some (Int 7);
            Result.nodes := Some (Int 99);
            Result.pv := Some (str "h5f7") |}].
Proof.
  refine (eq_trans
            (proj1 (C10_bestmove_without_move sampleRequest (str "bestmove")
                      (fst (run sampleRequest searchingEvents initial)) _ _ _)) _).
  - reflexivity.
  - reflexivity.
  - vm_compute; reflexivity.
  - vm_compute; reflexivity.
Defined.

(** ** Decimal notation *)
Section Decimal.

Lemma dec_fuel_enough (f1 f2 : nat) (n : N) :
  (n < 2 ^ N.of_nat (S f1))%N -> (n < 2 ^ N.of_nat (S f2))%N ->
  dec_fuel (S f1) n = dec_fuel (S f2) n.
Proof.
  revert f2 n; induction f1 as [|f1 IH]; intros f2 n H1 H2.
  - assert (E : (n / 10 = 0)%N).
    { apply N.div_small; change (2 ^ N.of_nat 1)%N with 2%N in H1; lia. }
    cbn [dec_fuel]; rewrite E; reflexivity.
  - cbn [dec_fuel]. fold (dec_fuel (S f1) (n / 10)).
    destruct (N.eqb_spec (n / 10) 0) as [E|E]; [reflexivity|].
    assert (Hq : forall f, (n < 2 ^ N.of_nat (S f))%N -> (n / 10 < 2 ^ N.of_nat f)%N).
    { intros f Hf. rewrite Nat2N.inj_succ, N.pow_succ_r' in Hf.
      apply N.Div0.div_lt_upper_bound. lia. }
    destruct f2 as [|f2].
    { exfalso; apply E, N.div_small.
      change (2 ^ N.of_nat 1)%N with 2%N in H2; lia. }
    cbn [dec_fuel]. fold (dec_fuel (S f2) (n / 10)).
    destruct (N.eqb_spec (n / 10) 0) as [E'|_]; [contradiction|].
    f_equal. apply IH; apply Hq; assumption.
Qed.

Lemma lt_pow2_log2 (n : N) : (n < 2 ^ N.of_nat (S (N.to_nat (N.log2 n))))%N.
Proof.
  rewrite Nat2N.inj_succ, N2Nat.id.
  destruct (N.eq_dec n 0) as [->|Hn]; [reflexivity|].
  apply N.log2_spec; lia.
Qed.

Lemma dec_step (n : N) :
  dec n = (if N.eqb (n / 10) 0 then [] else dec (n / 10))
            ++ [digit_char (n mod 10)].
Proof.
  unfold dec at 1; cbn [dec_fuel].
  destruct (N.eqb_spec (n / 10) 0) as [E|E]; [reflexivity|].
  f_equal.
  pose proof (lt_pow2_log2 n) as Hn.
  destruct (N.to_nat (N.log2 n)) as [|f] eqn:Ef.
  { exfalso; apply E, N.div_small.
    change (2 ^ N.of_nat 1)%N with 2%N in Hn; lia. }
  unfold dec; apply dec_fuel_enough; [|apply lt_pow2_log2].
  rewrite Nat2N.inj_succ, N.pow_succ_r' in Hn.
  apply N.Div0.div_lt_upper_bound; lia.
Qed.

Lemma dec_length (n : N) : (1 <= length (dec n))%nat.
Proof. rewrite dec_step, length_app; simpl; lia. Qed.

Lemma dec_small (n : N) : (n < 10)%N -> dec n = [digit_char n].
Proof.
  intros H; rewrite dec_step, N.div_small, N.mod_small by exact H; reflexivity.
Qed.


Lemma Qfloor_half (a : Z) :
  Qfloor (Qabs (inject_Z a / inject_Z 100) * inject_Z (10 ^ Z.of_nat 2) + (1 # 2))
    = Z.abs a.
Proof.
  unfold Qfloor, Qabs, Qdiv, Qmult, Qplus, Qinv, inject_Z; simpl.
  symmetry; apply Z.div_unique with 100; lia.
Qed.

Lemma Qneg_hundredths (a : Z) :
  (if Qlt_le_dec (inject_Z a / inject_Z 100) 0 then str "-" else [])
    = (if a <? 0 then str "-" else []).
Proof.
  destruct (Qlt_le_dec (inject_Z a / inject_Z 100) 0) as [H|H];
    unfold Qlt, Qle, Qdiv, Qmult, Qinv, inject_Z in H; simpl in H;
    destruct (Z.ltb_spec a 0); try reflexivity; lia.
Qed.

(** [toFixed(2)] of [v / 100] writes the integer part of [|v| / 100], a
    point and the two digits of [|v| mod 100]. *)
Lemma toFixed_hundredths (v : Z) :
  toFixed 2 (div (Int v) 100) = two_decimals v.
Proof.
  unfold toFixed, div, two_decimals.
  rewrite Qneg_hundredths, Qfloor_half.
  f_equal.
  assert (Em : (if Z.abs v =? 0 then str "0" else dec (Z.to_N (Z.abs v)))
               = dec (Z.abs_N v)).
  { destruct (Z.eqb_spec (Z.abs v) 0) as [E|E].
    - assert (Z.abs_N v = 0%N) as -> by lia; reflexivity.
    - f_equal; lia. }
  rewrite Em; clear Em.
  set (a := Z.abs_N v).
  rewrite (dec_step a).
  destruct (N.eqb_spec (a / 10) 0) as [E1|E1].
  - assert (E2 : (a / 100 = 0)%N) by (apply N.div_small; apply N.div_small_iff in E1; lia).
    rewrite E1, E2; reflexivity.
  - rewrite (dec_step (a / 10)), N.Div0.div_div.
    change (10 * 10)%N with 100%N.
    destruct (N.eqb_spec (a / 100) 0) as [E2|E2].
    + rewrite E2; reflexivity.
    + pose proof (dec_length (a / 100)) as Hl.
      set (hi := dec (a / 100)) in *.
      rewrite <- !app_assoc. cbn [app].
      rewrite length_app; cbn [length].
      destruct (Nat.leb_spec (length hi + 2) 2) as [H|H]; [lia|].
      rewrite length_app; cbn [length].
      replace (length hi + 2 - 2)%nat with (length hi + 0)%nat by lia.
      rewrite firstn_app_2, skipn_app.
      replace (length hi + 0 - length hi)%nat with 0%nat by lia.
      rewrite Nat.add_0_r, skipn_all; cbn [firstn skipn app].
      rewrite app_nil_r; reflexivity.
Qed.

End Decimal.

(** ** Reading integers *)
Section Integers.

Lemma is_digit_range (d : N) : is_digit d = true -> (48 <= d <= 57)%N.
Proof.
  unfold is_digit; intros H; apply andb_true_iff in H; destruct H as [H1 H2].
  apply N.leb_le in H1, H2; lia.
Qed.

Lemma digit_not_space (d : N) : is_digit d = true -> is_space d = false.
Proof.
  intros H; apply is_digit_range in H.
  unfold is_space, is_line_term.
  repeat match goal with
         | |- context [N.eqb d ?k] =>
             destruct (N.eqb_spec d k); [lia|]
         end.
  destruct (N.leb_spec 8192 d); [lia|reflexivity].
Qed.

Lemma parseInt_digits (d : N) (ds : jstr) :
  is_digit d = true -> parseInt (d :: ds) = Int (digits_value 0 (d :: ds)).
Proof.
  intros Hd; unfold parseInt, trimStart.
  cbn [drop_while]; rewrite (digit_not_space d Hd).
  pose proof (is_digit_range d Hd) as Hr.
  assert (N.eqb d 45 = false) as -> by (apply N.eqb_neq; lia).
  assert (N.eqb d 43 = false) as -> by (apply N.eqb_neq; lia).
  cbn [starts_with_digit]; rewrite Hd; reflexivity.
Qed.

Lemma parseInt_minus_digits (d : N) (ds : jstr) :
  is_digit d = true ->
  parseInt (str "-" ++ d :: ds) = Int (- digits_value 0 (d :: ds)).
Proof.
  intros Hd; unfold parseInt, trimStart.
  change (str "-" ++ d :: ds) with (45%N :: d :: ds).
  cbn [drop_while]; change (is_space 45) with false; cbv iota.
  change (N.eqb 45 45) with true; cbv iota.
  cbn [starts_with_digit]; rewrite Hd; reflexivity.
Qed.

Lemma parseInt_integer_text (num : jstr) :
  integer_text num -> exists v, parseInt num = Int v.
Proof.
  intros (sign & d & ds & -> & Hs & Hd).
  assert (Hd0 : is_digit d = true) by (inversion Hd; assumption).
  destruct Hs as [-> | ->].
  - cbn [app]; rewrite (parseInt_digits d ds Hd0); eauto.
  - rewrite (parseInt_minus_digits d ds Hd0); eauto.
Qed.

Lemma is_digit_char (d : N) : (d < 10)%N -> is_digit (digit_char d) = true.
Proof.
  intros H; unfold is_digit, digit_char.
  apply andb_true_iff; split; apply N.leb_le; lia.
Qed.

Lemma digits_value_snoc (xs : jstr) (c : N) (acc : Z) :
  Forall (fun x => is_digit x = true) xs -> is_digit c = true ->
  digits_value acc (xs ++ [c]) = 10 * digits_value acc xs + (Z.of_N c - 48).
Proof.
  intros Hxs Hc; revert acc; induction Hxs as [|x xs Hx _ IH]; intros acc.
  - simpl; rewrite Hc; reflexivity.
  - simpl; rewrite Hx; apply IH.
Qed.

(** The digits written by [dec] are digits, and read back as the number. *)
Lemma dec_reads_back (n : N) :
  Forall (fun x => is_digit x = true) (dec n)
  /\ digits_value 0 (dec n) = Z.of_N n.
Proof.
  induction n as [n IH] using (well_founded_induction N.lt_wf_0).
  rewrite dec_step.
  assert (Hm : (n mod 10 < 10)%N) by (apply N.mod_lt; discriminate).
  pose proof (is_digit_char _ Hm) as Hd.
  destruct (N.eqb_spec (n / 10) 0) as [E|E].
  - split; [repeat constructor; exact Hd|].
    simpl; rewrite Hd; unfold digit_char.
    apply N.div_small_iff in E; [|discriminate].
    rewrite N.mod_small by exact E; lia.
  - destruct (IH (n / 10)%N) as [Hf Hv].
    { apply N.div_lt; [|reflexivity].
      destruct (N.eq_dec n 0) as [->|]; [contradiction E; reflexivity|lia]. }
    split; [apply Forall_app; split; [exact Hf|repeat constructor; exact Hd]|].
    rewrite digits_value_snoc, Hv by assumption.
    unfold digit_char.
    pose proof (N.div_mod n 10 ltac:(discriminate)); lia.
Qed.

Lemma dec_cons (n : N) : exists d ds, dec n = d :: ds /\ is_digit d = true.
Proof.
  destruct (dec_reads_back n) as [Hf _].
  pose proof (dec_length n) as Hl.
  destruct (dec n) as [|d ds]; [simpl in Hl; lia|].
  inversion Hf; eauto.
Qed.

(** Reading the printed integer gives the integer back, sign included. *)
Lemma parseInt_int_toString (v : Z) : parseInt (int_toString v) = Int v.
Proof.
  unfold int_toString.
  destruct (dec_reads_back (Z.abs_N v)) as [_ Hv].
  destruct (dec_cons (Z.abs_N v)) as (d & ds & E & Hd).
  rewrite E in *.
  destruct (Z.ltb_spec v 0).
  - rewrite (parseInt_minus_digits d ds Hd), Hv; f_equal; lia.
  - rewrite (parseInt_digits d ds Hd), Hv; f_equal; lia.
Qed.

End Integers.

(** ** Matching the score pattern *)
Section Regex.
Local Open Scope regex_scope.

Lemma star_inv (p : N -> bool) (k : cont) (rest bef : jstr) (c m : caps) :
  star p k bef rest c = Some m ->
  exists ds rest',
    rest = ds ++ rest'
    /\ Forall (fun x => p x = true) ds
    /\ k (rev ds ++ bef) rest' c = Some m.
Proof.
  revert bef; induction rest as [|x rest IH]; intros bef H; simpl in H.
  - exists [], []; auto.
  - destruct (p x) eqn:Ep; [|exists [], (x :: rest); auto].
    destruct (star p k (x :: bef) rest c) as [m'|] eqn:Es;
      [|exists [], (x :: rest); auto].
    injection H as ->.
    destruct (IH _ Es) as (ds & rest' & -> & Hf & Hk).
    exists (x :: ds), rest'; repeat split; auto.
    simpl; rewrite <- app_assoc; exact Hk.
Qed.

Lemma cat_eq (a b : regex) (k : cont) (bef rest : jstr) (c : caps) :
  rmatch (a @@ b) k bef rest c = rmatch a (rmatch b k) bef rest c.
Proof. reflexivity. Qed.

Lemma grp_eq (i : nat) (g : regex) (k : cont) (bef rest : jstr) (c : caps) :
  rmatch (Grp i g) k bef rest c
    = rmatch g
        (fun bef' rest' c' =>
           k bef' rest' ((i, firstn (length rest - length rest') rest) :: c'))
        bef rest c.
Proof. reflexivity. Qed.

Lemma wordb_inv (k : cont) (bef rest : jstr) (c m : caps) :
  rmatch WordB k bef rest c = Some m ->
  xorb (word_before bef) (word_after rest) = true /\ k bef rest c = Some m.
Proof.
  cbn [rmatch]; destruct (xorb (word_before bef) (word_after rest));
    [auto|discriminate].
Qed.

Lemma alt_inv (a b : regex) (k : cont) (bef rest : jstr) (c m : caps) :
  rmatch (Alt a b) k bef rest c = Some m ->
  rmatch a k bef rest c = Some m \/ rmatch b k bef rest c = Some m.
Proof.
  cbn [rmatch]; destruct (rmatch a k bef rest c); [intros [= <-]|]; auto.
Qed.

Lemma opt_inv (a : regex) (k : cont) (bef rest : jstr) (c m : caps) :
  rmatch (Opt a) k bef rest c = Some m ->
  rmatch a k bef rest c = Some m \/ k bef rest c = Some m.
Proof.
  cbn [rmatch]; destruct (rmatch a k bef rest c); [intros [= <-]|]; auto.
Qed.

Lemma lit_inv (s : jstr) (k : cont) (bef rest : jstr) (c m : caps) :
  rmatch (Lit s) k bef rest c = Some m ->
  exists rest', rest = s ++ rest' /\ k (rev s ++ bef) rest' c = Some m.
Proof.
  cbn [rmatch]; destruct (strip_prefix s rest) as [rest'|] eqn:E; [|discriminate].
  intros H; exists rest'; split; [apply strip_prefix_Some; exact E|exact H].
Qed.

Lemma plus_inv (p : N -> bool) (k : cont) (bef rest : jstr) (c m : caps) :
  rmatch (Plus p) k bef rest c = Some m ->
  exists d ds rest',
    rest = (d :: ds) ++ rest'
    /\ Forall (fun x => p x = true) (d :: ds)
    /\ k (rev (d :: ds) ++ bef) rest' c = Some m.
Proof.
  cbn [rmatch]; destruct rest as [|d rest]; [discriminate|].
  destruct (p d) eqn:Ep; [|discriminate].
  intros H; destruct (star_inv _ _ _ _ _ _ H) as (ds & rest' & -> & Hf & Hk).
  exists d, ds, rest'; repeat split; auto.
  simpl; rewrite <- app_assoc; exact Hk.
Qed.

(** A greedy quantifier in front of a continuation that cannot fail takes
    the whole run. *)
Lemma star_total (p : N -> bool) (k : cont) (rest bef : jstr) (c : caps) :
  (forall b r c', k b r c' <> None) -> star p k bef rest c <> None.
Proof.
  intros Hk; revert bef; induction rest as [|x rest IH]; intros bef; simpl.
  - apply Hk.
  - destruct (p x); [|apply Hk].
    destruct (star p k (x :: bef) rest c) eqn:E; [discriminate|].
    exfalso; exact (IH _ E).
Qed.

Lemma star_greedy (p : N -> bool) (k : cont) (rest bef : jstr) (c m : caps) :
  (forall b r c', k b r c' <> None) ->
  star p k bef rest c = Some m ->
  exists ds rest',
    rest = ds ++ rest'
    /\ Forall (fun x => p x = true) ds
    /\ match rest' with x :: _ => p x = false | [] => True end
    /\ k (rev ds ++ bef) rest' c = Some m.
Proof.
  intros Hk; revert bef; induction rest as [|x rest IH]; intros bef H; simpl in H.
  - exists [], []; auto.
  - destruct (p x) eqn:Ep; [|exists [], (x :: rest); auto].
    destruct (star p k (x :: bef) rest c) as [m'|] eqn:Es;
      [|exfalso; exact (star_total p k rest (x :: bef) c Hk Es)].
    injection H as ->.
    destruct (IH _ Es) as (ds & rest' & -> & Hf & Hstop & Hk').
    exists (x :: ds), rest'; repeat split; auto.
    simpl; rewrite <- app_assoc; exact Hk'.
Qed.

Lemma plus_greedy (p : N -> bool) (k : cont) (bef rest : jstr) (c m : caps) :
  (forall b r c', k b r c' <> None) ->
  rmatch (Plus p) k bef rest c = Some m ->
  exists d ds rest',
    rest = (d :: ds) ++ rest'
    /\ Forall (fun x => p x = true) (d :: ds)
    /\ match rest' with x :: _ => p x = false | [] => True end
    /\ k (rev (d :: ds) ++ bef) rest' c = Some m.
Proof.
  intros Hk; cbn [rmatch]; destruct rest as [|d rest]; [discriminate|].
  destruct (p d) eqn:Ep; [|discriminate].
  intros H.
  destruct (star_greedy _ _ _ _ _ _ Hk H) as (ds & rest' & -> & Hf & Hstop & Hk').
  exists d, ds, rest'; repeat split; auto.
  simpl; rewrite <- app_assoc; exact Hk'.
Qed.

Lemma opt_total (a : regex) (k : cont) (bef rest : jstr) (c : caps) :
  (forall b r c', k b r c' <> None) -> rmatch (Opt a) k bef rest c <> None.
Proof.
  intros Hk; cbn [rmatch]; destruct (rmatch a k bef rest c); [discriminate|apply Hk].
Qed.

Lemma no_digit_next (post : jstr) :
  match post with x :: _ => is_digit x = false | [] => True end ->
  starts_with_digit post = false.
Proof. destruct post; simpl; auto. Qed.

Lemma firstn_consumed (t r : jstr) :
  firstn (length (t ++ r) - length r) (t ++ r) = t.
Proof.
  rewrite length_app.
  replace (length t + length r - length r)%nat with (length t + 0)%nat by lia.
  rewrite firstn_app_2; simpl; apply app_nil_r.
Qed.

Lemma search_inv (r : regex) (rest bef : jstr) (m : caps) :
  search_from r bef rest = Some m ->
  exists pre rest',
    rest = pre ++ rest' /\ rmatch r accept (rev pre ++ bef) rest' [] = Some m.
Proof.
  revert bef; induction rest as [|x rest IH]; intros bef; simpl.
  - destruct (rmatch r accept bef [] []) eqn:E; [|discriminate].
    intros [= <-]; exists [], []; auto.
  - destruct (rmatch r accept bef (x :: rest) []) eqn:E.
    + intros [= <-]; exists [], (x :: rest); auto.
    + intros H; destruct (IH _ H) as (pre & rest' & -> & Hm).
      exists (x :: pre), rest'; split; [reflexivity|].
      simpl; rewrite <- app_assoc; exact Hm.
Qed.

(** A search returns the match at the first position that has one. *)
Lemma search_first (r : regex) (rest bef : jstr) (m : caps) :
  search_from r bef rest = Some m ->
  exists pre rest',
    rest = pre ++ rest'
    /\ rmatch r accept (rev pre ++ bef) rest' [] = Some m
    /\ forall pre1 rest1,
         rest = pre1 ++ rest1 -> (length pre1 < length pre)%nat ->
         rmatch r accept (rev pre1 ++ bef) rest1 [] = None.
Proof.
  revert bef; induction rest as [|x rest IH]; intros bef; simpl.
  - destruct (rmatch r accept bef [] []) eqn:E; [|discriminate].
    intros [= <-]; exists [], []; repeat split; auto.
    intros pre1 rest1 _ Hl; simpl in Hl; lia.
  - destruct (rmatch r accept bef (x :: rest) []) eqn:E.
    + intros [= <-]; exists [], (x :: rest); repeat split; auto.
      intros pre1 rest1 _ Hl; simpl in Hl; lia.
    + intros H; destruct (IH _ H) as (pre & rest' & -> & Hm & Hfirst).
      exists (x :: pre), rest'; split; [reflexivity|].
      split; [simpl; rewrite <- app_assoc; exact Hm|].
      intros pre1 rest1 Heq Hl.
      destruct pre1 as [|y pre1].
      * simpl in Heq; subst rest1; exact E.
      * simpl in Heq; injection Heq as <- Heq.
        simpl; rewrite <- app_assoc; apply Hfirst; [exact Heq|simpl in Hl; lia].
Qed.

Lemma all_space_cons (d : N) (ds : jstr) :
  Forall (fun x => is_space x = true) (d :: ds) -> all_space (d :: ds).
Proof. intros H; split; [discriminate|exact H]. Qed.

(** What a match of the score pattern consists of. *)
Lemma score_re_inv (bef rest : jstr) (m : caps) :
  rmatch score_re accept bef rest [] = Some m ->
  exists ty ws1 ws2 num post,
    rest = str "score" ++ ws1 ++ ty ++ ws2 ++ num ++ post
    /\ word_before bef = false
    /\ all_space ws1 /\ all_space ws2
    /\ (ty = str "cp" \/ ty = str "mate")
    /\ integer_text num
    /\ starts_with_digit post = false
    /\ m = [(2%nat, num); (1%nat, ty)].
Proof.
  unfold score_re; intros H.
  rewrite cat_eq in H; apply wordb_inv in H; destruct H as [Hb H].
  rewrite cat_eq in H; apply lit_inv in H; destruct H as (r1 & -> & H).
  change (word_after (str "score" ++ r1)) with true in Hb.
  rewrite xorb_true_r in Hb; apply negb_true_iff in Hb.
  rewrite cat_eq in H; apply plus_inv in H.
  destruct H as (w1 & ws1 & r2 & -> & Hw1 & H).
  rewrite cat_eq, grp_eq in H.
  assert (Hty : exists ty r3,
             (ty = str "cp" \/ ty = str "mate") /\ r2 = ty ++ r3
             /\ rmatch (Plus is_space
                          @@ Grp 2 (Opt (Lit (str "-")) @@ Plus is_digit))
                  accept (rev ty ++ rev (w1 :: ws1) ++ rev (str "score") ++ bef)
                  r3 [(1%nat, ty)] = Some m).
  { apply alt_inv in H; destruct H as [H|H];
      apply lit_inv in H; destruct H as (r3 & -> & H); cbv beta in H;
      rewrite firstn_consumed in H; eauto 6. }
  clear H; destruct Hty as (ty & r3 & Hty & -> & H).
  rewrite cat_eq in H; apply plus_inv in H.
  destruct H as (w2 & ws2 & r4 & -> & Hw2 & H).
  rewrite grp_eq, cat_eq in H.
  assert (Hnum : exists num post,
             integer_text num /\ r4 = num ++ post
             /\ starts_with_digit post = false
             /\ m = [(2%nat, num); (1%nat, ty)]).
  { apply opt_inv in H; destruct H as [H|H].
    - apply lit_inv in H; destruct H as (r5 & -> & H).
      apply plus_greedy in H; [|intros ? ? ?; discriminate].
      destruct H as (d & ds & r6 & -> & Hd & Hstop & H).
      cbv beta in H; unfold accept in H.
      rewrite (app_assoc (str "-") (d :: ds) r6), firstn_consumed in H.
      exists (str "-" ++ d :: ds), r6; split; [|split; [|split]].
      + exists (str "-"), d, ds; auto.
      + rewrite <- app_assoc; reflexivity.
      + apply no_digit_next; exact Hstop.
      + injection H as <-; reflexivity.
    - apply plus_greedy in H; [|intros ? ? ?; discriminate].
      destruct H as (d & ds & r6 & -> & Hd & Hstop & H).
      cbv beta in H; unfold accept in H.
      rewrite firstn_consumed in H.
      exists (d :: ds), r6; split; [|split; [|split]].
      + exists [], d, ds; auto.
      + reflexivity.
      + apply no_digit_next; exact Hstop.
      + injection H as <-; reflexivity. }
  destruct Hnum as (num & post & Hnum & -> & Hpost & ->).
  exists ty, (w1 :: ws1), (w2 :: ws2), num, post.
  split; [reflexivity|auto 8 using all_space_cons].
Qed.

Lemma star_complete (p : N -> bool) (k : cont) (ds bef rest' : jstr) (c : caps) :
  Forall (fun x => p x = true) ds ->
  (exists m, k (rev ds ++ bef) rest' c = Some m) ->
  exists m, star p k bef (ds ++ rest') c = Some m.
Proof.
  revert bef; induction ds as [|d ds IH]; intros bef Hp Hk.
  - simpl in *. destruct rest' as [|x r]; [exact Hk|].
    simpl; destruct (p x); [|exact Hk].
    destruct (star p k (x :: bef) r c) as [m|]; [eauto|exact Hk].
  - inversion Hp as [|? ? Hd Hds]; subst.
    simpl; rewrite Hd.
    destruct (IH (d :: bef) Hds) as [m Hm].
    { simpl in Hk; rewrite <- app_assoc in Hk; exact Hk. }
    rewrite Hm; eauto.
Qed.

Lemma plus_complete (p : N -> bool) (k : cont) (d : N) (ds bef rest' : jstr)
      (c : caps) :
  Forall (fun x => p x = true) (d :: ds) ->
  (exists m, k (rev (d :: ds) ++ bef) rest' c = Some m) ->
  exists m, rmatch (Plus p) k bef ((d :: ds) ++ rest') c = Some m.
Proof.
  intros Hp Hk; inversion Hp as [|? ? Hd Hds]; subst.
  cbn [rmatch app]; rewrite Hd.
  apply star_complete; [exact Hds|].
  simpl in Hk; rewrite <- app_assoc in Hk; exact Hk.
Qed.

Lemma lit_complete (s : jstr) (k : cont) (bef rest' : jstr) (c : caps) :
  (exists m, k (rev s ++ bef) rest' c = Some m) ->
  exists m, rmatch (Lit s) k bef (s ++ rest') c = Some m.
Proof. intros Hk; cbn [rmatch]; rewrite strip_prefix_app; exact Hk. Qed.

Lemma alt_complete (a b : regex) (k : cont) (bef rest : jstr) (c : caps) :
  (exists m, rmatch a k bef rest c = Some m)
  \/ (exists m, rmatch b k bef rest c = Some m) ->
  exists m, rmatch (Alt a b) k bef rest c = Some m.
Proof.
  cbn [rmatch]; destruct (rmatch a k bef rest c) as [m|]; [eauto|].
  intros [[m H]|H]; [discriminate|exact H].
Qed.

Lemma opt_complete (a : regex) (k : cont) (bef rest : jstr) (c : caps) :
  (exists m, k bef rest c = Some m) ->
  exists m, rmatch (Opt a) k bef rest c = Some m.
Proof.
  cbn [rmatch]; destruct (rmatch a k bef rest c) as [m|]; [eauto|auto].
Qed.

Lemma wordb_complete (k : cont) (bef rest : jstr) (c : caps) :
  word_before bef = false -> word_after rest = true ->
  (exists m, k bef rest c = Some m) ->
  exists m, rmatch WordB k bef rest c = Some m.
Proof. intros Hb Ha Hk; cbn [rmatch]; rewrite Hb, Ha; exact Hk. Qed.

Lemma search_complete (r : regex) (pre bef rest' : jstr) :
  (exists m, rmatch r accept (rev pre ++ bef) rest' [] = Some m) ->
  exists m, search_from r bef (pre ++ rest') = Some m.
Proof.
  revert bef; induction pre as [|x pre IH]; intros bef Hm.
  - simpl in *; destruct Hm as [m Hm].
    destruct rest'; simpl; rewrite Hm; eauto.
  - simpl; destruct (rmatch r accept bef (x :: pre ++ rest') []) as [m|]; [eauto|].
    apply IH; simpl in Hm; rewrite <- app_assoc in Hm; exact Hm.
Qed.

Lemma score_re_complete (bef ty ws1 ws2 num post : jstr) :
  word_before bef = false ->
  all_space ws1 -> all_space ws2 ->
  ty = str "cp" \/ ty = str "mate" ->
  integer_text num ->
  exists m,
    rmatch score_re accept bef
      (str "score" ++ ws1 ++ ty ++ ws2 ++ num ++ post) [] = Some m.
Proof.
  intros Hb [Hn1 Hw1] [Hn2 Hw2] Hty (sign & d & ds & -> & Hs & Hd).
  destruct ws1 as [|w1 ws1]; [contradiction|].
  destruct ws2 as [|w2 ws2]; [contradiction|].
  unfold score_re; rewrite cat_eq.
  apply wordb_complete; [exact Hb|reflexivity|].
  rewrite cat_eq; apply lit_complete.
  rewrite cat_eq; apply plus_complete; [exact Hw1|].
  rewrite cat_eq, grp_eq.
  assert (K : forall bef' c',
             exists m,
               rmatch (Plus is_space @@ Grp 2 (Opt (Lit (str "-")) @@ Plus is_digit))
                 accept bef' ((w2 :: ws2) ++ (sign ++ d :: ds) ++ post) c' = Some m).
  { intros bef' c'; rewrite cat_eq; apply plus_complete; [exact Hw2|].
    rewrite grp_eq, cat_eq.
    assert (D : forall bef'' k', (forall x y z, exists m, k' x y z = Some m) ->
               exists m, rmatch (Plus is_digit) k' bef'' ((d :: ds) ++ post) c' = Some m).
    { intros bef'' k' Hk'; apply plus_complete; [exact Hd|apply Hk']. }
    destruct Hs as [-> | ->].
    - apply opt_complete. apply D. intros x y z; unfold accept; eauto.
    - cbn [rmatch].
      change (strip_prefix (str "-") ((str "-" ++ d :: ds) ++ post))
        with (Some ((d :: ds) ++ post)).
      cbv iota.
      match goal with
      | |- exists m, match ?X with Some _ => _ | None => _ end = Some m =>
          assert (E : exists m, X = Some m);
          [|destruct E as [m ->]; eauto]
      end.
      apply (D _ (fun bef' rest'0 c'0 => accept bef' rest'0 _)).
      intros x y z; unfold accept; eauto. }
  destruct Hty as [-> | ->]; apply alt_complete.
  - left; apply lit_complete; apply K.
  - right; apply lit_complete; apply K.
Qed.

End Regex.

(** ** Score parsing *)

Section ScoreFields.

Lemma parseInt_number_written (num : jstr) :
  integer_text num -> parseInt num = Int (number_written num).
Proof.
  intros (sign & d & ds & -> & Hs & Hd).
  assert (Hd0 : is_digit d = true) by (inversion Hd; assumption).
  pose proof (is_digit_range d Hd0) as Hr.
  destruct Hs as [-> | ->].
  - cbn [app]; rewrite (parseInt_digits d ds Hd0).
    unfold number_written.
    destruct (N.eqb_spec d 45); [lia|reflexivity].
  - rewrite (parseInt_minus_digits d ds Hd0); reflexivity.
Qed.

(** A run of characters of a class that stops where the class does is
    determined by the text. *)
Lemma span_unique (p : N -> bool) (a a' b b' : jstr) :
  Forall (fun x => p x = true) a -> Forall (fun x => p x = true) a' ->
  match b with x :: _ => p x = false | [] => True end ->
  match b' with x :: _ => p x = false | [] => True end ->
  a ++ b = a' ++ b' -> a = a' /\ b = b'.
Proof.
  intros Ha; revert a'; induction Ha as [|x a Hx Ha IH]; intros a' Ha' Hb Hb' E.
  - destruct Ha' as [|y a' Hy Ha']; [auto|].
    simpl in E; subst b; rewrite Hy in Hb; discriminate.
  - destruct Ha' as [|y a' Hy Ha'].
    + simpl in E; subst b'; rewrite Hx in Hb'; discriminate.
    + simpl in E; injection E as <- E.
      destruct (IH a' Ha' Hb Hb' E) as [-> ->]; auto.
Qed.

Lemma digits_stop (post : jstr) :
  starts_with_digit post = false ->
  match post with x :: _ => is_digit x = false | [] => True end.
Proof. destruct post; simpl; auto. Qed.

(** At a given position a line has at most one score field. *)
Lemma score_field_at_unique (pre line ty num ty' num' : jstr) :
  score_field_at pre line ty num -> score_field_at pre line ty' num' ->
  ty = ty' /\ num = num'.
Proof.
  intros (ws1 & ws2 & post & E & _ & [_ H1] & [_ H2] & Hty & Hnum & Hpost)
         (ws1' & ws2' & post' & E' & _ & [_ H1'] & [_ H2'] & Hty' & Hnum' & Hpost').
  rewrite E in E'; apply app_inv_head in E'; apply app_inv_head in E'.
  assert (Hs : forall t r, t = str "cp" \/ t = str "mate" ->
             match t ++ r with x :: _ => is_space x = false | [] => True end)
    by (intros t r [-> | ->]; reflexivity).
  destruct (span_unique is_space _ _ _ _ H1 H1' (Hs _ _ Hty) (Hs _ _ Hty') E')
    as [_ E1].
  assert (Et : ty = ty' /\ ws2 ++ num ++ post = ws2' ++ num' ++ post').
  { destruct Hty as [-> | ->], Hty' as [-> | ->];
      try discriminate E1; split; try reflexivity;
      repeat (apply app_inv_head in E1 || injection E1 as E1); exact E1. }
  destruct Et as [Et E2]; split; [exact Et|].
  assert (Hn : forall n r, integer_text n ->
             match n ++ r with x :: _ => is_space x = false | [] => True end).
  { intros n r (sign & d & ds & -> & [-> | ->] & Hd); [|reflexivity].
    inversion Hd; subst; simpl; apply digit_not_space; assumption. }
  destruct (span_unique is_space _ _ _ _ H2 H2' (Hn _ _ Hnum) (Hn _ _ Hnum') E2)
    as [_ E3].
  destruct Hnum as (sign & d & ds & -> & Hsign & Hd).
  destruct Hnum' as (sign' & d' & ds' & -> & Hsign' & Hd').
  assert (H45 : forall x xs, Forall (fun c => is_digit c = true) (x :: xs) ->
                x <> 45%N).
  { intros x xs Hx ->; inversion Hx as [|? ? Hx0 _]; discriminate Hx0. }
  destruct Hsign as [-> | ->], Hsign' as [-> | ->]; cbn [app] in E3 |- *.
  - destruct (span_unique is_digit _ _ _ _ Hd Hd'
                (digits_stop _ Hpost) (digits_stop _ Hpost') E3) as [-> _].
    reflexivity.
  - injection E3 as E3 _; exfalso; exact (H45 _ _ Hd E3).
  - injection E3 as E3 _; exfalso; exact (H45 _ _ Hd' (eq_sym E3)).
  - injection E3 as Ea Eb.
    assert (E4 : (d :: ds) ++ post = (d' :: ds') ++ post')
      by (simpl; rewrite Ea, Eb; reflexivity).
    destruct (span_unique is_digit _ _ _ _ Hd Hd'
                (digits_stop _ Hpost) (digits_stop _ Hpost') E4) as [E5 _].
    rewrite E5; reflexivity.
Qed.

Lemma prefix_same_length (a a' b b' : jstr) :
  a ++ b = a' ++ b' -> length a = length a' -> a = a'.
Proof.
  revert a'; induction a as [|x a IH]; intros [|y a'] E L;
    try discriminate L; [reflexivity|].
  simpl in E, L; injection E as -> E; injection L as L.
  rewrite (IH a' E L); reflexivity.
Qed.

(** Two first score fields of a line are the same field. *)
Lemma first_score_field_unique (line ty num ty' num' : jstr) :
  first_score_field line ty num -> first_score_field line ty' num' ->
  ty = ty' /\ num = num'.
Proof.
  intros (pre & F & Hmin) (pre' & F' & Hmin').
  assert (L : length pre = length pre').
  { pose proof (Hmin _ _ _ F'); pose proof (Hmin' _ _ _ F); lia. }
  assert (E : pre = pre').
  { destruct F as (? & ? & ? & E & _), F' as (? & ? & ? & E' & _).
    rewrite E in E'; exact (prefix_same_length _ _ _ _ E' L). }
  subst pre'; exact (score_field_at_unique _ _ _ _ _ _ F F').
Qed.

(** What [parseScore] returns, in the terms of the line. *)
Lemma parseScore_inv (line : jstr) (sc : score) :
  parseScore line = Some sc ->
  exists num,
    first_score_field line (type sc) num
    /\ value sc = Int (number_written num)
    /\ ((type sc = str "cp"
         /\ display sc
            = (if 0 <=? number_written num then str "+" else [])
                ++ two_decimals (number_written num))
        \/ (type sc = str "mate"
            /\ display sc = str "M" ++ int_toString (number_written num))).
Proof.
  unfold parseScore.
  destruct (rsearch score_re line) as [m|] eqn:Hs; [|discriminate].
  intros [= <-].
  apply search_first in Hs; destruct Hs as (pre & rest & -> & Hm & Hfirst).
  apply score_re_inv in Hm.
  destruct Hm as (ty & ws1 & ws2 & num & post & -> & Hb & H1 & H2 & Hty & Hnum
                  & Hpost & ->).
  rewrite app_nil_r in Hb.
  exists num.
  change (captured 1 [(2%nat, num); (1%nat, ty)]) with ty.
  change (captured 2 [(2%nat, num); (1%nat, ty)]) with num.
  cbn [type value display]; rewrite (parseInt_number_written num Hnum).
  split; [|split; [reflexivity|]].
  - exists pre; split; [exists ws1, ws2, post; auto 8|].
    intros pre' ty' num' (ws1' & ws2' & post' & E & Hb' & H1' & H2' & Hty' & Hnum' & _).
    destruct (Nat.le_gt_cases (length pre) (length pre')) as [L|L]; [exact L|].
    exfalso.
    pose proof (Hfirst pre' _ E L) as Hnone.
    destruct (score_re_complete (rev pre' ++ []) ty' ws1' ws2' num' post')
      as [m' Hm']; try assumption.
    { rewrite app_nil_r; exact Hb'. }
    rewrite Hm' in Hnone; discriminate.
  - destruct Hty as [-> | ->].
    + left; split; [reflexivity|].
      change (jstr_eqb (str "cp") (str "cp")) with true; cbv iota.
      rewrite toFixed_hundredths; reflexivity.
    + right; split; reflexivity.
Qed.

(** What a line with a score field parses to. *)
Lemma parseScore_first (line ty num : jstr) :
  first_score_field line ty num ->
  exists sc,
    parseScore line = Some sc
    /\ type sc = ty
    /\ value sc = Int (number_written num)
    /\ ((ty = str "cp"
         /\ display sc
            = (if 0 <=? number_written num then str "+" else [])
                ++ two_decimals (number_written num))
        \/ (ty = str "mate"
            /\ display sc = str "M" ++ int_toString (number_written num))).
Proof.
  intros F.
  assert (P : exists sc, parseScore line = Some sc).
  { destruct F as (pre & (ws1 & ws2 & post & -> & Hb & H1 & H2 & Hty & Hnum & _) & _).
    destruct (search_complete score_re pre []
                (str "score" ++ ws1 ++ ty ++ ws2 ++ num ++ post)) as [m Hm].
    { rewrite app_nil_r; apply score_re_complete; assumption. }
    unfold parseScore, rsearch; rewrite Hm; eauto. }
  destruct P as [sc Hsc].
  destruct (parseScore_inv line sc Hsc) as (num' & F' & Hv & Hd).
  destruct (first_score_field_unique _ _ _ _ _ F F') as [Et En].
  subst num'.
  exists sc; split; [exact Hsc|]. split; [auto|]. split; [exact Hv|].
  rewrite Et; exact Hd.
Qed.

End ScoreFields.

(** On a concrete line: no score field starts within the first [n]
    characters. *)
Tactic Notation "no_earlier_field" integer(n) :=
  let pre := fresh "pre" in
  let E := fresh "E" in
  intros pre ? ? (? & ? & ? & E & _);
  do n (destruct pre as [|? pre];
        [exfalso; cbv in E; discriminate E|cbv in E; injection E as _ E]);
  simpl; lia.

(** C5: a line with a score field always parses, and what parses has a
    first score field.  When the number of the first score field is at most
    [MAX_SCORE] in absolute value, the line parses to the kind of that field
    and to the number written in it, and the display is, for cp, that number
    over 100 written with two decimals and prefixed with + when it is not
    negative, and for mate, M followed by the number with its sign, a text
    that reads back as the number. *)
Theorem C5_score_display : forall line : jstr,
  (forall ty num, score_field line ty num -> exists sc, parseScore line = Some sc)
  /\ (forall sc, parseScore line = Some sc ->
        exists num, first_score_field line (type sc) num)
  /\ (forall ty num,
        first_score_field line ty num ->
        let v := number_written num in
        Z.abs v <= MAX_SCORE ->
        exists sc,
          parseScore line = Some sc
          /\ type sc = ty
          /\ value sc = Int v
          /\ ((ty = str "cp"
               /\ display sc
                  = (if 0 <=? v then str "+" else []) ++ two_decimals v)
              \/ (ty = str "mate"
                  /\ display sc = str "M" ++ int_toString v
                  /\ parseInt (int_toString v) = Int v))).
Proof.
  intros line.
  assert (P1 : forall ty num, score_field line ty num ->
               exists sc, parseScore line = Some sc).
  { intros ty num (pre & ws1 & ws2 & post & -> & Hb & H1 & H2 & Hty & Hnum & _).
    destruct (search_complete score_re pre []
                (str "score" ++ ws1 ++ ty ++ ws2 ++ num ++ post)) as [m Hm].
    { rewrite app_nil_r; apply score_re_complete; assumption. }
    unfold parseScore, rsearch; rewrite Hm; eauto. }
  split; [exact P1|]. split.
  - intros sc H; destruct (parseScore_inv line sc H) as (num & F & _); eauto.
  - intros ty num F v _.
    destruct (parseScore_first line ty num F) as (sc & Hsc & Ht & Hv & Hd).
    fold v in Hv, Hd.
    exists sc; split; [exact Hsc|]. split; [exact Ht|]. split; [exact Hv|].
    destruct Hd as [[Hty Hd]|[Hty Hd]]; [left|right]; (split; [exact Hty|]).
    + exact Hd.
    + split; [exact Hd|apply parseInt_int_toString].
Qed.

Lemma C5_score_display_witness :
  exists sc,
    parseScore (str "info depth 12 score cp -120 nodes 7") = Some sc
    /\ type sc = str "cp"
    /\ value sc = Int (-120)
    /\ ((str "cp" = str "cp" /\ display sc = str "-1.20")
        \/ (str "cp" = str "mate"
            /\ display sc = str "M-120"
            /\ parseInt (str "-120") = Int (-120))).
Proof.
  apply (proj2 (proj2 (C5_score_display (str "info depth 12 score cp -120 nodes 7")))
           (str "cp") (str "-120")).
  - exists (str "info depth 12 "); split.
    + exists (str " "), (str " "), (str " nodes 7").
      split; [reflexivity|]. split; [reflexivity|].
      split; [split; [discriminate|repeat constructor]|].
      split; [split; [discriminate|repeat constructor]|].
      split; [left; reflexivity|].
      split; [|reflexivity].
      exists (str "-"), 49%N, (str "20"); split; [reflexivity|].
      split; [right; reflexivity|repeat constructor].
    + no_earlier_field 14.
  - vm_compute; discriminate.
Defined.

Example parseScore_cp_35 :
  parseScore (str "info depth 1 score cp 35 nodes 20")
    = Some {| type := str "cp"; value := Int 35; display := str "+0.35" |}.
Proof. vm_compute; reflexivity. Qed.

Example parseScore_cp_minus_120 :
  parseScore (str "info score cp -120")
    = Some {| type := str "cp"; value := Int (-120); display := str "-1.20" |}.
Proof. vm_compute; reflexivity. Qed.

Example parseScore_cp_0 :
  parseScore (str "info score cp 0")
    = Some {| type := str "cp"; value := Int 0; display := str "+0.00" |}.
Proof. vm_compute; reflexivity. Qed.

Example parseScore_mate_3 :
  parseScore (str "info score mate 3")
    = Some {| type := str "mate"; value := Int 3; display := str "M3" |}.
Proof. vm_compute; reflexivity. Qed.

Example parseScore_mate_minus_2 :
  parseScore (str "info score mate -2 pv a1a2")
    = Some {| type := str "mate"; value := Int (-2); display := str "M-2" |}.
Proof. vm_compute; reflexivity. Qed.

Example parseScore_no_field :
  parseScore (str "info string highscore cp 1") = None.
Proof. vm_compute; reflexivity. Qed.

(* ================================================================== *)
(** * Part III: further properties of the adapter and of its callers   *)
(* ================================================================== *)

(** ** Chunking of the stdout stream *)
Section Chunking.

Variable req : request.

Lemma forEach_not_bestmove_resolved (lines : list jstr) (s : session) :
  Forall not_bestmove lines ->
  resolved (fst (forEach lines (handleLine req) s)) = resolved s.
Proof.
  intros H; revert s; induction H as [|l ls Hl _ IH]; intros s; [reflexivity|].
  simpl; rewrite seq_eq; simpl; rewrite IH.
  apply (handleLine_not_bestmove req l s Hl).
Qed.

(** While the fed stream leaves the session unresolved, no chunk is missed. *)
Lemma run_stdout_unresolved (chunks : list jstr) (s : session) :
  attached s ->
  resolved (fst (feed req chunks s)) = false ->
  run req (map StdoutData chunks) s = feed req chunks s.
Proof.
  revert s; induction chunks as [|c cs IH]; intros s Hs Hr; [reflexivity|].
  change (feed req (c :: cs) s)
    with ((onStdoutData req c ;; feed req cs) s) in *.
  change (run req (map StdoutData (c :: cs)) s)
    with ((deliver req (StdoutData c) ;; run req (map StdoutData cs)) s).
  rewrite seq_eq in Hr; simpl fst in Hr.
  assert (Hs0 : resolved s = false).
  { destruct (resolved s) eqn:E; [|reflexivity].
    destruct (settles_once_onStdoutData req c s) as [H1 _].
    destruct (H1 E) as [_ E1].
    destruct (settles_once_feed req cs (fst (onStdoutData req c s))) as [H2 _].
    destruct (H2 E1) as [_ E2]; rewrite E2 in Hr; discriminate. }
  destruct (Hs Hs0) as [Hl _].
  rewrite !seq_eq.
  change (deliver req (StdoutData c) s)
    with (if listening s then onStdoutData req c s else skip s).
  rewrite Hl, IH; [reflexivity| |exact Hr].
  apply keeps_attached_onStdoutData; exact Hs.
Qed.

End Chunking.

(** X1: for a request whose moves are strings and whose numbers are safe
    integers, what a call settles with does not depend on how the text
    decoded from stdout is divided among the data events; and as long as
    that text holds no bestmove line, neither do the complete effects nor
    the session. *)
Theorem X1_chunking_irrelevant :
  forall (h : host) (req : request) (tokens : list jstr) (chunks : list jstr),
    moves req = map JStr tokens ->
    safe_numbers req = true ->
    outcomes (analysis h req (map StdoutData chunks))
      = outcomes (analysis h req [StdoutData (concat chunks)])
    /\ (Forall not_bestmove (dispatched (concat chunks)) ->
          analysis h req (map StdoutData chunks)
            = analysis h req [StdoutData (concat chunks)]
          /\ fst (run req (map StdoutData chunks) initial)
             = fst (run req [StdoutData (concat chunks)] initial)).
Proof.
  intros h req tokens chunks _ _.
  assert (A : forall evs, analysis h req evs
                = if existsSync h (resolveEnginePath h)
                  then [FsExists (resolveEnginePath h);
                        Spawn (resolveEnginePath h);
                        SetTimeout (timeoutMs req);
                        StdinWrite (str "uci" ++ LF)]
                         ++ snd (run req evs initial)
                  else [FsExists (resolveEnginePath h); Reject notFoundMessage]).
  { intros evs; unfold analysis, analyzePosition, getEngineStatus; simpl.
    destruct (existsSync h (resolveEnginePath h)); reflexivity. }
  assert (C : concat [concat chunks] = concat chunks) by (simpl; apply app_nil_r).
  split.
  - rewrite !A; destruct (existsSync h (resolveEnginePath h)); [|reflexivity].
    rewrite !outcomes_app; f_equal.
    change [StdoutData (concat chunks)] with (map StdoutData [concat chunks]).
    rewrite !stdout_outcomes, C; reflexivity.
  - intros Hno.
    assert (R : forall cs, concat cs = concat chunks ->
                run req (map StdoutData cs) initial
                  = (set_buffer (last (split_lines (concat chunks)) [])
                       (fst (forEach (dispatched (concat chunks)) (handleLine req) initial)),
                     snd (forEach (dispatched (concat chunks)) (handleLine req) initial))).
    { intros cs E.
      assert (F : feed req cs initial
                  = (set_buffer (last (split_lines (concat chunks)) [])
                       (fst (forEach (dispatched (concat chunks)) (handleLine req) initial)),
                     snd (forEach (dispatched (concat chunks)) (handleLine req) initial))).
      { rewrite feed_lines by reflexivity; simpl buffer; simpl app; rewrite E.
        reflexivity. }
      rewrite run_stdout_unresolved; [exact F|apply attached_initial|].
      rewrite F; simpl fst.
      change (resolved (set_buffer ?b ?t)) with (resolved t).
      rewrite forEach_not_bestmove_resolved by exact Hno; reflexivity. }
    change [StdoutData (concat chunks)] with (map StdoutData [concat chunks]).
    rewrite !A, (R chunks eq_refl), (R [concat chunks] C).
    split; reflexivity.
Qed.

(** ** Lines the adapter does not know, and what it writes back *)
Section Replies.

Variable req : request.

Lemma handleLine_noise (line : jstr) (s : session) :
  is_protocol_line line = false -> handleLine req line s = (s, []).
Proof.
  unfold is_protocol_line; intros H.
  apply orb_false_iff in H; destruct H as [H H4].
  apply orb_false_iff in H; destruct H as [H H3].
  apply orb_false_iff in H; destruct H as [H1 H2].
  unfold handleLine; destruct line as [|c l]; [reflexivity|].
  rewrite H1, H2, H3, H4; reflexivity.
Qed.

Lemma forEach_protocol_lines (lines : list jstr) (s : session) :
  forEach lines (handleLine req) s
    = forEach (filter is_protocol_line lines) (handleLine req) s.
Proof.
  revert s; induction lines as [|l ls IH]; intros s; [reflexivity|].
  simpl filter; destruct (is_protocol_line l) eqn:E.
  - simpl forEach; rewrite !seq_eq, IH; reflexivity.
  - simpl forEach; rewrite seq_eq, (handleLine_noise l s E); simpl.
    rewrite IH; destruct (forEach (filter is_protocol_line ls) (handleLine req) s);
      reflexivity.
Qed.

Lemma writes_app (e1 e2 : list effect) : writes (e1 ++ e2) = writes e1 ++ writes e2.
Proof. apply filter_app. Qed.

Lemma handleLine_writes (line : jstr) (s : session) :
  writes (snd (handleLine req line s)) = replies req line.
Proof.
  unfold replies; revert s; line_cases line; intros s; try reflexivity.
  - destruct (scanInfo_quiet (c :: l) s) as (-> & _); reflexivity.
  - unfold finish; destruct (resolved s); reflexivity.
Qed.

Lemma forEach_writes (lines : list jstr) (s : session) :
  writes (snd (forEach lines (handleLine req) s)) = flat_map (replies req) lines.
Proof.
  revert s; induction lines as [|l ls IH]; intros s; [reflexivity|].
  simpl; rewrite seq_eq; simpl; rewrite writes_app, IH, handleLine_writes.
  reflexivity.
Qed.

End Replies.

(** X3: lines other than uciok, readyok, info lines and bestmove lines
    (banners, id and option lines, blank lines) change nothing: dropping
    them from the stream leaves the session, the effects and the settlement
    as they are. *)
Theorem X3_unknown_lines_ignored :
  forall (req : request) (lines : list jstr) (s : session) (chunks : list jstr),
    forEach lines (handleLine req) s
      = forEach (filter is_protocol_line lines) (handleLine req) s
    /\ outcomes (snd (run req (map StdoutData chunks) initial))
       = outcomes
           (snd (forEach (filter is_protocol_line (dispatched (concat chunks)))
                   (handleLine req) initial)).
Proof.
  intros req lines s chunks; split; [apply forEach_protocol_lines|].
  rewrite stdout_outcomes, forEach_protocol_lines; reflexivity.
Qed.

(** X4: for a request whose moves are strings and whose numbers are safe
    integers, what the adapter writes to the engine is a function of the
    lines it receives, not of the session: isready for each uciok, the
    position and go commands for each readyok, nothing for any other
    line. *)
Theorem X4_replies_depend_on_lines_only :
  forall (req : request) (tokens : list jstr) (lines : list jstr)
         (s : session) (chunk : jstr),
    moves req = map JStr tokens ->
    safe_numbers req = true ->
    writes (snd (forEach lines (handleLine req) s)) = flat_map (replies req) lines
    /\ writes (snd (onStdoutData req chunk s))
       = flat_map (replies req) (dispatched (buffer s ++ chunk)).
Proof.
  intros req tokens lines s chunk _ _; split; [apply forEach_writes|].
  rewrite onStdoutData_lines; simpl snd; apply forEach_writes.
Qed.

(** ** Killing the process *)
Section Kills.

Variable req : request.

Lemma kills_app (e1 e2 : list effect) : kills (e1 ++ e2) = kills e1 ++ kills e2.
Proof. apply filter_app. Qed.

Lemma kills_when_settling_seq (a b : act) :
  kills_when_settling a -> kills_when_settling b -> kills_when_settling (a ;; b).
Proof.
  intros Ha Hb s; rewrite seq_eq; simpl snd.
  destruct (Ha s) as [Ha1 Ha2], (Hb (fst (a s))) as [Hb1 Hb2].
  rewrite kills_app, outcomes_app, !length_app; split; [lia|].
  intros p Hp; apply in_app_or in Hp; apply in_or_app.
  destruct Hp as [Hp|Hp]; [left; eauto|right; eauto].
Qed.

Lemma kills_when_settling_forEach {A} (l : list A) (f : A -> act) :
  (forall x, kills_when_settling (f x)) -> kills_when_settling (forEach l f).
Proof.
  intros Hf; induction l as [|x l IH]; simpl.
  - intros s; split; [simpl; lia|intros p []].
  - apply kills_when_settling_seq; auto.
Qed.

Lemma kills_when_settling_quiet (a : act) :
  (forall s, kills (snd (a s)) = [] /\ forall p, ~ In (Resolve p) (snd (a s))) ->
  kills_when_settling a.
Proof.
  intros H s; destruct (H s) as [-> Hn]; split; [simpl; lia|].
  intros p Hp; destruct (Hn p Hp).
Qed.

Ltac no_resolve := intros ? ?; simpl in *; intuition discriminate.

Lemma kills_when_settling_handleLine (line : jstr) :
  kills_when_settling (handleLine req line).
Proof.
  line_cases line.
  - apply kills_when_settling_quiet; intros s; split; [reflexivity|no_resolve].
  - apply kills_when_settling_quiet; intros s; split; [reflexivity|no_resolve].
  - apply kills_when_settling_quiet; intros s; split; [reflexivity|no_resolve].
  - apply kills_when_settling_quiet; intros s.
    destruct (scanInfo_quiet (c :: l) s) as (-> & _); split; [reflexivity|no_resolve].
  - intros s; unfold finish; destruct (resolved s); split;
      try (simpl; lia); simpl; intuition discriminate.
  - apply kills_when_settling_quiet; intros s; split; [reflexivity|no_resolve].
Qed.

Lemma kills_when_settling_deliver (ev : event) :
  kills_when_settling (deliver req ev).
Proof.
  intros s; destruct ev as [chunk|chunk|e|]; unfold deliver.
  - destruct (listening s); [|split; [simpl; lia|no_resolve]].
    unfold onStdoutData.
    refine (kills_when_settling_seq (modify (set_buffer _)) _ _ _ s).
    + apply kills_when_settling_quiet; intros s'; split; [reflexivity|no_resolve].
    + apply kills_when_settling_forEach; intros l; apply kills_when_settling_handleLine.
  - destruct (listening s); [|split; [simpl; lia|no_resolve]].
    unfold onStderrData; destruct (trim chunk); [split; [simpl; lia|no_resolve]|].
    destruct (resolved s); split; try (simpl; lia); simpl; intuition discriminate.
  - unfold onError; destruct (resolved s); split; try (simpl; lia);
      simpl; intuition discriminate.
  - destruct (timeoutPending s); [|split; [simpl; lia|no_resolve]].
    rewrite seq_eq; unfold onTimeout; simpl.
    destruct (resolved s); split; try (simpl; lia); simpl; intuition discriminate.
Qed.

Lemma kills_when_settling_run (evs : list event) :
  kills_when_settling (run req evs).
Proof.
  apply kills_when_settling_forEach; intros ev; apply kills_when_settling_deliver.
Qed.

End Kills.

Lemma analysis_cases (h : host) (req : request) (evs : list event) :
  analysis h req evs
    = if existsSync h (resolveEnginePath h)
      then [FsExists (resolveEnginePath h); Spawn (resolveEnginePath h);
            SetTimeout (timeoutMs req); StdinWrite (str "uci" ++ LF)]
             ++ snd (run req evs initial)
      else [FsExists (resolveEnginePath h); Reject notFoundMessage].
Proof.
  unfold analysis, analyzePosition, getEngineStatus; simpl.
  destruct (existsSync h (resolveEnginePath h)); reflexivity.
Qed.

(** X5: the process is killed at most once and only by a settlement; a
    resolved call has always killed it; and nothing is killed that was not
    spawned. *)
Theorem X5_kill_discipline :
  forall (h : host) (req : request) (evs : list event),
    (length (kills (analysis h req evs))
       <= length (outcomes (analysis h req evs)) <= 1)%nat
    /\ (forall p, In (Resolve p) (analysis h req evs) ->
                  In Kill (analysis h req evs))
    /\ (In Kill (analysis h req evs) ->
        In (Spawn (resolveEnginePath h)) (analysis h req evs)).
Proof.
  intros h req evs; rewrite analysis_cases.
  destruct (existsSync h (resolveEnginePath h)).
  - destruct (kills_when_settling_run req evs initial) as [K1 K2].
    pose proof (settles_once_le (run req evs) initial (settles_once_run req evs)) as L.
    split; [|split].
    + rewrite kills_app, outcomes_app, !length_app; simpl; lia.
    + intros p [H|[H|[H|[H|H]]]]; try discriminate H.
      simpl; right; right; right; right; apply K2 with p; exact H.
    + intros _; simpl; auto.
  - split; [simpl; lia|].
    split; [intros p H|intros H]; simpl in H; intuition discriminate.
Qed.

(** ** After the settlement *)
Section Settled.

Variable req : request.

Lemma unresolved_no_outcomes (evs : list event) :
  resolved (fst (run req evs initial)) = false ->
  outcomes (snd (run req evs initial)) = [].
Proof.
  intros Hr; destruct (settles_once_run req evs initial) as [_ H0].
  destruct (H0 eq_refl) as [[H _]|[_ H]]; [exact H|].
  rewrite H in Hr; discriminate.
Qed.

Lemma resolved_has_outcome (evs : list event) :
  resolved (fst (run req evs initial)) = true ->
  exists o, outcomes (snd (run req evs initial)) = [o].
Proof.
  intros Hr; destruct (settles_once_run req evs initial) as [_ H0].
  destruct (H0 eq_refl) as [[_ H]|[H _]]; [rewrite H in Hr; discriminate|].
  destruct (outcomes (snd (run req evs initial))) as [|o [|o' l]];
    try discriminate; eauto.
Qed.

Lemma resolved_stays (evs : list event) (s : session) :
  resolved s = true -> resolved (fst (run req evs s)) = true.
Proof.
  intros H; destruct (settles_once_run req evs s) as [H1 _].
  apply (H1 H).
Qed.

Lemma keeps_sealed_seq (a b : act) :
  keeps_sealed a -> keeps_sealed b -> keeps_sealed (a ;; b).
Proof. intros Ha Hb s H; rewrite seq_eq; simpl; auto. Qed.

Lemma keeps_sealed_forEach {A} (l : list A) (f : A -> act) :
  (forall x, keeps_sealed (f x)) -> keeps_sealed (forEach l f).
Proof.
  intros Hf; induction l as [|x l IH]; simpl; [intros s H; exact H|].
  apply keeps_sealed_seq; auto.
Qed.

Lemma keeps_sealed_flags (a : act) :
  (forall s, resolved (fst (a s)) = resolved s
             /\ listening (fst (a s)) = listening s
             /\ timeoutPending (fst (a s)) = timeoutPending s) ->
  keeps_sealed a.
Proof.
  intros H s Hs; destruct (H s) as (Hr & Hl & Ht).
  unfold sealed; rewrite Hr, Hl, Ht; exact Hs.
Qed.

Lemma sealed_cleaned (s : session) :
  resolved s = true -> timeoutPending s = false -> sealed s.
Proof. intros H1 H2 _; auto. Qed.

Lemma keeps_sealed_handleLine (line : jstr) : keeps_sealed (handleLine req line).
Proof.
  line_cases line.
  - intros s H; exact H.
  - apply keeps_sealed_flags; intros s; repeat split.
  - apply keeps_sealed_flags; intros s; repeat split.
  - apply keeps_sealed_flags; intros s.
    destruct (scanInfo_quiet (c :: l) s) as (_ & -> & -> & -> & _).
    repeat split.
  - intros s H; unfold finish; destruct (resolved s) eqn:E; [exact H|].
    apply sealed_cleaned; reflexivity.
  - intros s H; exact H.
Qed.

Lemma keeps_sealed_deliver (ev : event) : keeps_sealed (deliver req ev).
Proof.
  intros s H; destruct ev as [chunk|chunk|e|]; unfold deliver.
  - destruct (listening s); [|exact H].
    unfold onStdoutData.
    refine (keeps_sealed_seq (modify (set_buffer _)) _ _ _ s H).
    + apply keeps_sealed_flags; intros s'; repeat split.
    + apply keeps_sealed_forEach; intros l; apply keeps_sealed_handleLine.
  - destruct (listening s); [|exact H].
    unfold onStderrData; destruct (trim chunk); [exact H|].
    destruct (resolved s) eqn:E; [exact H|].
    apply sealed_cleaned; reflexivity.
  - unfold onError; destruct (resolved s) eqn:E; [exact H|].
    apply sealed_cleaned; reflexivity.
  - destruct (timeoutPending s) eqn:Et; [|exact H].
    rewrite seq_eq; simpl; unfold onTimeout; simpl.
    destruct (resolved s) eqn:E; simpl; intros Hl.
    + destruct (H Hl) as [_ Ht]; rewrite Ht in Et; discriminate.
    + destruct (H Hl) as [Hr _]; rewrite Hr in E; discriminate.
Qed.

Lemma sealed_run (evs : list event) : sealed (fst (run req evs initial)).
Proof.
  apply (keeps_sealed_forEach evs (deliver req) (keeps_sealed_deliver) initial).
  intros H; discriminate H.
Qed.



Lemma attached_only_after_timeout_seq (a b : act) :
  settles_once a -> settles_once b ->
  attached_only_after_timeout a -> attached_only_after_timeout b ->
  attached_only_after_timeout (a ;; b).
Proof.
  intros Sa Sb Ha Hb s; rewrite seq_eq; simpl fst; simpl snd.
  destruct (Ha s) as [Ha1 Ha2], (Hb (fst (a s))) as [Hb1 Hb2].
  split; [auto|].
  intros Hs Hr Hl; rewrite outcomes_app.
  destruct (Sa s) as [_ Sa0]; destruct (Sb (fst (a s))) as [Sb1 _].
  destruct (Sa0 Hs) as [[E1 R1]|[_ R1]].
  - rewrite E1; simpl; apply Hb2; assumption.
  - destruct (Sb1 R1) as [E2 _]; rewrite E2, app_nil_r.
    apply Ha2; auto.
Qed.

Lemma attached_only_after_timeout_forEach {A} (l : list A) (f : A -> act) :
  (forall x, settles_once (f x)) ->
  (forall x, attached_only_after_timeout (f x)) ->
  attached_only_after_timeout (forEach l f).
Proof.
  intros Sf Hf; induction l as [|x l IH]; simpl.
  - intros s; split; [auto|]; simpl; intros E1 E2; rewrite E1 in E2; discriminate.
  - apply attached_only_after_timeout_seq; auto.
    apply settles_once_forEach; exact Sf.
Qed.

Lemma attached_only_after_timeout_flags (a : act) :
  (forall s, resolved (fst (a s)) = resolved s
             /\ listening (fst (a s)) = listening s) ->
  attached_only_after_timeout a.
Proof.
  intros H s; destruct (H s) as [Hr Hl]; rewrite Hr, Hl; split; [auto|].
  intros E1 E2; rewrite E1 in E2; discriminate.
Qed.

Lemma attached_only_after_timeout_handleLine (line : jstr) :
  attached_only_after_timeout (handleLine req line).
Proof.
  line_cases line;
    try (apply attached_only_after_timeout_flags; intros s; split; reflexivity).
  - apply attached_only_after_timeout_flags; intros s.
    destruct (scanInfo_quiet (c :: l) s) as (_ & -> & -> & _); split; reflexivity.
  - intros s; unfold finish; destruct (resolved s) eqn:E; simpl.
    + split; [auto|intros; discriminate].
    + split; intros; discriminate.
Qed.

Lemma attached_only_after_timeout_deliver (ev : event) :
  attached_only_after_timeout (deliver req ev).
Proof.
  intros s; destruct ev as [chunk|chunk|e|]; unfold deliver.
  - destruct (listening s) eqn:El.
    + unfold onStdoutData.
      destruct (attached_only_after_timeout_seq
                  (modify (set_buffer (last (split_lines (buffer s ++ chunk)) [])))
                  (forEach (removelast (split_lines (buffer s ++ chunk)))
                     (fun line => handleLine req (trim line)))) with (s := s)
        as [H1 H2].
      * apply settles_once_quiet; intros s'; split; reflexivity.
      * apply settles_once_forEach; intros l; apply settles_once_handleLine.
      * apply attached_only_after_timeout_flags; intros s'; split; reflexivity.
      * apply attached_only_after_timeout_forEach;
          intros l; [apply settles_once_handleLine
                    |apply attached_only_after_timeout_handleLine].
      * split; [intros _; reflexivity|exact H2].
    + simpl; rewrite El; split; [auto|intros; discriminate].
  - destruct (listening s) eqn:El.
    + unfold onStderrData; destruct (trim chunk).
      * simpl; split; [auto|intros E1 E2; rewrite E1 in E2; discriminate].
      * destruct (resolved s) eqn:E; simpl;
          (split; [auto|intros; discriminate]).
    + simpl; rewrite El; split; [auto|intros; discriminate].
  - unfold onError; destruct (resolved s) eqn:E; simpl.
    + split; [auto|intros; discriminate].
    + split; intros; discriminate.
  - destruct (timeoutPending s).
    + rewrite seq_eq; unfold onTimeout; simpl.
      destruct (resolved s) eqn:E; simpl; split; auto; intros; discriminate.
    + simpl; split; [auto|intros E1 E2; rewrite E1 in E2; discriminate].
Qed.

Lemma attached_only_after_timeout_run (evs : list event) :
  attached_only_after_timeout (run req evs).
Proof.
  apply attached_only_after_timeout_forEach; intros ev;
    [apply settles_once_deliver|apply attached_only_after_timeout_deliver].
Qed.

End Settled.

(** X6: once the listeners are detached every later event is dropped
    without any effect; a resolved session whose listeners are still
    attached was settled by the timeout; and after the timeout stdout data
    is still handled by the stdout listener. *)
Theorem X6_listeners_after_settlement :
  forall (req : request) (evs : list event),
    (listening (fst (run req evs initial)) = false ->
       forall ev, deliver req ev (fst (run req evs initial))
                  = (fst (run req evs initial), []))
    /\ (resolved (fst (run req evs initial)) = true ->
        listening (fst (run req evs initial)) = true ->
        outcomes (snd (run req evs initial)) = [Reject timeoutMessage])
    /\ (resolved (fst (run req evs initial)) = false ->
        resolved (fst (deliver req TimeoutFired (fst (run req evs initial)))) = true
        /\ forall chunk,
             deliver req (StdoutData chunk)
               (fst (deliver req TimeoutFired (fst (run req evs initial))))
             = onStdoutData req chunk
                 (fst (deliver req TimeoutFired (fst (run req evs initial))))).
Proof.
  intros req evs; set (s := fst (run req evs initial)).
  split; [|split].
  - intros Hl ev.
    destruct (sealed_run req evs Hl) as [Hr Ht]; fold s in Hr, Ht.
    destruct ev; unfold deliver, onError; rewrite ?Hl, ?Hr, ?Ht; reflexivity.
  - intros Hr Hl.
    destruct (attached_only_after_timeout_run req evs initial) as [_ H].
    apply H; [reflexivity|exact Hr|exact Hl].
  - intros Hr.
    destruct (keeps_attached_run req evs initial attached_initial Hr) as [Hl Ht].
    fold s in Hl, Ht.
    assert (E : deliver req TimeoutFired s
                = (set_resolved true (set_timeoutPending false s),
                   [Kill; Reject timeoutMessage])).
    { unfold deliver; rewrite Ht, seq_eq; unfold onTimeout; simpl.
      rewrite Hr; reflexivity. }
    rewrite E; simpl fst; split; [reflexivity|].
    intros chunk; unfold deliver; simpl listening; rewrite Hl; reflexivity.
Qed.

(** X7: a process error on an unresolved session rejects the call with
    that error, clears the timer and detaches the listeners without killing
    anything, and the analyze route answers 503 with the error. *)
Theorem X7_process_error :
  forall (h : host) (b : option body) (evs : list event) (error : jstr),
    existsSync h (resolveEnginePath h) = true ->
    resolved (fst (run (normalize b) evs initial)) = false ->
    snd (deliver (normalize b) (ProcessError error)
           (fst (run (normalize b) evs initial)))
      = [ClearTimeout; RemoveListeners; Reject error]
    /\ fst (analyzeRoute h b (evs ++ [ProcessError error]))
       = Some {| code := 503; content := ErrorReply error |}.
Proof.
  intros h b evs error Hex Hr.
  assert (E : snd (deliver (normalize b) (ProcessError error)
                     (fst (run (normalize b) evs initial)))
              = [ClearTimeout; RemoveListeners; Reject error]).
  { unfold deliver, onError; rewrite Hr; reflexivity. }
  split; [exact E|].
  assert (R : snd (run (normalize b) [ProcessError error]
                     (fst (run (normalize b) evs initial)))
              = [ClearTimeout; RemoveListeners; Reject error])
    by (unfold run; rewrite forEach_one; exact E).
  unfold analyzeRoute, settlement; cbn [fst].
  rewrite analysis_cases, Hex, run_app, seq_eq; cbn [snd].
  rewrite R, !outcomes_app, (unresolved_no_outcomes _ evs Hr); reflexivity.
Qed.

(** X8: whatever else happens, once the timer has fired the analyze route
    has an answer, 200 or 503. *)
Theorem X8_timer_forces_an_answer :
  forall (h : host) (b : option body) (evs : list event),
    In TimeoutFired evs ->
    exists r, fst (analyzeRoute h b evs) = Some r
              /\ (code r = 200 \/ code r = 503).
Proof.
  intros h b evs Hin.
  assert (S : exists o, outcomes (analysis h (normalize b) evs) = [o]).
  { rewrite analysis_cases.
    destruct (existsSync h (resolveEnginePath h)); [|simpl; eauto].
    rewrite outcomes_app; simpl app.
    apply resolved_has_outcome.
    destruct (in_split _ _ Hin) as (pre & post & ->).
    rewrite run_app, seq_eq; simpl fst.
    change (run (normalize b) (TimeoutFired :: post) ?s)
      with ((deliver (normalize b) TimeoutFired ;; run (normalize b) post) s).
    rewrite seq_eq; simpl fst.
    apply resolved_stays.
    set (s := fst (run (normalize b) pre initial)).
    destruct (resolved s) eqn:Hr.
    - destruct (settles_once_deliver (normalize b) TimeoutFired s) as [H1 _].
      apply (H1 Hr).
    - destruct (keeps_attached_run (normalize b) pre initial attached_initial Hr)
        as [_ Ht]; fold s in Ht.
      unfold deliver; rewrite Ht, seq_eq; unfold onTimeout; simpl.
      rewrite Hr; reflexivity. }
  destruct S as [o Ho].
  assert (Io : is_outcome o = true).
  { assert (In o (outcomes (analysis h (normalize b) evs)))
      by (rewrite Ho; left; reflexivity).
    apply filter_In in H; apply H. }
  unfold analyzeRoute, settlement; simpl fst; rewrite Ho; simpl.
  destruct o; try discriminate Io; eexists; split; try reflexivity; simpl; auto.
Qed.

(** ** Lines and their terminators *)
Section Terminators.

Lemma split_lines_lf_free (x : jstr) : lf_free x -> split_lines x = [x].
Proof.
  induction 1 as [|c x Hc Hx IH]; [reflexivity|].
  rewrite split_lines_other, IH; [reflexivity|exact Hc|].
  intros _ s' ->; inversion Hx; congruence.
Qed.

Lemma split_lines_line (l rest : jstr) :
  lf_free l ->
  exists l',
    split_lines (l ++ 10%N :: rest) = l' :: split_lines rest
    /\ (l' = l \/ l = l' ++ [13%N]).
Proof.
  induction 1 as [|c l Hc Hl IH].
  - exists []; split; [reflexivity|auto].
  - destruct IH as (l' & E & Hl').
    destruct (N.eqb_spec c 13) as [->|Hr].
    + destruct l as [|d l].
      * exists []; split; [reflexivity|right; reflexivity].
      * exists (13%N :: l'); split.
        -- change ((13%N :: d :: l) ++ 10%N :: rest)
             with (13%N :: ((d :: l) ++ 10%N :: rest)).
           rewrite split_lines_other, E; [reflexivity|discriminate|].
           intros _ s' [= -> _]; inversion Hl; congruence.
        -- destruct Hl' as [->| ->]; [left|right]; reflexivity.
    + exists (c :: l'); split.
      * change ((c :: l) ++ 10%N :: rest) with (c :: (l ++ 10%N :: rest)).
        rewrite split_lines_other, E; [reflexivity|exact Hc|contradiction].
      * destruct Hl' as [->| ->]; [left|right]; reflexivity.
Qed.

Lemma trimEnd_snoc_space (x : jstr) (c : N) :
  is_space c = true -> trimEnd (x ++ [c]) = trimEnd x.
Proof.
  intros H; unfold trimEnd; rewrite rev_unit; simpl; rewrite H; reflexivity.
Qed.

Lemma dispatched_line (l rest : jstr) :
  lf_free l -> dispatched (l ++ 10%N :: rest) = trim l :: dispatched rest.
Proof.
  intros H; destruct (split_lines_line l rest H) as (l' & E & Hl').
  unfold dispatched; rewrite E.
  rewrite removelast_cons_ne by apply split_lines_nonempty.
  simpl map; f_equal.
  destruct Hl' as [->| ->]; [reflexivity|].
  unfold trim; rewrite trimEnd_snoc_space; reflexivity.
Qed.

Lemma last_split_lines_line (l rest : jstr) :
  lf_free l ->
  last (split_lines (l ++ 10%N :: rest)) [] = last (split_lines rest) [].
Proof.
  intros H; destruct (split_lines_line l rest H) as (l' & E & _).
  rewrite E; apply last_cons_ne, split_lines_nonempty.
Qed.

End Terminators.

(** X2: stdout text without a newline is only buffered; the line is handled,
    trimmed and as one line, when its newline arrives, the same for a bare
    newline and for carriage return plus newline, and the buffer is empty
    afterwards. *)
Theorem X2_partial_lines_wait :
  forall (req : request) (s : session) (l : jstr),
    lf_free (buffer s ++ l) ->
    onStdoutData req l s = (set_buffer (buffer s ++ l) s, [])
    /\ onStdoutData req (l ++ LF) s
       = (set_buffer [] (fst (handleLine req (trim (buffer s ++ l)) s)),
          snd (handleLine req (trim (buffer s ++ l)) s))
    /\ onStdoutData req (l ++ CRLF) s = onStdoutData req (l ++ LF) s.
Proof.
  intros req s l H.
  assert (B : forall x, lf_free x ->
                forall chunk, buffer s ++ chunk = x ++ LF ->
                onStdoutData req chunk s
                  = (set_buffer [] (fst (handleLine req (trim x) s)),
                     snd (handleLine req (trim x) s))).
  { intros x Hx chunk E.
    rewrite onStdoutData_lines, E.
    unfold LF; rewrite (dispatched_line x [] Hx), (last_split_lines_line x [] Hx).
    change (dispatched []) with (@nil jstr).
    rewrite forEach_one; reflexivity. }
  split; [|split].
  - rewrite onStdoutData_lines.
    unfold dispatched; rewrite (split_lines_lf_free _ H); reflexivity.
  - apply B; [exact H|apply app_assoc].
  - rewrite (B (buffer s ++ l) H (l ++ LF) (app_assoc _ _ _)).
    rewrite (B ((buffer s ++ l) ++ [13%N])).
    + unfold trim; rewrite trimEnd_snoc_space by reflexivity; reflexivity.
    + apply Forall_app; split; [exact H|repeat constructor; discriminate].
    + unfold CRLF, LF; rewrite <- !app_assoc; reflexivity.
Qed.

(** ** Trimming *)
Section Trimming.

Lemma drop_while_app_keep (a b : jstr) (e : N) :
  is_space e = false ->
  drop_while is_space (a ++ e :: b) = drop_while is_space a ++ e :: b.
Proof.
  intros He; induction a as [|x a IH]; simpl; [rewrite He; reflexivity|].
  destruct (is_space x); [exact IH|reflexivity].
Qed.

(** Text between two characters that are not white space loses only the
    white space after it. *)
Lemma trim_keep (d e : N) (mid x : jstr) :
  is_space d = false -> is_space e = false ->
  trim (d :: mid ++ e :: x) = d :: mid ++ e :: trimEnd x.
Proof.
  intros Hd He; unfold trim, trimStart.
  assert (E : trimEnd (d :: mid ++ e :: x) = d :: mid ++ e :: trimEnd x).
  { unfold trimEnd.
    assert (R : rev (d :: mid ++ e :: x) = rev x ++ e :: rev (d :: mid)).
    { change (d :: mid ++ e :: x) with ((d :: mid) ++ e :: x).
      rewrite rev_app_distr.
      change (rev (e :: x)) with (rev x ++ [e]).
      rewrite <- app_assoc; reflexivity. }
    rewrite R, (drop_while_app_keep _ _ _ He), rev_app_distr.
    change (rev (e :: rev (d :: mid))) with (rev (rev (d :: mid)) ++ [e]).
    rewrite rev_involutive, <- app_assoc; reflexivity. }
  rewrite E; simpl; rewrite Hd; reflexivity.
Qed.

Lemma trim_single (d : N) (x : jstr) :
  is_space d = false -> trim (d :: x) = d :: trimEnd x.
Proof.
  intros Hd; unfold trim, trimStart.
  assert (E : trimEnd (d :: x) = d :: trimEnd x).
  { unfold trimEnd.
    change (rev (d :: x)) with (rev x ++ [d]).
    rewrite (drop_while_app_keep _ [] _ Hd), rev_app_distr; reflexivity. }
  rewrite E; simpl; rewrite Hd; reflexivity.
Qed.

Lemma drop_while_head (x : jstr) :
  match drop_while is_space x with
  | c :: _ => is_space c = false
  | [] => True
  end.
Proof.
  induction x as [|c x IH]; simpl; [exact I|].
  destruct (is_space c) eqn:E; [exact IH|exact E].
Qed.

Lemma trimEnd_idem (x : jstr) : trimEnd (trimEnd x) = trimEnd x.
Proof.
  unfold trimEnd; rewrite rev_involutive.
  pose proof (drop_while_head (rev x)) as H.
  destruct (drop_while is_space (rev x)) as [|c y]; [reflexivity|].
  simpl; rewrite H; reflexivity.
Qed.

Lemma trimEnd_drop_while (x : jstr) :
  trimEnd x = x -> trimEnd (drop_while is_space x) = drop_while is_space x.
Proof.
  induction x as [|c x IH]; intros H; [reflexivity|].
  simpl; destruct (is_space c) eqn:E; [|exact H].
  apply IH.
  (* the tail of a text without trailing white space has none either *)
  unfold trimEnd in *; simpl rev in H.
  destruct (rev x) as [|y r] eqn:Er.
  - simpl in H; rewrite E in H; discriminate.
  - simpl in *. destruct (is_space y) eqn:Ey.
    + exfalso.
      assert (L : length (rev (drop_while is_space (r ++ [c]))) = length (c :: x))
        by (rewrite H; reflexivity).
      rewrite length_rev in L.
      assert (M : forall z, (length (drop_while is_space z) <= length z)%nat).
      { induction z as [|a z IHz]; simpl; [lia|].
        destruct (is_space a); simpl; lia. }
      pose proof (M (r ++ [c])) as M1.
      rewrite length_app in M1; simpl in *.
      assert (length x = length (y :: r)) by (rewrite <- Er, length_rev; reflexivity).
      simpl in *; lia.
    + rewrite <- (rev_involutive x), Er; reflexivity.
Qed.

Lemma trim_idem (x : jstr) : trim (trim x) = trim x.
Proof.
  unfold trim, trimStart.
  rewrite (trimEnd_drop_while (trimEnd x) (trimEnd_idem x)).
  pose proof (drop_while_head (trimEnd x)) as H.
  destruct (drop_while is_space (trimEnd x)) as [|c y]; [reflexivity|].
  simpl; rewrite H; reflexivity.
Qed.

End Trimming.

(** ** What the route and the page hand to the driver *)

(** X9: the position the analyze route hands to the driver is never empty
    and carries no white space around it; it is startpos unless the body
    holds a string, and then that string trimmed. *)
Theorem X9_normalized_fen :
  forall b : option body,
    fen (normalize b) <> []
    /\ trim (fen (normalize b)) = fen (normalize b)
    /\ (fen (normalize b) = str "startpos"
        \/ exists b0 f, b = Some b0 /\ body_fen b0 = Some (JStr f)
                        /\ fen (normalize b) = trim f).
Proof.
  intros b.
  assert (S : forall r : request,
             fen r = str "startpos" ->
             fen r <> [] /\ trim (fen r) = fen r
             /\ (fen r = str "startpos"
                 \/ exists b0 f, b = Some b0 /\ body_fen b0 = Some (JStr f)
                                 /\ fen r = trim f)).
  { intros r E; rewrite E; split; [discriminate|]; split; [reflexivity|auto]. }
  destruct b as [b0|]; [|apply S; reflexivity].
  destruct (body_fen b0) as [[| | |f| |]|] eqn:Ef;
    try (apply S; unfold normalize; simpl; rewrite Ef; reflexivity).
  destruct (trim f) as [|c t] eqn:E.
  - apply S; unfold normalize; simpl; rewrite Ef, E; reflexivity.
  - assert (F : fen (normalize (Some b0)) = trim f)
      by (unfold normalize; simpl; rewrite Ef, E; reflexivity).
    rewrite F; split; [rewrite E; discriminate|].
    split; [apply trim_idem|].
    right; exists b0, f; auto.
Qed.

(** X10: every request the page sends is a movetime search of 400, 900 or
    1400 milliseconds without a moves clause, and its timer is 1500
    milliseconds longer. *)
Theorem X10_client_requests :
  forall (position engineLevel : jstr),
    let req := normalize (Some (analyzeBody position engineLevel)) in
    depth req = None
    /\ moves req = []
    /\ In (movetime req) [400; 900; 1400]
    /\ goCommand req = str "go movetime " ++ int_toString (movetime req) ++ LF
    /\ moveList req = []
    /\ timeoutMs req = movetime req + 1500.
Proof.
  intros position engineLevel req.
  assert (M : In (movetime req) [400; 900; 1400]).
  { unfold req, normalize, analyzeBody; simpl movetime.
    unfold levelMovetime, engineLevels, lookup.
    destruct (jstr_eqb engineLevel (str "mild")); [simpl; auto|].
    destruct (jstr_eqb engineLevel (str "medium")); [simpl; auto|].
    destruct (jstr_eqb engineLevel (str "aged")); simpl; auto. }
  split; [reflexivity|]. split; [reflexivity|]. split; [exact M|].
  split; [reflexivity|]. split; [reflexivity|].
  unfold timeoutMs; destruct M as [M|[M|[M|[]]]]; rewrite <- M; reflexivity.
Qed.

(** ** The move the page takes from the result *)

(** X11: parseUciMove returns null exactly for null, for (none) and for
    texts shorter than four characters; otherwise the squares are the first
    and second pair of characters and the promotion is the fifth character
    when there is one. *)
Theorem X11_parseUciMove :
  forall uci : option jstr,
    (parseUciMove uci = None
     <-> uci = None
         \/ exists u, uci = Some u
                      /\ (u = str "(none)" \/ (length u < 4)%nat))
    /\ (forall m, parseUciMove uci = Some m ->
          exists u tail,
            uci = Some u
            /\ length (from m) = 2%nat /\ length (to m) = 2%nat
            /\ u = from m ++ to m ++ tail
            /\ promotion m = match tail with
                             | [] => None
                             | c :: _ => Some [c]
                             end).
Proof.
  intros [[|c u]|].
  - split; [|discriminate].
    split; [intros _; right; exists []; split; [reflexivity|right; simpl; lia]
           |reflexivity].
  - unfold parseUciMove.
    destruct (jstr_eqb (c :: u) (str "(none)")) eqn:En.
    { apply jstr_eqb_eq in En; split; [|discriminate].
      split; [intros _; right; eauto|reflexivity]. }
    destruct (Nat.ltb_spec (length (c :: u)) 4) as [Hl|Hl]; simpl orb; cbv iota.
    { split; [|discriminate].
      split; [intros _; right; eauto|reflexivity]. }
    split.
    + split; [discriminate|].
      intros [H|(u' & [= <-] & [H|H])]; [discriminate| |lia].
      rewrite H in En; discriminate.
    + intros m [= <-].
      destruct u as [|c1 [|c2 [|c3 tail]]]; simpl in Hl; try lia.
      exists (c :: c1 :: c2 :: c3 :: tail), tail.
      repeat split.
      destruct tail; reflexivity.
  - split; [|discriminate].
    split; [auto|reflexivity].
Qed.

(** ** The clock display *)
Section Clock.

Lemma int_toString_nonneg (z : Z) : 0 <= z -> int_toString z = dec (Z.to_N z).
Proof.
  intros H; unfold int_toString.
  destruct (Z.ltb_spec z 0); [lia|].
  f_equal; lia.
Qed.

Lemma padStart_two_digits (r : N) :
  (r < 60)%N ->
  padStart 2 (str "0") (dec r) = [digit_char (r / 10); digit_char (r mod 10)].
Proof.
  intros H; rewrite (dec_step r).
  destruct (N.eqb_spec (r / 10) 0) as [E|E].
  - rewrite E; reflexivity.
  - rewrite dec_small; [reflexivity|].
    apply N.Div0.div_lt_upper_bound; lia.
Qed.

End Clock.

(** X12: the clock display is minutes, a colon and two digits of seconds,
    which together make the given time, or zero for a negative one. *)
Theorem X12_formatTime :
  forall seconds : Z,
    exists m r : N,
      (r < 60)%N
      /\ Z.of_N (60 * m + r) = Z.max seconds 0
      /\ formatTime seconds
         = dec m ++ str ":" ++ [digit_char (r / 10); digit_char (r mod 10)].
Proof.
  intros seconds; unfold formatTime.
  set (safe := Z.max seconds 0).
  assert (Hs : 0 <= safe) by (unfold safe; lia).
  exists (Z.to_N (safe / 60)), (Z.to_N (safe mod 60)).
  pose proof (Z.mod_pos_bound safe 60 ltac:(lia)) as Hm.
  pose proof (Z.div_pos safe 60 Hs ltac:(lia)) as Hd.
  pose proof (Z.div_mod safe 60 ltac:(lia)) as Hdm.
  split; [lia|]. split; [lia|].
  rewrite Z.rem_mod_nonneg by lia.
  rewrite !int_toString_nonneg by lia.
  rewrite padStart_two_digits by lia.
  reflexivity.
Qed.

(** ** The evaluation label *)
(** X13: when the number of the first score field of a line is at most
    [MAX_SCORE] in absolute value, the label shown for what the adapter
    parses from the line is Eval and the signed two-decimal display for
    centipawns, Mate in n for a positive mate score and Mate for n, without
    sign, otherwise. *)
Theorem X13_formatEvaluation :
  forall (line ty num : jstr),
    first_score_field line ty num ->
    let v := number_written num in
    Z.abs v <= MAX_SCORE ->
    (ty = str "cp"
     /\ formatEvaluation (parseScore line)
        = str "Eval " ++ (if 0 <=? v then str "+" else []) ++ two_decimals v)
    \/ (ty = str "mate"
        /\ formatEvaluation (parseScore line)
           = str "Mate " ++ (if 0 <? v then str "in" else str "for")
               ++ str " " ++ dec (Z.abs_N v)).
Proof.
  intros line ty num F v _.
  destruct (parseScore_first line ty num F) as (sc & -> & Ht & Hv & Hd).
  fold v in Hv, Hd.
  destruct Hd as [[Hty Hd]|[Hty Hd]]; [left|right]; (split; [exact Hty|]);
    unfold formatEvaluation; rewrite Ht, Hty.
  - change (jstr_eqb (str "cp") (str "mate")) with false; cbv iota.
    rewrite Hd; reflexivity.
  - change (jstr_eqb (str "mate") (str "mate")) with true; cbv iota.
    rewrite Hv; cbn [gt0 Math_abs toString].
    rewrite int_toString_nonneg by lia.
    do 4 f_equal; lia.
Qed.

(** ** The move list *)
Section MoveList.

Lemma list_pair_ind {A} (P : list A -> Prop) :
  P [] -> (forall x, P [x]) -> (forall x y l, P l -> P (x :: y :: l)) ->
  forall l, P l.
Proof.
  intros H0 H1 H2 l.
  enough (H : P l /\ forall x, P (x :: l)) by apply H.
  induction l as [|y l [IH0 IH1]]; split; auto.
Qed.

Lemma numbered_line (turn : Z) (x : jstr) :
  0 < turn ->
  startsWith (trim (int_toString turn ++ str ". " ++ x))
    (int_toString turn ++ str ".") = true.
Proof.
  intros Ht; rewrite int_toString_nonneg by lia.
  destruct (dec_cons (Z.to_N turn)) as (d & ds & -> & Hd).
  change ((d :: ds) ++ str ". " ++ x) with (d :: ds ++ 46%N :: (32%N :: x)).
  rewrite trim_keep by (auto using digit_not_space).
  change (d :: ds ++ 46%N :: trimEnd (32%N :: x))
    with ((d :: ds) ++ 46%N :: trimEnd (32%N :: x)).
  replace ((d :: ds) ++ 46%N :: trimEnd (32%N :: x))
    with (((d :: ds) ++ str ".") ++ trimEnd (32%N :: x))
    by (rewrite <- app_assoc; reflexivity).
  unfold startsWith; rewrite strip_prefix_app; reflexivity.
Qed.

Lemma Some_inj {A} (a b : A) : Some a = Some b -> a = b.
Proof. intros [= H]; exact H. Qed.

Lemma buildMoveLinesFrom_numbered (history : list jstr) :
  forall j : Z,
    0 <= j ->
    length (buildMoveLinesFrom (2 * j) history) = Nat.div2 (S (length history))
    /\ forall (k : nat) (line : jstr),
         nth_error (buildMoveLinesFrom (2 * j) history) k = Some line ->
         startsWith line (int_toString (j + Z.of_nat k + 1) ++ str ".") = true.
Proof.
  induction history as [|w|w b rest IH] using list_pair_ind; intros j Hj.
  - split; [reflexivity|intros [|k] line H; discriminate H].
  - assert (T : 2 * j / 2 + 1 = j + Z.of_nat 0 + 1)
      by (rewrite Z.mul_comm, Z.div_mul; lia).
    split; [reflexivity|].
    intros [|[|k]] line H; try discriminate H.
    cbn [buildMoveLinesFrom nth_error] in H; apply Some_inj in H; subst line.
    rewrite T; apply numbered_line; lia.
  - assert (T : 2 * j / 2 + 1 = j + Z.of_nat 0 + 1)
      by (rewrite Z.mul_comm, Z.div_mul; lia).
    destruct (IH (j + 1) ltac:(lia)) as [IHl IHn].
    replace (2 * (j + 1)) with (2 * j + 2) in * by lia.
    split; [cbn [buildMoveLinesFrom length Nat.div2]; rewrite IHl; reflexivity|].
    intros [|k] line H.
    + cbn [buildMoveLinesFrom nth_error] in H; apply Some_inj in H; subst line.
      rewrite T; destruct b as [|cb b].
      * apply numbered_line; lia.
      * apply (numbered_line _ (w ++ str " " ++ cb :: b)); lia.
    + cbn [buildMoveLinesFrom nth_error] in H.
      replace (j + Z.of_nat (S k) + 1) with (j + 1 + Z.of_nat k + 1) by lia.
      apply IHn; exact H.
Qed.

End MoveList.

(** X14: the move list has one line per pair of half-moves, an odd last
    half-move included, and line k begins with k and a period. *)
Theorem X14_buildMoveLines :
  forall history : list jstr,
    length (buildMoveLines history) = Nat.div2 (S (length history))
    /\ forall (k : nat) (line : jstr),
         nth_error (buildMoveLines history) k = Some line ->
         startsWith line (int_toString (Z.of_nat k + 1) ++ str ".") = true.
Proof.
  intros history; unfold buildMoveLines.
  destruct (buildMoveLinesFrom_numbered history 0 ltac:(lia)) as [Hl Hn].
  change (2 * 0) with 0 in *.
  split; [exact Hl|].
  intros k line H; apply (Hn k line H).
Qed.

(** X15: n ticks take n seconds off the clock of the side to move, never
    below zero, and leave the other clock alone. *)
Theorem X15_clock_ticks :
  forall (n : nat) (prev : Z) (currentPlayer : jstr),
    0 <= prev ->
    Nat.iter n (tickWhite (str "white")) prev = Z.max (prev - Z.of_nat n) 0
    /\ Nat.iter n (tickBlack (str "black")) prev = Z.max (prev - Z.of_nat n) 0
    /\ (currentPlayer <> str "white" ->
        Nat.iter n (tickWhite currentPlayer) prev = prev)
    /\ (currentPlayer <> str "black" ->
        Nat.iter n (tickBlack currentPlayer) prev = prev).
Proof.
  intros n prev p Hp.
  assert (W : forall t, tickWhite (str "white") t = Z.max (t - 1) 0) by reflexivity.
  assert (B : forall t, tickBlack (str "black") t = Z.max (t - 1) 0) by reflexivity.
  split; [|split; [|split]].
  - induction n as [|n IH]; [simpl; lia|].
    rewrite Nat.iter_succ, IH, W; lia.
  - induction n as [|n IH]; [simpl; lia|].
    rewrite Nat.iter_succ, IH, B; lia.
  - intros Hne; induction n as [|n IH]; [reflexivity|].
    rewrite Nat.iter_succ, IH; unfold tickWhite.
    rewrite (jstr_eqb_neq _ _ Hne); reflexivity.
  - intros Hne; induction n as [|n IH]; [reflexivity|].
    rewrite Nat.iter_succ, IH; unfold tickBlack.
    rewrite (jstr_eqb_neq _ _ Hne); reflexivity.
Qed.

(** ** The depth, nodes and pv fields *)
Section Fields.
Local Open Scope regex_scope.

Lemma digits_value_nonneg (s : jstr) (acc : Z) :
  0 <= acc -> 0 <= digits_value acc s.
Proof.
  revert acc; induction s as [|c s IH]; intros acc H; cbn [digits_value];
    [exact H|].
  destruct (is_digit c) eqn:E; [|exact H].
  apply IH; pose proof (is_digit_range c E); lia.
Qed.

(** What a match of [\b<keyword>\s+(\d+)] consists of. *)
Lemma count_re_inv (kw bef rest : jstr) (m : caps) :
  (forall r, word_after (kw ++ r) = true) ->
  rmatch (WordB @@ Lit kw @@ Plus is_space @@ Grp 1 (Plus is_digit))
    accept bef rest [] = Some m ->
  exists ws d ds post,
    rest = kw ++ ws ++ (d :: ds) ++ post
    /\ word_before bef = false
    /\ all_space ws
    /\ Forall (fun c => is_digit c = true) (d :: ds)
    /\ starts_with_digit post = false
    /\ m = [(1%nat, d :: ds)].
Proof.
  intros Hkw H.
  rewrite cat_eq in H; apply wordb_inv in H; destruct H as [Hb H].
  rewrite cat_eq in H; apply lit_inv in H; destruct H as (r1 & -> & H).
  rewrite Hkw, xorb_true_r in Hb; apply negb_true_iff in Hb.
  rewrite cat_eq in H; apply plus_inv in H.
  destruct H as (w & ws & r2 & -> & Hw & H).
  rewrite grp_eq in H; apply plus_greedy in H; [|intros ? ? ?; discriminate].
  destruct H as (d & ds & post & -> & Hd & Hstop & H).
  cbv beta in H; unfold accept in H; rewrite firstn_consumed in H.
  exists (w :: ws), d, ds, post.
  split; [reflexivity|]. split; [exact Hb|].
  split; [apply all_space_cons; exact Hw|].
  split; [exact Hd|].
  split; [apply no_digit_next; exact Hstop|].
  injection H as <-; reflexivity.
Qed.

Lemma count_re_complete (kw bef ws digits post : jstr) :
  (forall r, word_after (kw ++ r) = true) ->
  word_before bef = false ->
  all_space ws ->
  digits <> [] ->
  Forall (fun c => is_digit c = true) digits ->
  exists m,
    rmatch (WordB @@ Lit kw @@ Plus is_space @@ Grp 1 (Plus is_digit))
      accept bef (kw ++ ws ++ digits ++ post) [] = Some m.
Proof.
  intros Hkw Hb [Hn Hw] Hne Hd.
  destruct ws as [|w ws]; [contradiction|].
  destruct digits as [|d ds]; [contradiction|].
  rewrite cat_eq; apply wordb_complete; [exact Hb|apply Hkw|].
  rewrite cat_eq; apply lit_complete.
  rewrite cat_eq; apply plus_complete; [exact Hw|].
  rewrite grp_eq; apply plus_complete; [exact Hd|].
  unfold accept; eauto.
Qed.

Lemma count_field_sound (kw line : jstr) (n : number) :
  (forall r, word_after (kw ++ r) = true) ->
  option_map (fun m => parseInt (captured 1 m))
    (rsearch (WordB @@ Lit kw @@ Plus is_space @@ Grp 1 (Plus is_digit)) line)
    = Some n ->
  exists digits,
    first_count_field kw line digits
    /\ 0 <= digits_value 0 digits
    /\ n = Int (digits_value 0 digits).
Proof.
  intros Hkw H.
  destruct (rsearch _ line) as [m|] eqn:Hs; [|discriminate].
  simpl in H; injection H as <-.
  apply search_first in Hs; destruct Hs as (pre & rest & -> & Hm & Hfirst).
  apply (count_re_inv kw _ _ _ Hkw) in Hm.
  destruct Hm as (ws & d & ds & post & -> & Hb & Hw & Hd & Hpost & ->).
  rewrite app_nil_r in Hb.
  exists (d :: ds); split; [|split].
  - exists pre; split.
    { exists ws, post.
      split; [reflexivity|]. split; [exact Hb|]. split; [exact Hw|].
      split; [discriminate|]. split; [exact Hd|exact Hpost]. }
    intros pre' digits' (ws' & post' & E & Hb' & Hw' & Hne' & Hd' & _).
    destruct (Nat.le_gt_cases (length pre) (length pre')) as [L|L]; [exact L|].
    exfalso.
    pose proof (Hfirst pre' _ E L) as Hnone.
    destruct (count_re_complete kw (rev pre' ++ []) ws' digits' post')
      as [m' Hm']; try assumption.
    { rewrite app_nil_r; exact Hb'. }
    rewrite Hm' in Hnone; discriminate.
  - apply digits_value_nonneg; lia.
  - change (captured 1 [(1%nat, d :: ds)]) with (d :: ds).
    apply parseInt_digits; inversion Hd; assumption.
Qed.

Lemma count_field_complete (kw pre line digits : jstr) :
  (forall r, word_after (kw ++ r) = true) ->
  count_field_at kw pre line digits ->
  exists n,
    option_map (fun m => parseInt (captured 1 m))
      (rsearch (WordB @@ Lit kw @@ Plus is_space @@ Grp 1 (Plus is_digit)) line)
      = Some n.
Proof.
  intros Hkw (ws & post & -> & Hb & Hw & Hne & Hd & _).
  destruct (search_complete
              (WordB @@ Lit kw @@ Plus is_space @@ Grp 1 (Plus is_digit))
              pre [] (kw ++ ws ++ digits ++ post)) as [m Hm].
  { rewrite app_nil_r; apply count_re_complete; assumption. }
  unfold rsearch; rewrite Hm; simpl; eauto.
Qed.

Lemma eol_inv (k : cont) (bef rest : jstr) (c m : caps) :
  rmatch Eol k bef rest c = Some m -> rest = [] /\ k bef [] c = Some m.
Proof. cbn [rmatch]; destruct rest; [auto|discriminate]. Qed.

End Fields.

(** X16: a depth or a node count is read from a line exactly when the line
    has a field of that keyword, the keyword at a word boundary (so not
    seldepth) followed by white space and digits; what is read is the number
    written by all the digits of the first such field, a non-negative
    integer, as long as that number is a safe integer. *)
Theorem X16_depth_and_nodes_fields :
  forall line : jstr,
    (forall n, depthField line = Some n ->
       exists digits,
         first_count_field (str "depth") line digits
         /\ 0 <= digits_value 0 digits
         /\ (digits_value 0 digits <= MAX_SAFE_INTEGER ->
             n = Int (digits_value 0 digits)))
    /\ (forall pre digits,
          count_field_at (str "depth") pre line digits ->
          exists n, depthField line = Some n)
    /\ (forall n, nodesField line = Some n ->
          exists digits,
            first_count_field (str "nodes") line digits
            /\ 0 <= digits_value 0 digits
            /\ (digits_value 0 digits <= MAX_SAFE_INTEGER ->
                n = Int (digits_value 0 digits)))
    /\ (forall pre digits,
          count_field_at (str "nodes") pre line digits ->
          exists n, nodesField line = Some n).
Proof.
  intros line; repeat split.
  - intros n H.
    destruct (count_field_sound (str "depth") line n) as (digits & F & P & E);
      [reflexivity|exact H|eauto].
  - intros pre digits F.
    exact (count_field_complete (str "depth") pre line digits
             (fun _ => eq_refl) F).
  - intros n H.
    destruct (count_field_sound (str "nodes") line n) as (digits & F & P & E);
      [reflexivity|exact H|eauto].
  - intros pre digits F.
    exact (count_field_complete (str "nodes") pre line digits
             (fun _ => eq_refl) F).
Qed.

(** X17: a principal variation read from a line is the rest of the line
    after the word pv at a word boundary (so not multipv) and white space; it
    is not empty. *)
Theorem X17_pv_is_the_rest_of_the_line :
  forall (line p : jstr),
    pvField line = Some p ->
    exists pre ws,
      line = pre ++ str "pv" ++ ws ++ p
      /\ word_before (rev pre) = false
      /\ all_space ws
      /\ p <> []
      /\ Forall (fun c => is_line_term c = false) p.
Proof.
  intros line p; unfold pvField, pv_re.
  destruct (rsearch _ line) as [m|] eqn:Hs; [|discriminate].
  simpl; intros [= <-].
  apply search_inv in Hs; destruct Hs as (pre & rest & -> & H).
  rewrite cat_eq in H; apply wordb_inv in H; destruct H as [Hb H].
  rewrite cat_eq in H; apply lit_inv in H; destruct H as (r1 & -> & H).
  change (word_after (str "pv" ++ r1)) with true in Hb.
  rewrite xorb_true_r, app_nil_r in Hb; apply negb_true_iff in Hb.
  rewrite cat_eq in H; apply plus_inv in H.
  destruct H as (w & ws & r2 & -> & Hw & H).
  rewrite cat_eq, grp_eq in H; apply plus_inv in H.
  destruct H as (d & ds & post & -> & Hd & H).
  cbv beta in H; apply eol_inv in H; destruct H as [-> H].
  unfold accept in H; rewrite firstn_consumed in H; injection H as <-.
  change (captured 1 [(1%nat, d :: ds)]) with (d :: ds).
  exists pre, (w :: ws).
  split; [rewrite app_nil_r; reflexivity|].
  split; [exact Hb|]. split; [apply all_space_cons; exact Hw|].
  split; [discriminate|].
  apply Forall_impl with (2 := Hd); intros c Hc.
  unfold dot in Hc; apply negb_true_iff in Hc; exact Hc.
Qed.

(** ** The bestmove line *)
Section Bestmove.
Local Open Scope regex_scope.

Lemma bol_inv (k : cont) (bef rest : jstr) (c m : caps) :
  rmatch Bol k bef rest c = Some m -> bef = [] /\ k [] rest c = Some m.
Proof. cbn [rmatch]; destruct bef; [auto|discriminate]. Qed.

Lemma token_cons (d : N) (ds : jstr) :
  Forall (fun x => not_space x = true) (d :: ds) -> token (d :: ds).
Proof.
  intros H; split; [discriminate|].
  apply Forall_impl with (2 := H); intros c Hc.
  unfold not_space in Hc; apply negb_true_iff in Hc; exact Hc.
Qed.

Lemma opt_cases (a : regex) (k : cont) (bef rest : jstr) (c m : caps) :
  rmatch (Opt a) k bef rest c = Some m ->
  rmatch a k bef rest c = Some m
  \/ (rmatch a k bef rest c = None /\ k bef rest c = Some m).
Proof.
  cbn [rmatch]; destruct (rmatch a k bef rest c); [intros [= <-]|]; auto.
Qed.

Lemma token_run (t : jstr) :
  token t -> Forall (fun x => not_space x = true) t.
Proof.
  intros [_ H]; apply Forall_impl with (2 := H); intros c Hc.
  unfold not_space; rewrite Hc; reflexivity.
Qed.

Lemma token_first (t r : jstr) :
  token t -> match t ++ r with x :: _ => is_space x = false | [] => True end.
Proof.
  intros [Hn H]; destruct t as [|x t]; [contradiction|].
  inversion H; assumption.
Qed.

Lemma token_last (rest : jstr) :
  token_ends rest = true ->
  match rest with x :: _ => not_space x = false | [] => True end.
Proof.
  destruct rest as [|x rest]; simpl; [auto|].
  intros H; unfold not_space; rewrite H; reflexivity.
Qed.

Lemma ends_token (rest : jstr) :
  match rest with x :: _ => not_space x = false | [] => True end ->
  token_ends rest = true.
Proof.
  destruct rest as [|x rest]; simpl; [auto|].
  unfold not_space; intros H; apply negb_false_iff in H; exact H.
Qed.

(** What a match of the optional part of the bestmove pattern consists
    of. *)
Lemma ponder_inv (bef rest : jstr) (c m : caps) :
  rmatch (Plus is_space @@ Lit (str "ponder") @@ Plus is_space
            @@ Grp 2 (Plus not_space)) accept bef rest c = Some m ->
  exists ws2 ws3 pm rest',
    rest = ws2 ++ str "ponder" ++ ws3 ++ pm ++ rest'
    /\ all_space ws2 /\ all_space ws3 /\ token pm
    /\ token_ends rest' = true
    /\ m = (2%nat, pm) :: c.
Proof.
  intros H.
  rewrite cat_eq in H; apply plus_inv in H.
  destruct H as (w2 & ws2 & r3 & -> & Hw2 & H).
  rewrite cat_eq in H; apply lit_inv in H; destruct H as (r4 & -> & H).
  rewrite cat_eq in H; apply plus_inv in H.
  destruct H as (w3 & ws3 & r5 & -> & Hw3 & H).
  rewrite grp_eq in H; apply plus_greedy in H; [|intros ? ? ?; discriminate].
  destruct H as (p & ps & rest' & -> & Hp & Hstop & H).
  cbv beta in H; unfold accept in H; rewrite firstn_consumed in H.
  exists (w2 :: ws2), (w3 :: ws3), (p :: ps), rest'.
  split; [reflexivity|].
  split; [apply all_space_cons; exact Hw2|].
  split; [apply all_space_cons; exact Hw3|].
  split; [apply token_cons; exact Hp|].
  split; [apply ends_token; exact Hstop|].
  injection H as <-; reflexivity.
Qed.

Lemma ponder_complete (bef ws2 ws3 pm rest' : jstr) (c : caps) :
  all_space ws2 -> all_space ws3 -> token pm ->
  exists m,
    rmatch (Plus is_space @@ Lit (str "ponder") @@ Plus is_space
              @@ Grp 2 (Plus not_space)) accept bef
      (ws2 ++ str "ponder" ++ ws3 ++ pm ++ rest') c = Some m.
Proof.
  intros [Hn2 Hw2] [Hn3 Hw3] Hpm.
  pose proof (token_run pm Hpm) as Hp; destruct Hpm as [Hnp _].
  destruct ws2 as [|w2 ws2]; [contradiction|].
  destruct ws3 as [|w3 ws3]; [contradiction|].
  destruct pm as [|p ps]; [contradiction|].
  rewrite cat_eq; apply plus_complete; [exact Hw2|].
  rewrite cat_eq; apply lit_complete.
  rewrite cat_eq; apply plus_complete; [exact Hw3|].
  rewrite grp_eq; apply plus_complete; [exact Hp|].
  unfold accept; eauto.
Qed.

(** What a match of the bestmove pattern consists of. *)
Lemma bestmove_re_inv (line : jstr) (m : caps) :
  rsearch bestmove_re line = Some m ->
  exists ws mv rest,
    line = str "bestmove" ++ ws ++ mv ++ rest
    /\ all_space ws /\ token mv /\ token_ends rest = true
    /\ ((m = [(1%nat, mv)]
         /\ forall ws2 ws3 pm rest',
              rest = ws2 ++ str "ponder" ++ ws3 ++ pm ++ rest' ->
              all_space ws2 -> all_space ws3 -> token pm -> False)
        \/ exists ws2 ws3 pm rest',
             rest = ws2 ++ str "ponder" ++ ws3 ++ pm ++ rest'
             /\ all_space ws2 /\ all_space ws3 /\ token pm
             /\ token_ends rest' = true
             /\ m = [(2%nat, pm); (1%nat, mv)]).
Proof.
  intros Hs; apply search_inv in Hs; destruct Hs as (pre & rest0 & -> & H).
  unfold bestmove_re in H.
  rewrite cat_eq in H; apply bol_inv in H; destruct H as [Hb H].
  rewrite app_nil_r in Hb.
  assert (pre = []) as -> by (destruct pre; [reflexivity|];
    apply (f_equal (@length N)) in Hb; simpl in Hb;
    rewrite length_app in Hb; simpl in Hb; lia).
  rewrite cat_eq in H; apply lit_inv in H; destruct H as (r1 & -> & H).
  rewrite cat_eq in H; apply plus_inv in H.
  destruct H as (w & ws & r2 & -> & Hw & H).
  rewrite cat_eq, grp_eq in H; apply plus_greedy in H;
    [|intros ? ? ?; apply opt_total; intros ? ? ?; discriminate].
  destruct H as (d & ds & rest & -> & Hd & Hstop & H).
  cbv beta in H; rewrite firstn_consumed in H.
  exists (w :: ws), (d :: ds), rest.
  split; [reflexivity|]. split; [apply all_space_cons; exact Hw|].
  split; [apply token_cons; exact Hd|].
  split; [apply ends_token; exact Hstop|].
  apply opt_cases in H; destruct H as [H|[Hnone H]].
  - right.
    apply ponder_inv in H.
    destruct H as (ws2 & ws3 & pm & rest' & -> & Hw2 & Hw3 & Hpm & He & ->).
    exists ws2, ws3, pm, rest'; auto 7.
  - left; split; [unfold accept in H; injection H as <-; reflexivity|].
    intros ws2 ws3 pm rest' -> Hw2 Hw3 Hpm.
    match type of Hnone with
    | rmatch _ _ ?b _ ?c = None =>
        destruct (ponder_complete b ws2 ws3 pm rest' c Hw2 Hw3 Hpm) as [m' Hm']
    end.
    rewrite Hm' in Hnone; discriminate.
Qed.

Lemma bestmove_re_complete (ws mv rest : jstr) :
  all_space ws -> token mv ->
  exists m, rsearch bestmove_re (str "bestmove" ++ ws ++ mv ++ rest) = Some m.
Proof.
  intros [Hn Hw] Hmv.
  pose proof (token_run mv Hmv) as Hd; destruct Hmv as [Hnm _].
  destruct ws as [|w ws]; [contradiction|].
  destruct mv as [|d ds]; [contradiction|].
  apply (search_complete bestmove_re [] []).
  unfold bestmove_re.
  rewrite cat_eq; cbn [rmatch rev app].
  change (strip_prefix (str "bestmove")
            (str "bestmove" ++ (w :: ws) ++ (d :: ds) ++ rest))
    with (Some ((w :: ws) ++ (d :: ds) ++ rest)).
  cbv iota.
  apply (plus_complete is_space); [exact Hw|].
  change (exists m,
             rmatch (Grp 1 (Plus not_space)
                       @@ Opt (Plus is_space @@ Lit (str "ponder")
                                 @@ Plus is_space @@ Grp 2 (Plus not_space)))
               accept (rev (w :: ws) ++ rev (str "bestmove") ++ [])
               ((d :: ds) ++ rest) [] = Some m).
  rewrite cat_eq, grp_eq; apply plus_complete; [exact Hd|].
  cbv beta; apply opt_complete; unfold accept; eauto.
Qed.

(** The white space and the token that a text begins with are determined
    by the text. *)
Lemma leading_token_unique (ws mv rest ws' mv' rest' : jstr) :
  all_space ws -> token mv -> token_ends rest = true ->
  all_space ws' -> token mv' -> token_ends rest' = true ->
  ws ++ mv ++ rest = ws' ++ mv' ++ rest' ->
  mv = mv' /\ rest = rest'.
Proof.
  intros [_ Hw] Hmv He [_ Hw'] Hmv' He' E.
  destruct (span_unique is_space _ _ _ _ Hw Hw'
              (token_first mv rest Hmv) (token_first mv' rest' Hmv') E)
    as [_ E1].
  exact (span_unique not_space _ _ _ _ (token_run mv Hmv) (token_run mv' Hmv')
           (token_last rest He) (token_last rest' He') E1).
Qed.

End Bestmove.

(** X18: the result of a bestmove line has a best move exactly when the
    keyword at the start of the line is followed by white space and a
    token, and the best move is that whole token; it has a ponder move
    exactly when that token is followed by white space, the word ponder,
    white space and a token, and the ponder move is that whole token; so
    there is no ponder move without a best move. *)
Theorem X18_bestmove_tokens :
  forall (line : jstr) (s : session),
    (forall mv,
       Result.bestmove (bestmovePayload line s) = Some mv
       <-> exists ws rest,
             line = str "bestmove" ++ ws ++ mv ++ rest
             /\ all_space ws /\ token mv /\ token_ends rest = true)
    /\ (forall pm,
          Result.ponder (bestmovePayload line s) = Some pm ->
          exists ws mv ws2 ws3 rest,
            Result.bestmove (bestmovePayload line s) = Some mv
            /\ line = str "bestmove" ++ ws ++ mv ++ ws2 ++ str "ponder" ++ ws3
                        ++ pm ++ rest
            /\ all_space ws /\ token mv
            /\ all_space ws2 /\ all_space ws3 /\ token pm
            /\ token_ends rest = true)
    /\ (forall ws mv ws2 ws3 pm rest,
          line = str "bestmove" ++ ws ++ mv ++ ws2 ++ str "ponder" ++ ws3
                   ++ pm ++ rest ->
          all_space ws -> token mv -> all_space ws2 -> all_space ws3 ->
          token pm -> token_ends rest = true ->
          Result.bestmove (bestmovePayload line s) = Some mv
          /\ Result.ponder (bestmovePayload line s) = Some pm)
    /\ (Result.bestmove (bestmovePayload line s) = None ->
        Result.ponder (bestmovePayload line s) = None).
Proof.
  intros line s; unfold bestmovePayload; cbn [Result.bestmove Result.ponder].
  assert (S2 : forall ws2 r, all_space ws2 -> token_ends (ws2 ++ r) = true).
  { intros ws2 r [Hn Hw]; destruct ws2 as [|w ws2]; [contradiction|].
    inversion Hw; assumption. }
  assert (G : forall m ws mv rest,
             rsearch bestmove_re line = Some m ->
             line = str "bestmove" ++ ws ++ mv ++ rest ->
             all_space ws -> token mv -> token_ends rest = true ->
             group 1 m = Some mv
             /\ forall ws2 ws3 pm rest',
                  rest = ws2 ++ str "ponder" ++ ws3 ++ pm ++ rest' ->
                  all_space ws2 -> all_space ws3 -> token pm ->
                  token_ends rest' = true ->
                  group 2 m = Some pm).
  { intros m ws mv rest Hs E Hw Hmv He.
    apply bestmove_re_inv in Hs.
    destruct Hs as (ws' & mv' & rest0 & E' & Hw' & Hmv' & He' & Hm).
    rewrite E in E'; apply app_inv_head in E'.
    destruct (leading_token_unique _ _ _ _ _ _ Hw Hmv He Hw' Hmv' He' E')
      as [<- <-].
    destruct Hm as [[-> Hno]|(w2 & w3 & p & r & Er & Hw2 & Hw3 & Hp & Hr & ->)].
    - split; [reflexivity|].
      intros ws2 ws3 pm rest' Er Hw2 Hw3 Hpm _.
      exfalso; exact (Hno ws2 ws3 pm rest' Er Hw2 Hw3 Hpm).
    - split; [reflexivity|].
      intros ws2 ws3 pm rest' Er' Hw2' Hw3' Hpm' Hr'.
      rewrite Er in Er'.
      destruct Hw2 as [_ Hw2], Hw2' as [_ Hw2'].
      destruct (span_unique is_space w2 ws2 (str "ponder" ++ w3 ++ p ++ r)
                  (str "ponder" ++ ws3 ++ pm ++ rest') Hw2 Hw2'
                  eq_refl eq_refl Er') as [_ E2].
      apply app_inv_head in E2.
      destruct (leading_token_unique _ _ _ _ _ _ Hw3 Hp Hr Hw3' Hpm' Hr' E2)
        as [-> _].
      reflexivity. }
  split; [|split; [|split]].
  - intros mv; split.
    + destruct (rsearch bestmove_re line) as [m|] eqn:Hs; [|discriminate].
      intros Hg.
      apply bestmove_re_inv in Hs.
      destruct Hs as (ws & mv' & rest & -> & Hw & Hmv & He & Hm).
      assert (mv' = mv) as ->.
      { destruct Hm as [[-> _]|(? & ? & ? & ? & _ & _ & _ & _ & _ & ->)];
          simpl in Hg; injection Hg as <-; reflexivity. }
      eauto 6.
    + intros (ws & rest & E & Hw & Hmv & He).
      destruct (bestmove_re_complete ws mv rest Hw Hmv) as [m Hm].
      rewrite <- E in Hm; rewrite Hm.
      exact (proj1 (G m ws mv rest Hm E Hw Hmv He)).
  - intros pm.
    destruct (rsearch bestmove_re line) as [m|] eqn:Hs; [|discriminate].
    pose proof Hs as Hs'.
    apply bestmove_re_inv in Hs.
    destruct Hs as (ws & mv & rest & -> & Hw & Hmv & He
                    & [[-> _]|(ws2 & ws3 & pm' & rest' & -> & Hw2 & Hw3 & Hpm
                               & Hr & ->)]);
      [discriminate|].
    change (group 2 [(2%nat, pm'); (1%nat, mv)]) with (Some pm').
    destruct pm' as [|c pm']; [discriminate|].
    intros [= <-].
    exists ws, mv, ws2, ws3, rest'; auto 10.
  - intros ws mv ws2 ws3 pm rest E Hw Hmv Hw2 Hw3 Hpm He.
    destruct (bestmove_re_complete ws mv
                (ws2 ++ str "ponder" ++ ws3 ++ pm ++ rest) Hw Hmv) as [m Hm].
    rewrite <- E in Hm; rewrite Hm.
    destruct (G m ws mv _ Hm E Hw Hmv (S2 ws2 _ Hw2)) as [G1 G2].
    split; [exact G1|].
    rewrite (G2 ws2 ws3 pm rest eq_refl Hw2 Hw3 Hpm He).
    destruct Hpm as [Hn _]; destruct pm; [contradiction|reflexivity].
  - destruct (rsearch bestmove_re line) as [m|] eqn:Hs; [|reflexivity].
    apply bestmove_re_inv in Hs.
    destruct Hs as (ws & mv & rest & _ & _ & _ & _
                    & [[-> _]|(? & ? & ? & ? & _ & _ & _ & _ & _ & ->)]);
      discriminate.
Qed.

(** ** The further properties at concrete sessions and inputs *)

Lemma X1_chunking_irrelevant_witness :
  analysis installedHost fenRequest (map StdoutData stalledChunks)
    = analysis installedHost fenRequest [StdoutData (concat stalledChunks)].
Proof.
  apply (proj2 (X1_chunking_irrelevant installedHost fenRequest [] stalledChunks
                  eq_refl eq_refl)).
  vm_compute; repeat constructor.
Defined.

Lemma X2_partial_lines_wait_witness :
  onStdoutData sampleRequest (str "bestmove e2e4") initial
    = (set_buffer (str "bestmove e2e4") initial, [])
  /\ onStdoutData sampleRequest (str "bestmove e2e4" ++ CRLF) initial
     = onStdoutData sampleRequest (str "bestmove e2e4" ++ LF) initial.
Proof.
  assert (H : lf_free (buffer initial ++ str "bestmove e2e4"))
    by (vm_compute; repeat constructor; discriminate).
  split.
  - apply (proj1 (X2_partial_lines_wait sampleRequest initial _ H)).
  - apply (proj2 (proj2 (X2_partial_lines_wait sampleRequest initial _ H))).
Defined.

Lemma X4_replies_depend_on_lines_only_witness :
  writes (snd (onStdoutData sampleRequest
                 (str "ok" ++ LF ++ str "info depth 1" ++ LF)
                 (set_buffer (str "ready") initial)))
    = [StdinWrite (str "position startpos moves e2e4 e7e5" ++ LF);
       StdinWrite (str "go depth 12" ++ LF)].
Proof.
  refine (eq_trans
            (proj2 (X4_replies_depend_on_lines_only sampleRequest
                      [str "e2e4"; str "e7e5"] []
                      (set_buffer (str "ready") initial)
                      (str "ok" ++ LF ++ str "info depth 1" ++ LF)
                      eq_refl eq_refl)) _).
  vm_compute; reflexivity.
Defined.

Lemma X6_listeners_after_settlement_witness :
  deliver sampleRequest (StdoutData (str "readyok" ++ LF))
    (fst (run sampleRequest finishedEvents initial))
  = (fst (run sampleRequest finishedEvents initial), []).
Proof.
  apply (proj1 (X6_listeners_after_settlement sampleRequest finishedEvents)).
  vm_compute; reflexivity.
Defined.

Lemma X7_process_error_witness :
  fst (analyzeRoute installedHost None ([] ++ [ProcessError (str "spawn EACCES")]))
    = Some {| code := 503; content := ErrorReply (str "spawn EACCES") |}.
Proof.
  apply (proj2 (X7_process_error installedHost None [] (str "spawn EACCES")
                  eq_refl eq_refl)).
Defined.

Lemma X8_timer_forces_an_answer_witness :
  exists r, fst (analyzeRoute installedHost None
                   (map StdoutData stalledChunks ++ [TimeoutFired])) = Some r
            /\ (code r = 200 \/ code r = 503).
Proof.
  apply X8_timer_forces_an_answer.
  apply in_or_app; right; left; reflexivity.
Defined.

Lemma X11_parseUciMove_witness :
  exists u tail,
    Some (str "e7e8q") = Some u
    /\ length (str "e7") = 2%nat /\ length (str "e8") = 2%nat
    /\ u = str "e7" ++ str "e8" ++ tail
    /\ Some (str "q") = match tail with [] => None | c :: _ => Some [c] end.
Proof.
  exact (proj2 (X11_parseUciMove (Some (str "e7e8q")))
           {| from := str "e7"; to := str "e8"; promotion := Some (str "q") |}
           eq_refl).
Defined.

Lemma X13_formatEvaluation_witness :
  (str "mate" = str "cp"
   /\ formatEvaluation (parseScore (str "info score mate -2 pv a1a2"))
      = str "Eval -0.02")
  \/ (str "mate" = str "mate"
      /\ formatEvaluation (parseScore (str "info score mate -2 pv a1a2"))
         = str "Mate for 2").
Proof.
  apply (X13_formatEvaluation (str "info score mate -2 pv a1a2")
           (str "mate") (str "-2")).
  - exists (str "info "); split.
    + exists (str " "), (str " "), (str " pv a1a2").
      split; [reflexivity|]. split; [reflexivity|].
      split; [split; [discriminate|repeat constructor]|].
      split; [split; [discriminate|repeat constructor]|].
      split; [right; reflexivity|].
      split; [|reflexivity].
      exists (str "-"), 50%N, []; split; [reflexivity|].
      split; [right; reflexivity|repeat constructor].
    + no_earlier_field 5.
  - vm_compute; discriminate.
Defined.

Lemma X14_buildMoveLines_witness :
  startsWith (str "2. Nf3") (int_toString (Z.of_nat 1 + 1) ++ str ".") = true.
Proof.
  apply (proj2 (X14_buildMoveLines [str "e4"; str "e5"; str "Nf3"]) 1%nat).
  reflexivity.
Defined.

Lemma X15_clock_ticks_witness :
  Nat.iter 5 (tickWhite (str "white")) 3 = Z.max (3 - Z.of_nat 5) 0
  /\ Nat.iter 5 (tickBlack (str "white")) 3 = 3.
Proof.
  pose proof (X15_clock_ticks 5 3 (str "white") ltac:(lia)) as (Hw & _ & _ & Hb).
  split; [exact Hw|apply Hb; discriminate].
Defined.

Lemma X16_depth_and_nodes_fields_witness :
  exists digits : jstr,
    first_count_field (str "depth") (str "info depth 12 seldepth 18 nodes 40")
      digits
    /\ 0 <= digits_value 0 digits
    /\ (digits_value 0 digits <= MAX_SAFE_INTEGER ->
        Int 12 = Int (digits_value 0 digits)).
Proof.
  apply (proj1 (X16_depth_and_nodes_fields
                  (str "info depth 12 seldepth 18 nodes 40")) (Int 12)).
  vm_compute; reflexivity.
Defined.

Lemma X17_pv_is_the_rest_of_the_line_witness :
  exists pre ws,
    str "info multipv 1 pv e2e4 e7e5" = pre ++ str "pv" ++ ws ++ str "e2e4 e7e5"
    /\ word_before (rev pre) = false
    /\ all_space ws
    /\ str "e2e4 e7e5" <> []
    /\ Forall (fun c => is_line_term c = false) (str "e2e4 e7e5").
Proof.
  apply X17_pv_is_the_rest_of_the_line.
  vm_compute; reflexivity.
Defined.

Lemma X18_bestmove_tokens_witness :
  Result.bestmove (bestmovePayload (str "bestmove e2e4 ponder e7e5") initial)
    = Some (str "e2e4")
  /\ Result.ponder (bestmovePayload (str "bestmove e2e4 ponder e7e5") initial)
     = Some (str "e7e5").
Proof.
  apply (proj1 (proj2 (proj2 (X18_bestmove_tokens
                                (str "bestmove e2e4 ponder e7e5") initial)))
           (str " ") (str "e2e4") (str " ") (str " ") (str "e7e5") []);
    try reflexivity;
    split; try discriminate; repeat constructor.
Defined.

Example depth_is_not_seldepth :
  depthField (str "info seldepth 18 nodes 40") = None
  /\ depthField (str "info depth 12 seldepth 18") = Some (Int 12).
Proof. split; vm_compute; reflexivity. Qed.

Example pv_is_not_multipv :
  pvField (str "info depth 3 multipv 1") = None
  /\ pvField (str "info multipv 1 pv e2e4 e7e5") = Some (str "e2e4 e7e5").
Proof. split; vm_compute; reflexivity. Qed.

Example no_move_for_the_bot :
  parseUciMove
    (Result.bestmove (bestmovePayload (str "bestmove (none)") initial)) = None
  /\ parseUciMove (Result.bestmove (bestmovePayload (str "bestmove") initial))
     = None
  /\ parseUciMove
       (Result.bestmove (bestmovePayload (str "bestmove e2e4 ponder e7e5") initial))
     = Some {| from := str "e2"; to := str "e4"; promotion := None |}.
Proof. repeat split; vm_compute; reflexivity. Qed.

Example formatTime_samples :
  formatTime 600 = str "10:00"
  /\ formatTime 65 = str "1:05"
  /\ formatTime (-3) = str "0:00".
Proof. repeat split; vm_compute; reflexivity. Qed.

Example buildMoveLines_sample :
  buildMoveLines [str "e4"; str "e5"; str "Nf3"] = [str "1. e4 e5"; str "2. Nf3"].
Proof. vm_compute; reflexivity. Qed.
